(** * loom: the resilient execution pipeline

    A shallow embedding of the executor ([executor.Execute]), the chain
    orchestrator ([chain.Execute], [runStep], [runParallel]) and two of the
    provider decorators of package middleware (the response cache and the
    circuit breaker), with the properties of the retry, fallback, skipping,
    caching and breaker logic proved about them.

    Conventions.
    - Go's [int], [time.Duration] and [time.Time] are integers ([Z]); a
      [Time] is a number of nanoseconds since the Unix epoch, a [Duration]
      a number of nanoseconds.  The [atomic.Uint64] counters of the circuit
      breaker wrap modulo 2^64 and are converted to [float64] the way Go
      converts them.
    - A Go function returning a pointer and an [error] returns a pair of options, so
      that "no result together with the error" is a property to be proved
      and not one of the type.
    - Struct types of one package share field names in Go; a field [F] is
      written with a short prefix for its struct ([req_Model], [resp_Model],
      [xreq_Model], ...).
    - Everything outside the process is a state of type [S] owned by the
      completion service, next to the clock; every call of
      [Provider.Complete] and of [Prompt.Render] is appended to a trace,
      which is how "the service is invoked exactly once" or "the task is
      never rendered" are stated.
    - A nil dereference is [None]: the functions of the chain return an
      option.
    - The decorators are run one call at a time: their mutexes and atomics
      are not modelled.  The steps of a parallel group run to their end one
      after the other, in an order that the scheduler chooses. *)

From Stdlib Require Import ZArith Lia Bool Ascii Init.Byte.
From Stdlib Require Import Floats.PrimFloat Numbers.Cyclic.Int63.Uint63.
From stdpp Require Import base option list gmap strings.

Local Open Scope Z_scope.

#[local] Set Warnings "-register-all".

(** ** Package time *)

Module gotime.

Definition Time := Z.
Definition Duration := Z.

Definition Nanosecond : Duration := 1.
Definition Microsecond : Duration := 1000 * Nanosecond.
Definition Millisecond : Duration := 1000 * Microsecond.
Definition Second : Duration := 1000 * Millisecond.
Definition Minute : Duration := 60 * Second.
Definition Hour : Duration := 60 * Minute.

(** The zero [time.Time], January 1 of year 1. *)
Definition zeroTime : Time := -62135596800 * Second.

Definition Add (t : Time) (d : Duration) : Time := t + d.
Definition Before (t u : Time) : bool := t <? u.
Definition After (t u : Time) : bool := u <? t.

End gotime.

Export gotime.

(** ** Errors

    The error values that travel through the pipeline.  [fmt.Errorf] with
    [%w] is a constructor holding the wrapped error. *)

Inductive error : Type :=
| Canceled                                   (* context.Canceled *)
| DeadlineExceeded                           (* context.DeadlineExceeded *)
| ErrNoRenderer                              (* core.ErrNoRenderer *)
| ErrOther (msg : string)                    (* an error of a service or a renderer *)
| ErrPromptRequired                          (* "executor: prompt is required" *)
| ErrExecutorRender (err : error)            (* "executor render: %w" *)
| ErrExecutorAfter (attempts : Z) (lastErr : option error)
                                             (* "executor after %d attempts: %w" *)
| ErrStepAndFallbackFailed (lastErr : error) (* "step and fallback failed: %w" *)
| ErrChainStep (name : string) (err : error) (* "chain step %q: %w" *).

(** ** Package context

    A context is done from an instant on: the instant of its deadline, or
    the instant at which its owner cancels it, which the model fixes in
    advance. *)

Module gocontext.

Record Ctx := mkCtx {
  cancelAt : option Time;
  deadline : option Time
}.

Definition Background : Ctx := mkCtx None None.

(** The instant from which [ctx.Done()] is closed. *)
Definition doneAt (ctx : Ctx) : option Time :=
  match cancelAt ctx, deadline ctx with
  | Some c, Some d => Some (Z.min c d)
  | Some c, None => Some c
  | None, Some d => Some d
  | None, None => None
  end.

Definition cause (ctx : Ctx) : error :=
  match cancelAt ctx, deadline ctx with
  | Some c, Some d => if c <=? d then Canceled else DeadlineExceeded
  | Some _, None => Canceled
  | None, _ => DeadlineExceeded
  end.

Definition isDone (ctx : Ctx) (now : Time) : bool :=
  match doneAt ctx with
  | Some t => t <=? now
  | None => false
  end.

(** [ctx.Err()] read at instant [now]. *)
Definition Err (ctx : Ctx) (now : Time) : option error :=
  if isDone ctx now then Some (cause ctx) else None.

(** [context.WithTimeout(parent, d)] called at instant [now]: the earlier
    of the parent's deadline and [now + d]. *)
Definition WithTimeout (parent : Ctx) (d : Duration) (now : Time) : Ctx :=
  mkCtx (cancelAt parent)
        (Some (match deadline parent with
               | Some p => Z.min p (Add now d)
               | None => Add now d
               end)).

End gocontext.

Export gocontext.

(** ** Package provider *)

(** A fragment of Go's [interface{}], for metadata and template inputs. *)
Inductive Value : Type :=
| VNil
| VBool (b : bool)
| VInt (n : Z)
| VFloat (f : float)
| VStr (s : string).

Module provider.

Record TokenUsage := mkTokenUsage {
  PromptTokens : Z;
  CompletionTokens : Z;
  TotalTokens : Z
}.

Record CompletionRequest := mkCompletionRequest {
  req_Prompt : string;
  req_System : string;
  req_Model : string;
  req_Temperature : float;
  req_MaxTokens : Z;
  req_StopTokens : list string;
  req_TopP : float;
  req_Metadata : gmap string Value
}.

Record CompletionResponse := mkCompletionResponse {
  resp_Content : string;
  resp_Model : string;
  resp_Usage : TokenUsage;
  resp_FinishReason : string;
  resp_Metadata : gmap string Value
}.

(** What [Complete] hands back: a response, or an error. *)
Definition Outcome : Type := CompletionResponse + error.

(** [Provider.Complete]: the service reads the context, the request and
    the clock, and moves the clock and its own state. *)
Definition Provider (S : Type) : Type :=
  Ctx -> CompletionRequest -> Time -> S -> Outcome * Time * S.

End provider.

Export provider.

(** ** Package core *)

Module core.

Definition Input := gmap string Value.

Record Rendered := mkRendered {
  rd_System : string;
  rd_User : string;
  rd_Input : Input
}.

(** [Renderer.Render], already applied to the prompt it renders. *)
Definition Renderer : Type := Ctx -> Time -> Input -> Rendered + error.

Record Prompt := mkPrompt {
  ID : string;
  Metadata : gmap string Value;
  renderer : option Renderer
}.

End core.

Export core.

(** ** The world: clock, service state and trace *)

Inductive Event : Type :=
| EvRender (id : string) (input : Input)
| EvComplete (ctx : Ctx) (req : CompletionRequest) (out : Outcome).

Definition isComplete (ev : Event) : bool :=
  match ev with EvComplete _ _ _ => true | EvRender _ _ => false end.

Section World.

Context {S : Type}.

Record World := mkWorld {
  now : Time;
  pst : S;
  trace : list Event
}.

Definition setNow (t : Time) (w : World) : World :=
  mkWorld t (pst w) (trace w).

Definition logEvent (ev : Event) (w : World) : World :=
  mkWorld (now w) (pst w) (trace w ++ [ev]).

(** One call of [p.Complete(ctx, req)]. *)
Definition callComplete (p : Provider S) (ctx : Ctx) (req : CompletionRequest)
    (w : World) : Outcome * World :=
  let '(out, t, s) := p ctx req (now w) (pst w) in
  (out, mkWorld t s (trace w ++ [EvComplete ctx req out])).

(** [time.Sleep(d)]: returns after [d], whatever happens meanwhile. *)
Definition Sleep (d : Duration) (w : World) : World :=
  setNow (now w + Z.max 0 d) w.

(** [select { case <-ctx.Done(): ...; case <-time.After(d): }]: true when
    the context is done first, and the clock stands at the instant at which
    the select returned.  When both are ready at the same instant Go takes
    either; the model takes [ctx.Done()]. *)
Definition selectDoneOrAfter (ctx : Ctx) (d : Duration) (w : World) : bool * World :=
  let wake := now w + Z.max 0 d in
  match doneAt ctx with
  | Some t =>
      if t <=? wake then (true, setNow (Z.max (now w) t) w)
      else (false, setNow wake w)
  | None => (false, setNow wake w)
  end.

(** The method [Render] of [Prompt], package core. *)
Definition Render (p : Prompt) (ctx : Ctx) (input : Input) (w : World)
    : (Rendered + error) * World :=
  let w := logEvent (EvRender (ID p) input) w in
  match renderer p with
  | None => (inr ErrNoRenderer, w)
  | Some r => (r ctx (now w) input, w)
  end.

End World.

Arguments World : clear implicits.

(** ** Package executor *)

Module executor.

Definition BackoffFunc : Type := Z -> Duration.

Record ExecuteRequest := mkExecuteRequest {
  xreq_Prompt : option Prompt;
  xreq_Input : Input;
  xreq_Model : string;
  xreq_Temperature : float;
  xreq_MaxTokens : Z;
  xreq_StopTokens : list string;
  xreq_Timeout : Duration
}.

Record ExecuteResult := mkExecuteResult {
  xres_Content : string;
  xres_Usage : TokenUsage;
  xres_Model : string;
  xres_Rendered : Rendered;
  xres_Attempts : Z
}.

Section Executor.

Context {S : Type}.

Record Executor := mkExecutor {
  Provider : provider.Provider S;
  MaxRetries : Z;
  Backoff : option BackoffFunc;
  BaseTimeout : Duration
}.

(** The completion request built from the rendered prompt, with the
    model defaulted. *)
Definition buildRequest (p : Prompt) (rendered : Rendered) (req : ExecuteRequest)
    : CompletionRequest :=
  let creq :=
    mkCompletionRequest (rd_User rendered) (rd_System rendered) (xreq_Model req)
      (xreq_Temperature req) (xreq_MaxTokens req) (xreq_StopTokens req)
      PrimFloat.zero (Metadata p) in
  if String.eqb (req_Model creq) "" then
    mkCompletionRequest (req_Prompt creq) (req_System creq) "gpt-3.5-turbo"
      (req_Temperature creq) (req_MaxTokens creq) (req_StopTokens creq)
      (req_TopP creq) (req_Metadata creq)
  else creq.

(** The attempt loop [for attempt := 0; attempt <= e.MaxRetries; attempt++].
    [k] is the number of iterations the loop condition still allows,
    [MaxRetries - attempt + 1]. *)
Fixpoint attemptLoop (e : Executor) (ctx : Ctx) (creq : CompletionRequest)
    (rendered : Rendered) (k : nat) (attempt attempts : Z)
    (lastErr : option error) (w : World S)
    : (option ExecuteResult * option error) * World S :=
  match k with
  | O => ((None, Some (ErrExecutorAfter attempts lastErr)), w)
  | Datatypes.S k' =>
      let attempts := attempts + 1 in
      let '(out, w1) := callComplete (Provider e) ctx creq w in
      match out with
      | inl resp =>
          ((Some (mkExecuteResult (resp_Content resp) (resp_Usage resp)
                    (resp_Model resp) rendered attempts), None), w1)
      | inr err =>
          if attempt =? MaxRetries e then
            ((None, Some (ErrExecutorAfter attempts (Some err))), w1)
          else
            let w2 := match Backoff e with
                      | Some backoff => Sleep (backoff attempt) w1
                      | None => w1
                      end in
            attemptLoop e ctx creq rendered k' (attempt + 1) attempts (Some err) w2
      end
  end.

(** The context under which [Execute], called at instant [t], runs its
    attempts. *)
Definition attemptCtx (e : Executor) (ctx : Ctx) (req : ExecuteRequest)
    (t : Time) : Ctx :=
  let timeout := if xreq_Timeout req =? 0 then BaseTimeout e else xreq_Timeout req in
  if 0 <? timeout then WithTimeout ctx timeout t else ctx.

Definition Execute (e : Executor) (ctx : Ctx) (req : ExecuteRequest) (w : World S)
    : (option ExecuteResult * option error) * World S :=
  match xreq_Prompt req with
  | None => ((None, Some ErrPromptRequired), w)
  | Some p =>
      let '(r, w1) := Render p ctx (xreq_Input req) w in
      match r with
      | inr err => ((None, Some (ErrExecutorRender err)), w1)
      | inl rendered =>
          let ctx := attemptCtx e ctx req (now w1) in
          attemptLoop e ctx (buildRequest p rendered req) rendered
            (Z.to_nat (MaxRetries e + 1)) 0 0 None w1
      end
  end.

(** *** Backoff and construction *)

(** A product of two [int64] keeps its low 64 bits, read as a signed
    number. *)
Definition wrap64 (z : Z) : Z := (z + 2 ^ 63) mod 2 ^ 64 - 2 ^ 63.

(** [time.Duration(math.Pow(2, float64(attempt)))].  [math.Pow] answers
    the float [2^attempt], which is exact; the conversion discards the
    fraction of a negative power and yields [2^attempt] up to 62.  From
    63 on the float is outside [int64] and Go leaves the result of the
    conversion to the implementation: [outOfRange]. *)
Definition pow2Duration (outOfRange : Z -> Z) (attempt : Z) : Z :=
  if attempt <? 0 then 0
  else if attempt <=? 62 then 2 ^ attempt
  else outOfRange attempt.

(** [ExponentialBackoff(base, max)] *)
Definition ExponentialBackoff (outOfRange : Z -> Z) (base max : Duration)
    : BackoffFunc :=
  fun attempt =>
    let d := wrap64 (base * pow2Duration outOfRange attempt) in
    if max <? d then max else d.

(** An [ExecutorOption] changes the executor under construction. *)
Definition ExecutorOption : Type := Executor -> Executor.

(** [New(p, opts...)]: no retry, the exponential backoff from half a second
    to thirty seconds, no timeout, and then the options in their order. *)
Definition New (outOfRange : Z -> Z) (p : provider.Provider S)
    (opts : list ExecutorOption) : Executor :=
  foldl (fun e o => o e)
    (mkExecutor p 0
       (Some (ExponentialBackoff outOfRange (500 * Millisecond) (30 * Second))) 0)
    opts.

(** *** Vocabulary for the properties of [Execute] *)

(** The time slept over [m] waits, the first one after attempt [a]. *)
Fixpoint sleptFrom (backoff : option BackoffFunc) (a : Z) (m : nat) : Duration :=
  match m with
  | O => 0
  | Datatypes.S m' =>
      match backoff with
      | Some f => Z.max 0 (f a)
      | None => 0
      end + sleptFrom backoff (a + 1) m'
  end.

(** The timeout that [Execute] applies: the request's, or the executor's
    when the request's is zero. *)
Definition effectiveTimeout (e : Executor) (req : ExecuteRequest) : Duration :=
  if xreq_Timeout req =? 0 then BaseTimeout e else xreq_Timeout req.

(** What an event of [Execute], called at instant [t], looks like: the
    rendering of the request's prompt on the request's input, or a call
    carrying the context of the attempts and the request built from the
    prompt. *)
Definition executeEvent (e : Executor) (ctx : Ctx) (req : ExecuteRequest)
    (t : Time) (ev : Event) : Prop :=
  match ev with
  | EvRender id input =>
      (exists p, xreq_Prompt req = Some p /\ id = ID p) /\ input = xreq_Input req
  | EvComplete c q _ =>
      c = attemptCtx e ctx req t /\
      exists p rendered, xreq_Prompt req = Some p /\ q = buildRequest p rendered req
  end.

(** *** Vocabulary for the properties of the attempt loop *)

(** The error that the loop reports after the failures [errs], having
    started with [lastErr]. *)
Definition lastOf (lastErr : option error) (errs : list error) : option error :=
  match last errs with
  | Some err => Some err
  | None => lastErr
  end.

(** The calls of one run of the attempt loop: either some failures and then
    a success, which is returned with the number of attempts made, or
    nothing but failures, as many as the loop allows. *)
Inductive loopRun (rendered : Rendered) (k : nat) (attempts : Z)
    (lastErr : option error)
    : list Outcome -> option ExecuteResult * option error -> Prop :=
| loopSucceeds errs resp :
    (length errs < k)%nat ->
    loopRun rendered k attempts lastErr
      (map inr errs ++ [inl resp])
      (Some (mkExecuteResult (resp_Content resp) (resp_Usage resp)
               (resp_Model resp) rendered
               (attempts + Z.of_nat (length errs) + 1)), None)
| loopExhausted errs :
    length errs = k ->
    loopRun rendered k attempts lastErr
      (map inr errs)
      (None, Some (ErrExecutorAfter (attempts + Z.of_nat k) (lastOf lastErr errs))).

(** Every outcome of a list was handed back by the service for this
    context and request. *)
Definition fromProvider (e : Executor) (ctx : Ctx) (creq : CompletionRequest)
    (outs : list Outcome) : Prop :=
  Forall (fun out => exists t s, (Provider e ctx creq t s).1.1 = out) outs.

End Executor.

Arguments Executor : clear implicits.

(** The options [WithRetry] and [WithTimeout] of the package, under a name
    of their own next to [context.WithTimeout]. *)
Module opts.

Definition WithRetry {S : Type} (maxRetries : Z) (backoff : option BackoffFunc)
    : @ExecutorOption S :=
  fun e => mkExecutor (Provider e) maxRetries backoff (BaseTimeout e).

Definition WithTimeout {S : Type} (d : Duration) : @ExecutorOption S :=
  fun e => mkExecutor (Provider e) (MaxRetries e) (Backoff e) d.

End opts.

End executor.

(** ** Package chain *)

Module chain.

Import executor.

(** [ChainResult]: the outputs of the steps, keyed by step name. *)
Record ChainResult := mkChainResult {
  outputs : gmap string string
}.

Definition Get (c : ChainResult) (step : string) : string :=
  default "" (outputs c !! step).

Record stepDef := mkStepDef {
  name : string;
  prompt : option Prompt;
  maxRetries : Z;
  backoff : option BackoffFunc;
  timeout : Duration;
  fallback : option Prompt;
  condition : option (Ctx -> ChainResult -> bool)
}.

(** A node is either a single step or a parallel group. *)
Record node := mkNode {
  parallel : bool;
  steps : list stepDef
}.

(** What one launched step of a parallel group sends on the channel. *)
Record pair := mkPair {
  pair_name : string;
  pair_val : string;
  pair_err : option error
}.

(** [s.condition != nil && !s.condition(ctx, result)] *)
Definition skipped (ctx : Ctx) (result : ChainResult) (s : stepDef) : bool :=
  match condition s with
  | Some cond => negb (cond ctx result)
  | None => false
  end.

(** [currentInput[k] = v] for every [k, v] of [outs]. *)
Definition mergeInput (outs : gmap string string) (input : Input) : Input :=
  (VStr <$> outs) ∪ input.

(** [result.outputs[k] = v] for every [k, v] of [outs]. *)
Definition mergeOutputs (outs : gmap string string) (result : ChainResult)
    : ChainResult :=
  mkChainResult (outs ∪ outputs result).

(** A Go result pair is well formed when it holds a result or an error,
    and not both. *)
Definition resultXorError {A : Type} (r : option A * option error) : Prop :=
  (r.1 = None /\ is_Some r.2) \/ (is_Some r.1 /\ r.2 = None).

(** [req.Prompt = s.fallback] *)
Definition setPrompt (p : Prompt) (req : ExecuteRequest) : ExecuteRequest :=
  mkExecuteRequest (Some p) (xreq_Input req) (xreq_Model req)
    (xreq_Temperature req) (xreq_MaxTokens req) (xreq_StopTokens req)
    (xreq_Timeout req).

(** The loop of [runParallel] over the closed channel: the first error
    received is returned, otherwise the values are collected by name. *)
Fixpoint collect (ps : list pair) (out : gmap string string)
    : option (gmap string string) * option error :=
  match ps with
  | [] => (Some out, None)
  | p :: ps' =>
      match pair_err p with
      | Some err => (None, Some err)
      | None => collect ps' (<[pair_name p := pair_val p]> out)
      end
  end.

Section Chain.

Context {S : Type}.

Record Chain := mkChain {
  chain_name : string;
  nodes : list node;
  exec : option (Executor S);
  defaultModel : string
}.

(** The tail of [runStep], reached when no executor is set or the retry
    loop is left without a return.  [None] is the nil dereference of a
    step built without a prompt. *)
Definition renderOnly (s : stepDef) (ctx : Ctx) (input : Input) (w : World S)
    : option ((string * option error) * World S) :=
  match prompt s with
  | None => None
  | Some p =>
      let '(r, w1) := Render p ctx input w in
      match r with
      | inr err => Some (("", Some err), w1)
      | inl rendered => Some ((rd_User rendered, None), w1)
      end
  end.

(** The retry loop of [runStep],
    [for attempt := 0; attempt <= s.maxRetries; attempt++]; [k] is the
    number of iterations the loop condition still allows. *)
Fixpoint retryLoop (e : Executor S) (s : stepDef) (ctx : Ctx)
    (req : ExecuteRequest) (input : Input) (k : nat) (attempt : Z) (w : World S)
    : option ((string * option error) * World S) :=
  match k with
  | O => renderOnly s ctx input w
  | Datatypes.S k' =>
      let '((res, err), w1) := Execute e ctx req w in
      match err with
      | None =>
          match res with
          | Some r => Some ((xres_Content r, None), w1)
          | None => None
          end
      | Some lastErr =>
          if attempt =? maxRetries s then
            match fallback s with
            | Some fb =>
                let '((res2, err2), w2) := Execute e ctx (setPrompt fb req) w1 in
                match err2 with
                | Some _ => Some (("", Some (ErrStepAndFallbackFailed lastErr)), w2)
                | None =>
                    match res2 with
                    | Some r => Some ((xres_Content r, None), w2)
                    | None => None
                    end
                end
            | None => Some (("", Some lastErr), w1)
            end
          else
            match backoff s with
            | Some f =>
                let '(done, w2) := selectDoneOrAfter ctx (f attempt) w1 in
                if done then Some (("", Err ctx (now w2)), w2)
                else retryLoop e s ctx req input k' (attempt + 1) w2
            | None => retryLoop e s ctx req input k' (attempt + 1) w1
            end
      end
  end.



(** The context of a step called at instant [t]: the step's own timeout,
    when it has one, on top of the chain's context. *)
Definition stepCtx (ctx : Ctx) (s : stepDef) (t : Time) : Ctx :=
  if 0 <? timeout s then WithTimeout ctx (timeout s) t else ctx.

(** The request with which a step calls the executor. *)
Definition stepRequest (c : Chain) (s : stepDef) (input : Input) : ExecuteRequest :=
  mkExecuteRequest (prompt s) input
    (if String.eqb (defaultModel c) "" then "" else defaultModel c)
    PrimFloat.zero 0 [] (timeout s).

Definition runStep (c : Chain) (ctx : Ctx) (s : stepDef) (input : Input)
    (w : World S) : option ((string * option error) * World S) :=
  let ctx := stepCtx ctx s (now w) in
  match exec c with
  | Some e =>
      retryLoop e s ctx (stepRequest c s input) input
        (Z.to_nat (maxRetries s + 1)) 0 w
  | None => renderOnly s ctx input w
  end.

(** The launched steps of a group run to their end one after the other,
    each on the same input; the list of pairs is in the order in which
    they finish. *)
Fixpoint runLaunched (c : Chain) (ctx : Ctx) (launched : list stepDef)
    (input : Input) (w : World S) : option (list pair * World S) :=
  match launched with
  | [] => Some ([], w)
  | s :: rest =>
      match runStep c ctx s input w with
      | None => None
      | Some ((val, err), w1) =>
          match runLaunched c ctx rest input w1 with
          | None => None
          | Some (ps, w2) => Some (mkPair (name s) val err :: ps, w2)
          end
      end
  end.

Section Schedule.

(** The order in which the goroutines of a group run and finish is the
    scheduler's choice: [sched] reorders the launched steps. *)
Variable sched : list stepDef -> list stepDef.

Definition runParallel (c : Chain) (ctx : Ctx) (group : list stepDef)
    (input : Input) (result : ChainResult) (w : World S)
    : option ((option (gmap string string) * option error) * World S) :=
  let launched := filter (fun s => skipped ctx result s = false) group in
  match runLaunched c ctx (sched launched) input w with
  | None => None
  | Some (ps, w1) => Some (collect ps ∅, w1)
  end.

(** The loop over the steps of a sequential node: [inl] is a return
    out of [Execute], [inr] the result and input with which the loop
    over the nodes goes on. *)
Fixpoint runSequential (c : Chain) (ctx : Ctx) (ss : list stepDef)
    (result : ChainResult) (currentInput : Input) (w : World S)
    : option (((option ChainResult * option error) + (ChainResult * Input))
              * World S) :=
  match ss with
  | [] => Some (inr (result, currentInput), w)
  | s :: rest =>
      if skipped ctx result s then
        runSequential c ctx rest result currentInput w
      else
        match runStep c ctx s currentInput w with
        | None => None
        | Some ((out, err), w1) =>
            match err with
            | Some err => Some (inl (None, Some (ErrChainStep (name s) err)), w1)
            | None =>
                runSequential c ctx rest
                  (mkChainResult (<[name s := out]> (outputs result)))
                  (<[name s := VStr out]> currentInput) w1
            end
        end
  end.

(** The loop of [Execute] over the nodes. *)
Fixpoint runNodes (c : Chain) (ctx : Ctx) (ns : list node)
    (result : ChainResult) (currentInput : Input) (w : World S)
    : option ((option ChainResult * option error) * World S) :=
  match ns with
  | [] => Some ((Some result, None), w)
  | n :: rest =>
      if parallel n then
        match runParallel c ctx (steps n) currentInput result w with
        | None => None
        | Some ((outs, err), w1) =>
            match err with
            | Some err => Some ((None, Some err), w1)
            | None =>
                let outs := default ∅ outs in
                runNodes c ctx rest (mergeOutputs outs result)
                  (mergeInput outs currentInput) w1
            end
        end
      else
        match runSequential c ctx (steps n) result currentInput w with
        | None => None
        | Some (inl ret, w1) => Some (ret, w1)
        | Some (inr (result', input'), w1) =>
            runNodes c ctx rest result' input' w1
        end
  end.

Definition Execute (c : Chain) (ctx : Ctx) (input : Input) (w : World S)
    : option ((option ChainResult * option error) * World S) :=
  runNodes c ctx (nodes c) (mkChainResult ∅) input w.

End Schedule.

(** *** Vocabulary for the properties of a chain *)

(** The model that the requests of a chain carry. *)
Definition chainModel (c : Chain) : string :=
  if String.eqb (defaultModel c) "" then "gpt-3.5-turbo" else defaultModel c.

(** A context derived from another: cancelled with it, and with a
    deadline that is not later. *)
Definition narrows (child parent : Ctx) : Prop :=
  cancelAt child = cancelAt parent /\
  forall pd, deadline parent = Some pd ->
    exists d, deadline child = Some d /\ d <= pd.

(** What an event of a step started at instant [t0] looks like. *)
Definition stepEvent (c : Chain) (s : stepDef) (ctx : Ctx) (t0 : Time)
    (input : Input) (ev : Event) : Prop :=
  match ev with
  | EvRender _ inp => inp = input
  | EvComplete cx q _ =>
      is_Some (exec c) /\
      req_Model q = chainModel c /\
      narrows cx ctx /\
      (0 < timeout s -> exists d, deadline cx = Some d /\ d <= t0 + timeout s)
  end.

(** The names of the steps of a list of nodes. *)
Definition stepNames (ns : list node) : list string :=
  n ← ns; name <$> steps n.

(** Two inputs that agree outside a list of names. *)
Definition agreeOutside (names : list string) (input input0 : Input) : Prop :=
  forall k, k ∉ names -> input !! k = input0 !! k.

(** What an event of a chain called on [input0] looks like: the input of a
    rendering is [input0] outside the names of the steps. *)
Definition chainEvent (c : Chain) (ctx : Ctx) (names : list string)
    (input0 : Input) (ev : Event) : Prop :=
  match ev with
  | EvRender _ inp => agreeOutside names inp input0
  | EvComplete cx q _ =>
      is_Some (exec c) /\ req_Model q = chainModel c /\ narrows cx ctx
  end.

End Chain.

Arguments Chain : clear implicits.

(** [ExponentialBackoff(base, max)] of package chain, a copy of the
    executor's. *)
Definition ExponentialBackoff (outOfRange : Z -> Z) (base max : Duration)
    : BackoffFunc :=
  fun attempt =>
    let d := wrap64 (base * pow2Duration outOfRange attempt) in
    if max <? d then max else d.

End chain.

(** ** Package middleware *)

Module middleware.

(** *** The response cache *)

Record cacheEntry := mkCacheEntry {
  val : list byte;
  expires : Time
}.

(** [InMemoryCache.Get], with [time.Now()] read as [now]. *)
Definition InMemoryCache_Get (store : gmap string cacheEntry) (key : string)
    (now : Time) : option (list byte) :=
  match store !! key with
  | Some e => if After now (expires e) then None else Some (val e)
  | None => None
  end.

(** [InMemoryCache.Set], with [time.Now()] read as [now]. *)
Definition InMemoryCache_Set (store : gmap string cacheEntry) (key : string)
    (v : list byte) (ttl : Duration) (now : Time) : gmap string cacheEntry :=
  <[key := mkCacheEntry v (Add now ttl)]> store.

(** [cacheProvider]: the cache it points to ([None] for a nil cache) and
    the time to live. *)
Record cacheProvider := mkCacheProvider {
  cache : option (gmap string cacheEntry);
  ttl : Duration
}.

Definition CacheMiddleware (cache : option (gmap string cacheEntry))
    (ttl : Duration) : cacheProvider :=
  mkCacheProvider cache (if ttl <=? 0 then Hour else ttl).

(** [req.Model + "\x00" + req.System + "\x00" + req.Prompt] *)
Definition cacheKey (req : CompletionRequest) : string :=
  let nul := String Ascii.zero EmptyString in
  (req_Model req ++ nul ++ req_System req ++ nul ++ req_Prompt req)%string.

(** *** The circuit breaker *)

Inductive cbState : Type := cbClosed | cbOpen | cbHalfOpen.

Record circuitBreakerProvider := mkCircuitBreaker {
  threshold : float;
  cb_timeout : Duration;
  requests : Z;
  failures : Z;
  state : cbState;
  openUntil : Time
}.

Definition CircuitBreaker (threshold : float) (timeout : Duration)
    : circuitBreakerProvider :=
  mkCircuitBreaker threshold timeout 0 0 cbClosed zeroTime.

(** [atomic.Uint64.Add(1)] *)
Definition add1 (n : Z) : Z := (n + 1) mod 2 ^ 64.

(** [float64(n)] for an unsigned 64-bit [n]: the nearest float.  The
    primitive conversion reads 63 bits; a larger [n] is halved with its
    lowest bit kept sticky, converted, and doubled. *)
Definition float64_of_uint64 (n : Z) : float :=
  if n <? 2 ^ 63 then PrimFloat.of_uint63 (Uint63.of_Z n)
  else
    let h := PrimFloat.of_uint63 (Uint63.of_Z (Z.lor (Z.shiftr n 1) (Z.land n 1))) in
    PrimFloat.add h h.

(** [float64(failures) / float64(requests) >= threshold] *)
Definition rateAtLeast (failures requests : Z) (threshold : float) : bool :=
  PrimFloat.leb threshold
    (PrimFloat.div (float64_of_uint64 failures) (float64_of_uint64 requests)).

Definition setState (st : cbState) (c : circuitBreakerProvider) :=
  mkCircuitBreaker (threshold c) (cb_timeout c) (requests c) (failures c) st
    (openUntil c).

Definition setOpen (until : Time) (c : circuitBreakerProvider) :=
  mkCircuitBreaker (threshold c) (cb_timeout c) (requests c) (failures c) cbOpen
    until.

Definition countRequest (c : circuitBreakerProvider) :=
  mkCircuitBreaker (threshold c) (cb_timeout c) (add1 (requests c)) (failures c)
    (state c) (openUntil c).

Definition countFailure (c : circuitBreakerProvider) :=
  mkCircuitBreaker (threshold c) (cb_timeout c) (requests c) (add1 (failures c))
    (state c) (openUntil c).

Definition isOpen (st : cbState) : bool :=
  match st with cbOpen => true | _ => false end.

Definition isHalfOpen (st : cbState) : bool :=
  match st with cbHalfOpen => true | _ => false end.

Section Decorators.

Context {S : Type}.

(** The wrapped service, [next]. *)
Variable next : Provider S.

(** [json.Marshal] and [json.Unmarshal] of a response. *)
Variable encodeResponse : CompletionResponse -> list byte + error.
Variable decodeResponse : list byte -> CompletionResponse + error.

(** The first half of [cacheProvider.Complete]: the response of a live
    entry that decodes. *)
Definition cacheLookup (c : cacheProvider) (key : string) (now : Time)
    : option CompletionResponse :=
  match cache c with
  | Some store =>
      match InMemoryCache_Get store key now with
      | Some raw =>
          match decodeResponse raw with
          | inl resp => Some resp
          | inr _ => None
          end
      | None => None
      end
  | None => None
  end.

Definition cacheStore (c : cacheProvider) (key : string)
    (resp : CompletionResponse) (now : Time) : cacheProvider :=
  match cache c with
  | Some store =>
      match encodeResponse resp with
      | inl raw =>
          mkCacheProvider (Some (InMemoryCache_Set store key raw (ttl c) now))
            (ttl c)
      | inr _ => c
      end
  | None => c
  end.

Definition cacheProvider_Complete (c : cacheProvider) (ctx : Ctx)
    (req : CompletionRequest) (w : World S)
    : Outcome * cacheProvider * World S :=
  let key := cacheKey req in
  match cacheLookup c key (now w) with
  | Some resp => (inl resp, c, w)
  | None =>
      let '(out, w1) := callComplete next ctx req w in
      match out with
      | inr err => (inr err, c, w1)
      | inl resp => (inl resp, cacheStore c key resp (now w1), w1)
      end
  end.

(** The head of [circuitBreakerProvider.Complete]: [None] when the
    breaker is open and [openUntil] is still ahead, otherwise the
    breaker with which the call goes on. *)
Definition enter (c : circuitBreakerProvider) (now : Time)
    : option circuitBreakerProvider :=
  if isOpen (state c) then
    if Before now (openUntil c) then None
    else Some (setState cbHalfOpen c)
  else Some c.

(** The bookkeeping after a failed call, with [time.Now()] read as [now]. *)
Definition onFailure (c : circuitBreakerProvider) (now : Time)
    : circuitBreakerProvider :=
  let c := countFailure c in
  if isHalfOpen (state c) then setOpen (Add now (cb_timeout c)) c
  else if 10 <=? requests c then
    if rateAtLeast (failures c) (requests c) (threshold c)
    then setOpen (Add now (cb_timeout c)) c
    else c
  else c.

Definition onSuccess (c : circuitBreakerProvider) : circuitBreakerProvider :=
  if isHalfOpen (state c) then setState cbClosed c else c.

(** [circuitBreakerProvider.Complete], one call at a time. *)
Definition circuitBreakerProvider_Complete (c : circuitBreakerProvider)
    (ctx : Ctx) (req : CompletionRequest) (w : World S)
    : Outcome * circuitBreakerProvider * World S :=
  match enter c (now w) with
  | None => (inr DeadlineExceeded, c, w)
  | Some c =>
      let c := countRequest c in
      let '(out, w1) := callComplete next ctx req w in
      match out with
      | inr err => (inr err, onFailure c (now w1), w1)
      | inl resp => (inl resp, onSuccess c, w1)
      end
  end.

End Decorators.

(** *** Composition and metrics *)

Section Composition.

Context {S : Type}.

(** A [Middleware] wraps a provider into a provider. *)
Definition Middleware : Type := Provider S -> Provider S.

(** The loop of [Chain], [for i := len(mws) - 1; i >= 0; i--]: [n] is
    [i + 1], the number of middlewares still to apply. *)
Fixpoint chainLoop (mws : list Middleware) (n : nat) (p : Provider S) : Provider S :=
  match n with
  | O => p
  | Datatypes.S i =>
      match mws !! i with
      | Some mw => chainLoop mws i (mw p)
      | None => chainLoop mws i p
      end
  end.

(** [Chain(p, mws...)] *)
Definition Chain (p : Provider S) (mws : list Middleware) : Provider S :=
  chainLoop mws (length mws) p.

(** [metricsProvider]: the four counters, each an [atomic.Uint64]. *)
Record metricsProvider := mkMetrics {
  m_requests : Z;
  m_errors : Z;
  m_promptTok : Z;
  m_completeTok : Z
}.

(** The counters of [Metrics()], at zero. *)
Definition Metrics : metricsProvider := mkMetrics 0 0 0 0.

(** [atomic.Uint64.Add(uint64(n))] for an [int] [n]: the conversion and
    the addition both wrap around 2^64. *)
Definition addInt (counter n : Z) : Z := (counter + n mod 2 ^ 64) mod 2 ^ 64.

Variable next : Provider S.

(** [metricsProvider.Complete], one call at a time. *)
Definition metricsProvider_Complete (m : metricsProvider) (ctx : Ctx)
    (req : CompletionRequest) (w : World S)
    : Outcome * metricsProvider * World S :=
  let m := mkMetrics (add1 (m_requests m)) (m_errors m) (m_promptTok m)
             (m_completeTok m) in
  let '(out, w1) := callComplete next ctx req w in
  match out with
  | inr err =>
      (inr err,
       mkMetrics (m_requests m) (add1 (m_errors m)) (m_promptTok m)
         (m_completeTok m), w1)
  | inl resp =>
      (inl resp,
       mkMetrics (m_requests m) (m_errors m)
         (addInt (m_promptTok m) (PromptTokens (resp_Usage resp)))
         (addInt (m_completeTok m) (CompletionTokens (resp_Usage resp))), w1)
  end.

(** *** Vocabulary for the properties of the decorators *)

(** The calls of a list, made one after the other through the metrics. *)
Fixpoint metricsCalls (m : metricsProvider) (calls : list (Ctx * CompletionRequest))
    (w : World S) : list Outcome * metricsProvider * World S :=
  match calls with
  | [] => ([], m, w)
  | (ctx, req) :: rest =>
      let '(out, m1, w1) := metricsProvider_Complete m ctx req w in
      let '(outs, m2, w2) := metricsCalls m1 rest w1 in
      (out :: outs, m2, w2)
  end.

(** The same calls made to the wrapped service itself. *)
Fixpoint directCalls (calls : list (Ctx * CompletionRequest)) (w : World S)
    : list Outcome * World S :=
  match calls with
  | [] => ([], w)
  | (ctx, req) :: rest =>
      let '(out, w1) := callComplete next ctx req w in
      let '(outs, w2) := directCalls rest w1 in
      (out :: outs, w2)
  end.

(** The calls of a list, made one after the other through a breaker; the
    clock is what the service makes of it. *)
Fixpoint breakerRun (c : circuitBreakerProvider)
    (calls : list (Ctx * CompletionRequest)) (w : World S)
    : list Outcome * circuitBreakerProvider * World S :=
  match calls with
  | [] => ([], c, w)
  | (ctx, req) :: rest =>
      let '(out, c1, w1) := circuitBreakerProvider_Complete next c ctx req w in
      let '(outs, c2, w2) := breakerRun c1 rest w1 in
      (out :: outs, c2, w2)
  end.

End Composition.

(** The failures among outcomes, and the tokens of the responses. *)
Definition failuresOf (outs : list Outcome) : list error :=
  omap (fun out => match out with inr err => Some err | inl _ => None end) outs.

Fixpoint promptTokensOf (outs : list Outcome) : Z :=
  match outs with
  | [] => 0
  | inl resp :: rest => PromptTokens (resp_Usage resp) + promptTokensOf rest
  | inr _ :: rest => promptTokensOf rest
  end.

Fixpoint completionTokensOf (outs : list Outcome) : Z :=
  match outs with
  | [] => 0
  | inl resp :: rest => CompletionTokens (resp_Usage resp) + completionTokensOf rest
  | inr _ :: rest => completionTokensOf rest
  end.

(** A counter of 64 bits. *)
Definition isUint64 (n : Z) : Prop := 0 <= n < 2 ^ 64.

(** A text without the byte that separates the parts of a cache key. *)
Fixpoint noNul (s : string) : bool :=
  match s with
  | EmptyString => true
  | String a rest => negb (Ascii.eqb a Ascii.zero) && noNul rest
  end.

End middleware.

(** ** Package evaluator

    A suite runs its cases one after the other, each through the executor
    or, without one, through the rendering of the prompt alone, and hands the
    text obtained to its evaluators.  An evaluator acts on the world: it may
    take time, use a service of its own (an embedder) and call a provider,
    as [LLMJudge] does, whose calls are events of the trace like any other.
    The field [Evaluators] of [Expected], which no code reads, is left out.
    The counters of a report are [int]s that count the cases of a slice, and
    do not wrap. *)

Module evaluator.

Import executor.

Record Score := mkScore {
  sc_Pass : bool;
  sc_Value : float;
  sc_Reason : string
}.

Record Expected := mkExpected {
  exp_Output : string;
  exp_Contains : list string;
  exp_NotContains : list string
}.

Record Case := mkCase {
  case_Name : string;
  case_Input : Input;
  case_Expected : Expected
}.

Record CaseResult := mkCaseResult {
  CaseName : string;
  cr_Pass : bool;
  Actual : string;
  cr_Expected : Expected;
  Scores : list Score;
  Error : option error
}.

Record Report := mkReport {
  rp_Suite : string;
  PromptID : string;
  Version : string;
  Total : Z;
  Passed : Z;
  Failed : Z;
  Results : list CaseResult;
  rp_Duration : Duration
}.

(** [strings.Contains(s, substr)]: [substr] starts at some position of
    [s]. *)
Fixpoint Contains (s substr : string) : bool :=
  if String.prefix substr s then true
  else match s with
       | EmptyString => false
       | String _ rest => Contains rest substr
       end.

(** The loop of [ContainsAll.Evaluate] over the substrings to check. *)
Fixpoint containsLoop (check : list string) (actual : string) : Score :=
  match check with
  | [] => mkScore true PrimFloat.one "contains all"
  | sub :: rest =>
      if negb (Contains actual sub)
      then mkScore false PrimFloat.zero ("missing: " ++ sub)
      else containsLoop rest actual
  end.

(** [ContainsAll{Substrings}.Evaluate]; it returns no error. *)
Definition ContainsAll_Evaluate (Substrings : list string) (actual : string)
    (expected : Expected) : Score :=
  let check := if (length Substrings =? 0)%nat then exp_Contains expected
               else Substrings in
  containsLoop check actual.

(** [ExactMatch.Evaluate], with [strings.TrimSpace] of the standard
    library as [TrimSpace]; it returns no error. *)
Definition ExactMatch_Evaluate (TrimSpace : string -> string) (actual : string)
    (expected : Expected) : Score :=
  let actual := TrimSpace actual in
  let exp := TrimSpace (exp_Output expected) in
  let pass := String.eqb actual exp in
  let val := if pass then PrimFloat.one else PrimFloat.zero in
  mkScore pass val "exact match".

Section Suite.

Context {S : Type}.

(** The method [Evaluate] of an [Evaluator]: a score or an error, and the
    world as the evaluation leaves it. *)
Definition Evaluator : Type :=
  Ctx -> string -> Expected -> World S -> (Score + error) * World S.

(** An evaluator that computes its score from the texts alone. *)
Definition pureEvaluator (f : string -> Expected -> Score) : Evaluator :=
  fun _ actual expected w => (inl (f actual expected), w).

(** *** The judge

    [parseJudgeResponse] reads the answer of the judge with regular
    expressions and [strconv.ParseFloat]; it is taken as it comes, as are
    [strings.TrimSpace] and the text [err.Error()] of an error. *)

Record LLMJudge := mkLLMJudge {
  j_Provider : provider.Provider S;
  j_Model : string;
  j_Criteria : string;
  j_System : string
}.

Definition newline : string := String (Ascii.ascii_of_nat 10) EmptyString.

Definition DefaultJudgeSystem : string :=
  ("You are an impartial judge. Evaluate the actual output against the expected output and criteria. Reply with exactly two lines:"
   ++ newline ++ "Line 1: SCORE: <number from 0.0 to 1.0>"
   ++ newline ++ "Line 2: PASS or FAIL"
   ++ newline ++ "Then optionally a brief reason on the next line.")%string.

(** The request that the judge sends. *)
Definition judgeRequest (j : LLMJudge) (actual : string) (expected : Expected)
    : CompletionRequest :=
  let system := if String.eqb (j_System j) "" then DefaultJudgeSystem
                else j_System j in
  let criteria :=
    if String.eqb (j_Criteria j) ""
    then "Relevance and correctness compared to expected output."
    else j_Criteria j in
  let prompt :=
    ("Expected output:" ++ newline ++ exp_Output expected ++ newline ++ newline
     ++ "Actual output:" ++ newline ++ actual ++ newline ++ newline
     ++ "Criteria: " ++ criteria ++ newline ++ newline
     ++ "Provide SCORE (0.0-1.0) and PASS or FAIL.")%string in
  let model := if String.eqb (j_Model j) "" then "gpt-4o-mini" else j_Model j in
  mkCompletionRequest prompt system model PrimFloat.zero 0 [] PrimFloat.zero ∅.

(** [LLMJudge.Evaluate]; it returns no error. *)
Definition LLMJudge_Evaluate (TrimSpace : string -> string)
    (parseJudgeResponse : string -> float * bool * string)
    (errorText : error -> string) (j : LLMJudge) : Evaluator :=
  fun ctx actual expected w =>
    let req := judgeRequest j actual expected in
    let '(out, w1) := callComplete (j_Provider j) ctx req w in
    match out with
    | inr err =>
        (inl (mkScore false PrimFloat.zero ("judge call failed: " ++ errorText err)),
         w1)
    | inl resp =>
        let content := TrimSpace (resp_Content resp) in
        let '(score, pass, reason) := parseJudgeResponse content in
        (inl (mkScore pass score reason), w1)
    end.

Definition ExactMatch (TrimSpace : string -> string) : Evaluator :=
  pureEvaluator (ExactMatch_Evaluate TrimSpace).

Definition ContainsAll (Substrings : list string) : Evaluator :=
  pureEvaluator (ContainsAll_Evaluate Substrings).

Record Suite := mkSuite {
  name : string;
  prompt : option Prompt;
  exec : option (Executor S);
  cases : list Case;
  evals : list Evaluator;
  version : string
}.

Definition NewTestSuite (TrimSpace : string -> string) (suiteName : string)
    : Suite :=
  mkSuite suiteName None None [] [ExactMatch TrimSpace] "".

Definition WithPrompt (p : option Prompt) (version : string) (s : Suite) : Suite :=
  mkSuite (name s) p (exec s) (cases s) (evals s) version.

Definition WithExecutor (e : option (Executor S)) (s : Suite) : Suite :=
  mkSuite (name s) (prompt s) e (cases s) (evals s) (version s).

Definition AddCase (caseName : string) (input : Input) (expected : Expected)
    (s : Suite) : Suite :=
  mkSuite (name s) (prompt s) (exec s)
    (cases s ++ [mkCase caseName input expected]) (evals s) (version s).

Definition WithEvaluator (ev : Evaluator) (s : Suite) : Suite :=
  mkSuite (name s) (prompt s) (exec s) (cases s) (evals s ++ [ev]) (version s).

(** The return of [runCase] on an error: [out.Error = err; out.Pass = false]. *)
Definition failCase (err : error) (out : CaseResult) : CaseResult :=
  mkCaseResult (CaseName out) false (Actual out) (cr_Expected out) (Scores out)
    (Some err).

(** The loop of [runCase] over the evaluators, and its end
    [out.Pass = allPass]. *)
Fixpoint evalLoop (evs : list Evaluator) (ctx : Ctx) (actual : string)
    (expected : Expected) (out : CaseResult) (allPass : bool) (w : World S)
    : CaseResult * World S :=
  match evs with
  | [] =>
      (mkCaseResult (CaseName out) allPass (Actual out) (cr_Expected out)
         (Scores out) (Error out), w)
  | ev :: rest =>
      let '(r, w1) := ev ctx actual expected w in
      match r with
      | inr err => (failCase err out, w1)
      | inl score =>
          let out := mkCaseResult (CaseName out) (cr_Pass out) (Actual out)
                       (cr_Expected out) (Scores out ++ [score]) (Error out) in
          let allPass := if negb (sc_Pass score) then false else allPass in
          evalLoop rest ctx actual expected out allPass w1
      end
  end.

(** [Suite.runCase].  [None] is the panic of a nil dereference:
    [s.prompt.Render] without a prompt, or [result.Content] had the executor
    returned neither a result nor an error. *)
Definition runCase (s : Suite) (ctx : Ctx) (c : Case) (w : World S)
    : option (CaseResult * World S) :=
  let out := mkCaseResult (case_Name c) false "" (case_Expected c) [] None in
  let evaluate (actual : string) (w : World S) :=
    let out := mkCaseResult (CaseName out) (cr_Pass out) actual (cr_Expected out)
                 (Scores out) (Error out) in
    evalLoop (evals s) ctx actual (case_Expected c) out true w in
  match exec s with
  | Some e =>
      let '((result, err), w1) :=
        Execute e ctx
          (mkExecuteRequest (prompt s) (case_Input c) "" PrimFloat.zero 0 [] 0) w in
      match err with
      | Some err => Some (failCase err out, w1)
      | None =>
          match result with
          | None => None
          | Some result => Some (evaluate (xres_Content result) w1)
          end
      end
  | None =>
      match prompt s with
      | None => None
      | Some p =>
          let '(r, w1) := Render p ctx (case_Input c) w in
          match r with
          | inr err => Some (failCase err out, w1)
          | inl rendered => Some (evaluate (rd_User rendered) w1)
          end
      end
  end.

(** The body of the loop of [Run] after [runCase]. *)
Definition addResult (res : CaseResult) (report : Report) : Report :=
  mkReport (rp_Suite report) (PromptID report) (Version report) (Total report)
    (if cr_Pass res then Passed report + 1 else Passed report)
    (if cr_Pass res then Failed report else Failed report + 1)
    (Results report ++ [res]) (rp_Duration report).

Fixpoint runCases (s : Suite) (ctx : Ctx) (cs : list Case) (report : Report)
    (w : World S) : option (Report * World S) :=
  match cs with
  | [] => Some (report, w)
  | c :: rest =>
      match runCase s ctx c w with
      | None => None
      | Some (res, w1) => runCases s ctx rest (addResult res report) w1
      end
  end.

(** [Suite.Run]; [time.Since(start)] is the clock's advance. *)
Definition Run (s : Suite) (ctx : Ctx) (w : World S)
    : option ((option Report * option error) * World S) :=
  match prompt s with
  | None => Some ((None, Some (ErrOther "evaluator: prompt is required")), w)
  | Some p =>
      let start := now w in
      let report := mkReport (name s) (ID p) (version s)
                      (Z.of_nat (length (cases s))) 0 0 [] 0 in
      match runCases s ctx (cases s) report w with
      | None => None
      | Some (report, w1) =>
          Some ((Some (mkReport (rp_Suite report) (PromptID report)
                         (Version report) (Total report) (Passed report)
                         (Failed report) (Results report) (now w1 - start)),
                 None), w1)
      end
  end.

(** *** Vocabulary for the properties of a run *)

(** The verdict on a case as its result shows it. *)
Definition passes (res : CaseResult) : bool :=
  match Error res with
  | Some _ => false
  | None => forallb sc_Pass (Scores res)
  end.

(** The number of the results that pass. *)
Definition passed (results : list CaseResult) : Z :=
  Z.of_nat (length (filter (fun res => cr_Pass res = true) results)).

(** An evaluator that adds events to the trace, all of which satisfy [P],
    and takes none away. *)
Definition evaluatesWith (P : Event -> Prop) (ev : Evaluator) : Prop :=
  forall ctx actual expected (w : World S),
    exists evs,
      trace (ev ctx actual expected w).2 = trace w ++ evs /\ Forall P evs.

(** A call of the judge [j]. *)
Definition judgeEvent (j : LLMJudge) (ev : Event) : Prop :=
  match ev with
  | EvRender _ _ => False
  | EvComplete _ q _ =>
      req_Model q = (if String.eqb (j_Model j) "" then "gpt-4o-mini"
                     else j_Model j)
  end.

(** What an event of the suite itself looks like in a run under [ctx]: the
    rendering of the suite's prompt on the input of a case, or a call for
    the default model, without a limit of tokens or stop tokens, under
    [ctx] or under [ctx] with the executor's own timeout. *)
Definition suiteEvent (s : Suite) (ctx : Ctx) (ev : Event) : Prop :=
  match ev with
  | EvRender id input =>
      (exists p, prompt s = Some p /\ id = ID p) /\
      exists c, c ∈ cases s /\ input = case_Input c
  | EvComplete c q _ =>
      req_Model q = "gpt-3.5-turbo" /\ req_MaxTokens q = 0 /\
      req_StopTokens q = [] /\
      exists e, exec s = Some e /\
        (c = ctx \/ exists t, c = WithTimeout ctx (BaseTimeout e) t)
  end.

End Suite.

Arguments Suite : clear implicits.
Arguments Evaluator : clear implicits.

(** [s] occurs in [t]. *)
Definition occursIn (s t : string) : Prop :=
  exists a b, t = (a ++ s ++ b)%string.

End evaluator.

(** ** A scripted service, for running the definitions

    The service counts its calls: it fails [failures] times and then
    answers [content]. *)

Module mock.

Definition usage0 : TokenUsage := mkTokenUsage 0 0 0.

Definition response (content : string) : CompletionResponse :=
  mkCompletionResponse content "mock" usage0 "stop" ∅.

Definition failThenOk (failures : nat) (err : error) (content : string)
    : Provider nat :=
  fun _ _ t calls =>
    if (calls <? failures)%nat then (inr err, t, Datatypes.S calls)
    else (inl (response content), t, Datatypes.S calls).

Definition alwaysFail (err : error) : Provider nat :=
  fun _ _ t calls => (inr err, t, Datatypes.S calls).

(** A renderer that answers the prompt's own name as the user text. *)
Definition nameRenderer (name : string) : Renderer :=
  fun _ _ input => inl (mkRendered "" name input).

Definition namePrompt (name : string) : Prompt :=
  mkPrompt name ∅ (Some (nameRenderer name)).

(** A service that fails on the user text [bad] and echoes any other. *)
Definition echoExcept (bad : string) (err : error) : Provider nat :=
  fun _ req t calls =>
    if String.eqb (req_Prompt req) bad then (inr err, t, Datatypes.S calls)
    else (inl (response (req_Prompt req)), t, Datatypes.S calls).

Definition world0 : World nat := mkWorld 0 0%nat [].

Definition request (p : Prompt) : executor.ExecuteRequest :=
  executor.mkExecuteRequest (Some p) ∅ "" PrimFloat.zero 0 [] 0.

Definition completionRequest (model user : string) : CompletionRequest :=
  mkCompletionRequest user "" model PrimFloat.zero 0 [] PrimFloat.zero ∅.

(** A codec that keeps the content of a response and nothing else. *)
Definition encodeContent (resp : CompletionResponse) : list byte + error :=
  inl (String.list_byte_of_string (resp_Content resp)).

Definition decodeContent (raw : list byte) : CompletionResponse + error :=
  inl (response (String.string_of_list_byte raw)).

(** The scheduler that runs the steps of a group in the order of launch. *)
Definition inOrder (l : list chain.stepDef) : list chain.stepDef := l.

(** The calls of [Complete] in a trace. *)
Definition completions (evs : list Event) : list Event :=
  List.filter isComplete evs.

(** Concrete executors, steps, chains and breakers. *)

Definition boom : error := ErrOther "boom".

Definition promptA : Prompt := namePrompt "a".

Definition renderedA : Rendered := mkRendered "" "a" ∅.

(** Two retries over a service that never answers. *)
Definition failingExecutor : executor.Executor nat :=
  executor.mkExecutor (alwaysFail boom) 2 (Some (fun _ => 0)) 0.

(** Two retries, no wait, over a service that fails twice and then answers
    "ok". *)
Definition recoveringExecutor : executor.Executor nat :=
  executor.mkExecutor (failThenOk 2 boom "ok") 2 (Some (fun _ => 0)) 0.

(** One retry after a wait of 100, over a service that answers every call
    with the cancellation error; the context is cancelled at instant 5. *)
Definition cancelledExecutor : executor.Executor nat :=
  executor.mkExecutor (alwaysFail Canceled) 1 (Some (fun _ => 100)) 0.

Definition cancelledAt5 : Ctx := mkCtx (Some 5) None.

(** An executor without retries over the always failing service, and one
    over the service that fails on the text "bad" only. *)
Definition singleShot : executor.Executor nat :=
  executor.mkExecutor (alwaysFail boom) 0 None 0.

Definition echoExecutor : executor.Executor nat :=
  executor.mkExecutor (echoExcept "bad" boom) 0 None 0.

Definition plainStep (name : string) : chain.stepDef :=
  chain.mkStepDef name (Some (namePrompt name)) 0 None 0 None None.

(** A step with one retry and a fallback. *)
Definition stepWithFallback (name primary fb : string) : chain.stepDef :=
  chain.mkStepDef name (Some (namePrompt primary)) 1 None 0
    (Some (namePrompt fb)) None.

(** A step with one retry after a wait of 100. *)
Definition stepWithBackoff : chain.stepDef :=
  chain.mkStepDef "s" (Some (namePrompt "bad")) 1 (Some (fun _ => 100)) 0 None None.

(** The chain of that step over the executor without retries. *)
Definition backoffChain : chain.Chain nat :=
  chain.mkChain "c" [chain.mkNode false [stepWithBackoff]] (Some singleShot) "".

(** A step whose condition is never met. *)
Definition neverStep : chain.stepDef :=
  chain.mkStepDef "never" (Some (namePrompt "never")) 0 None 0 None
    (Some (fun _ _ => false)).

Definition parallelChain : chain.Chain nat :=
  chain.mkChain "c" [chain.mkNode true [stepWithFallback "b" "bad" "worse"]]
    (Some singleShot) "".

Definition sequentialChain : chain.Chain nat :=
  chain.mkChain "c" [chain.mkNode false [stepWithFallback "b" "bad" "worse"]]
    (Some singleShot) "".

Definition echoChain : chain.Chain nat :=
  chain.mkChain "c" [chain.mkNode false [stepWithFallback "s" "bad" "fine"]]
    (Some echoExecutor) "".

(** Step "a" succeeds and step "bad" fails. *)
Definition halfwayChain : chain.Chain nat :=
  chain.mkChain "c"
    [chain.mkNode false [plainStep "a"]; chain.mkNode false [plainStep "bad"]]
    (Some echoExecutor) "".

(** Step "a", then "b" and "c" in parallel, then "d", rendering only. *)
Definition fourSteps : chain.Chain nat :=
  chain.mkChain "c"
    [chain.mkNode false [plainStep "a"];
     chain.mkNode true [plainStep "b"; plainStep "c"];
     chain.mkNode false [plainStep "d"]]
    None "".

Definition openBreaker : middleware.circuitBreakerProvider :=
  middleware.mkCircuitBreaker 0.5%float (30 * Second) 10 10 middleware.cbOpen 100.

Definition closedBreaker : middleware.circuitBreakerProvider :=
  middleware.mkCircuitBreaker 0.5%float (30 * Second) 9 4 middleware.cbClosed zeroTime.

Definition worldAt (t : Time) : World nat := mkWorld t 0%nat [].

(** [n] calls in a row through a breaker, the outcomes dropped. *)
Fixpoint breakerCalls (next : Provider nat) (n : nat)
    (c : middleware.circuitBreakerProvider) (w : World nat)
    : middleware.circuitBreakerProvider * World nat :=
  match n with
  | O => (c, w)
  | Datatypes.S n' =>
      let '(_, c1, w1) :=
        middleware.circuitBreakerProvider_Complete next c Background
          (completionRequest "m" "u") w in
      breakerCalls next n' c1 w1
  end.

(** A prompt without a renderer, an executor that allows no attempt, a
    step under a timeout of 50 and a step that allows no attempt. *)
Definition bareRenderless : Prompt := mkPrompt "n" ∅ None.

Definition noAttempts : executor.Executor nat :=
  executor.mkExecutor (alwaysFail boom) (-1) None 0.

Definition timedStep : chain.stepDef :=
  chain.mkStepDef "t" (Some (namePrompt "t")) 0 None 50 None None.

Definition unreachedStep : chain.stepDef :=
  chain.mkStepDef "u" (Some (namePrompt "u")) (-1) None 0 None None.

Definition timedChain : chain.Chain nat :=
  chain.mkChain "c" [chain.mkNode false [timedStep]] (Some echoExecutor) "".

(** A cache whose entry for the request of model "m" and text "u" expired
    at instant 10. *)
Definition staleCache : middleware.cacheProvider :=
  middleware.mkCacheProvider
    (Some {[ middleware.cacheKey (completionRequest "m" "u")
             := middleware.mkCacheEntry [] 10 ]})
    Hour.

(** The request of [completionRequest "m" "u"] with other settings. *)
Definition tunedRequest : CompletionRequest :=
  mkCompletionRequest "u" "" "m" PrimFloat.one 64 ["."] PrimFloat.one ∅.

Definition threeCalls : list (Ctx * CompletionRequest) :=
  replicate 3 (Background, completionRequest "m" "u").

(** A suite of two cases on the prompt "a", the first expecting "a" and
    the second "b", that only renders; and the same suite over the echoing
    service.  No space is trimmed. *)
Definition renderSuite : evaluator.Suite nat :=
  evaluator.AddCase "two" ∅ (evaluator.mkExpected "b" [] [])
    (evaluator.AddCase "one" ∅ (evaluator.mkExpected "a" [] [])
       (evaluator.WithPrompt (Some promptA) "v1"
          (evaluator.NewTestSuite (fun s => s) "suite"))).

Definition echoSuite : evaluator.Suite nat :=
  evaluator.WithExecutor (Some echoExecutor) renderSuite.

(** A judge over a service that answers "PASS" to every call, every answer
    read as a pass; the suite of two cases with this judge among its
    evaluators, without an executor and over the echoing service. *)
Definition theJudge : evaluator.LLMJudge (S := nat) :=
  evaluator.mkLLMJudge (failThenOk 0 boom "PASS") "" "" "".

Definition passingJudge : evaluator.Evaluator nat :=
  evaluator.LLMJudge_Evaluate (fun s => s)
    (fun content => (PrimFloat.one, true, content)) (fun _ => "error") theJudge.

Definition judgedSuite : evaluator.Suite nat :=
  evaluator.WithEvaluator passingJudge renderSuite.

Definition judgedEchoSuite : evaluator.Suite nat :=
  evaluator.WithExecutor (Some echoExecutor) judgedSuite.

(** The counters of the report of a run. *)
Definition countsOf
    (r : option (option evaluator.Report * option error * World nat))
    : option (Z * Z * Z) :=
  match r with
  | Some ((Some report, None), _) =>
      Some (evaluator.Total report, evaluator.Passed report,
            evaluator.Failed report)
  | _ => None
  end.

(** The entries of a successful chain result under the given names. *)
Definition outputsAt (names : list string)
    (r : option (option chain.ChainResult * option error * World nat))
    : option (list (option string)) :=
  match r with
  | Some ((Some res, None), _) => Some (map (fun k => chain.outputs res !! k) names)
  | _ => None
  end.

End mock.

(** * Properties *)

(** ** The executor *)

Module executor_props.

Import executor.

Lemma lastOf_cons lastErr err errs :
  lastOf (Some err) errs = lastOf lastErr (err :: errs).
Proof.
  unfold lastOf. destruct errs as [|err' errs]; [done|].
  rewrite last_cons_cons.
  destruct (last (err' :: errs)) eqn:Hlast; [done|].
  by apply last_None in Hlast.
Qed.

Section Loop.

Context {S : Type}.
Variable e : Executor S.
Variable ctx : Ctx.
Variable creq : CompletionRequest.
Variable rendered : Rendered.

Lemma callComplete_trace (w : World S) :
  trace (callComplete (Provider e) ctx creq w).2 =
  trace w ++ [EvComplete ctx creq (callComplete (Provider e) ctx creq w).1].
Proof.
  unfold callComplete.
  by destruct (Provider e ctx creq (now w) (pst w)) as [[out t] s].
Qed.

Lemma callComplete_fromProvider (w : World S) :
  fromProvider e ctx creq [(callComplete (Provider e) ctx creq w).1].
Proof.
  apply Forall_singleton. exists (now w), (pst w). unfold callComplete.
  by destruct (Provider e ctx creq (now w) (pst w)) as [[out t] s].
Qed.

Lemma attemptLoop_run k : forall attempt attempts lastErr (w : World S),
  ((0 < k)%nat -> attempt + Z.of_nat k = MaxRetries e + 1) ->
  exists outs,
    trace (attemptLoop e ctx creq rendered k attempt attempts lastErr w).2 =
      trace w ++ map (EvComplete ctx creq) outs /\
    fromProvider e ctx creq outs /\
    loopRun rendered k attempts lastErr outs
      (attemptLoop e ctx creq rendered k attempt attempts lastErr w).1.
Proof.
  induction k as [|k IH]; intros attempt attempts lastErr w Hk; simpl.
  - exists []. split; [by rewrite app_nil_r|]. split; [by apply Forall_nil|].
    replace attempts with (attempts + Z.of_nat 0) at 2 by lia.
    by apply (loopExhausted _ _ _ _ []).
  - pose proof (callComplete_trace w) as Htr.
    pose proof (callComplete_fromProvider w) as Hfrom.
    destruct (callComplete (Provider e) ctx creq w) as [out w1];
      simpl in Htr, Hfrom.
    destruct out as [resp|err].
    + exists [inl resp]. split; [done|]. split; [done|].
      replace (attempts + 1) with (attempts + Z.of_nat (length (@nil error)) + 1)
        by (simpl; lia).
      apply (loopSucceeds _ _ _ _ [] resp). simpl. lia.
    + destruct (Z.eqb_spec attempt (MaxRetries e)) as [Heq|Hne].
      * exists [inr err]. split; [done|]. split; [done|].
        assert (k = 0%nat) by lia. subst k.
        replace (attempts + 1) with (attempts + Z.of_nat 1) by lia.
        by apply (loopExhausted _ _ _ _ [err]).
      * set (w2 := match Backoff e with
                   | Some backoff => Sleep (backoff attempt) w1
                   | None => w1
                   end).
        assert (Hw2 : trace w2 = trace w1) by (subst w2; by destruct (Backoff e)).
        destruct (IH (attempt + 1) (attempts + 1) (Some err) w2)
          as (outs & Ht & Hp & Hrun); [lia|].
        exists (inr err :: outs). split.
        { rewrite Ht, Hw2, Htr. by rewrite <- app_assoc. }
        split.
        { unfold fromProvider in *. apply Forall_cons. split; [|done].
          inversion Hfrom as [|? ? Hhd Htl]. exact Hhd. }
        inversion Hrun as [errs resp Hlen Houts Hres | errs Hlen Houts Hres].
        -- replace (attempts + 1 + Z.of_nat (length errs) + 1)
             with (attempts + Z.of_nat (length (err :: errs)) + 1)
             by (simpl length; lia).
           apply (loopSucceeds _ _ _ _ (err :: errs) resp). simpl. lia.
        -- replace (attempts + 1 + Z.of_nat k)
             with (attempts + Z.of_nat (Datatypes.S k)) by lia.
           rewrite lastOf_cons with (lastErr := lastErr).
           apply (loopExhausted _ _ _ _ (err :: errs)). simpl. lia.
Qed.

End Loop.

Section Execute.

Context {S : Type}.

(** [Execute] on a prompt that renders is the attempt loop. *)
Lemma Execute_rendered (e : Executor S) ctx req (w : World S) p r rendered :
  xreq_Prompt req = Some p ->
  renderer p = Some r ->
  r ctx (now w) (xreq_Input req) = inl rendered ->
  Execute e ctx req w =
  attemptLoop e (attemptCtx e ctx req (now w)) (buildRequest p rendered req) rendered
    (Z.to_nat (MaxRetries e + 1)) 0 0 None
    (logEvent (EvRender (ID p) (xreq_Input req)) w).
Proof.
  intros Hp Hr Hrd. unfold Execute, Render. rewrite Hp, Hr. simpl.
  by rewrite Hrd.
Qed.

(** The events of [Execute] on a prompt that renders: the rendering, then
    the calls of the attempt loop. *)
Lemma Execute_run (e : Executor S) ctx req (w : World S) p r rendered :
  xreq_Prompt req = Some p ->
  renderer p = Some r ->
  r ctx (now w) (xreq_Input req) = inl rendered ->
  exists outs,
    trace (Execute e ctx req w).2 =
      trace w ++ EvRender (ID p) (xreq_Input req)
        :: map (EvComplete (attemptCtx e ctx req (now w))
                  (buildRequest p rendered req)) outs /\
    fromProvider e (attemptCtx e ctx req (now w)) (buildRequest p rendered req) outs /\
    loopRun rendered (Z.to_nat (MaxRetries e + 1)) 0 None outs (Execute e ctx req w).1.
Proof.
  intros Hp Hr Hrd. rewrite (Execute_rendered e ctx req w p r rendered) by done.
  destruct (attemptLoop_run e (attemptCtx e ctx req (now w))
              (buildRequest p rendered req) rendered
              (Z.to_nat (MaxRetries e + 1)) 0 0 None
              (logEvent (EvRender (ID p) (xreq_Input req)) w))
    as (outs & Ht & Hfrom & Hrun).
  - lia.
  - exists outs. split; [|done].
    rewrite Ht. simpl. by rewrite <- app_assoc.
Qed.

(** C3.  With [MaxRetries = n] and a prompt that renders, the calls of
    [Execute] to [Complete] are the rendering's only company in the trace,
    and: if the service fails on every call, there are exactly [n + 1] of
    them and [Execute] returns no result and the error "executor after
    [n + 1] attempts" wrapping the last failure; if the call of index [i]
    (from 0) succeeds, it is the last one and [Execute] returns its response
    with [Attempts = i + 1] and no error. *)
Theorem Execute_attempts (e : Executor S) ctx req (w : World S) p r rendered n :
  MaxRetries e = n ->
  0 <= n ->
  xreq_Prompt req = Some p ->
  renderer p = Some r ->
  r ctx (now w) (xreq_Input req) = inl rendered ->
  exists outs,
    trace (Execute e ctx req w).2 =
      trace w ++ EvRender (ID p) (xreq_Input req)
        :: map (EvComplete (attemptCtx e ctx req (now w))
                  (buildRequest p rendered req)) outs /\
    ((forall c q t s, exists err, (Provider e c q t s).1.1 = inr err) ->
       Z.of_nat (length outs) = n + 1 /\
       exists err,
         last outs = Some (inr err) /\
         (Execute e ctx req w).1 = (None, Some (ErrExecutorAfter (n + 1) (Some err)))) /\
    (forall (i : nat) resp,
       outs !! i = Some (inl resp) ->
       length outs = Datatypes.S i /\
       (Execute e ctx req w).1 =
         (Some (mkExecuteResult (resp_Content resp) (resp_Usage resp)
                  (resp_Model resp) rendered (Z.of_nat i + 1)), None)).
Proof.
  intros Hn Hn0 Hp Hr Hrd.
  destruct (Execute_run e ctx req w p r rendered Hp Hr Hrd)
    as (outs & Ht & Hfrom & Hrun).
  exists outs. split; [exact Ht|].
  rewrite Hn in Hrun.
  inversion Hrun as [errs resp Hlen Houts Hres | errs Hlen Houts Hres]; split.
  - (* a success was observed, so the service does not always fail *)
    intros Hfail. exfalso.
    assert (Hin : inl resp ∈ outs) by (subst outs; set_solver).
    unfold fromProvider in Hfrom. rewrite Forall_forall in Hfrom.
    destruct (Hfrom _ Hin) as (t & s & Hout).
    destruct (Hfail (attemptCtx e ctx req (now w)) (buildRequest p rendered req) t s)
      as [err Herr].
    congruence.
  - intros i resp' Hi.
    assert (i = length errs /\ resp' = resp) as [-> ->].
    { destruct (decide (i < length errs)%nat) as [Hlt|Hge].
      - rewrite lookup_app_l in Hi by (by rewrite length_map).
        rewrite list_lookup_fmap in Hi.
        destruct (errs !! i); simpl in Hi; congruence.
      - rewrite lookup_app_r in Hi by (rewrite length_map; lia).
        rewrite length_map in Hi.
        destruct (i - length errs)%nat as [|j] eqn:Hj; simpl in Hi; [|done].
        split; [lia|congruence]. }
    split.
    + rewrite length_app, length_map. simpl. lia.
    + by rewrite Z.add_0_l.
  - intros _. split.
    + rewrite length_map, Hlen. lia.
    + destruct (last errs) as [err|] eqn:Hlast.
      * exists err. split.
        -- change (@map error Outcome) with (@fmap list _ error Outcome).
           by rewrite fmap_last, Hlast.
        -- unfold lastOf. rewrite Hlast, Z.add_0_l. by rewrite Z2Nat.id by lia.
      * apply last_None in Hlast. subst errs. simpl in Hlen. lia.
  - intros i resp Hi. exfalso.
    rewrite list_lookup_fmap in Hi.
    destruct (errs !! i); simpl in Hi; congruence.
Qed.


(** The request sent for an [ExecuteRequest] that names no model. *)
Lemma buildRequest_default p rendered req :
  xreq_Model req = "" ->
  buildRequest p rendered req =
  mkCompletionRequest (rd_User rendered) (rd_System rendered) "gpt-3.5-turbo"
    (xreq_Temperature req) (xreq_MaxTokens req) (xreq_StopTokens req)
    PrimFloat.zero (Metadata p).
Proof. intros Hm. unfold buildRequest. simpl. by rewrite Hm. Qed.

(** A model named by the request is sent as it is. *)
Lemma buildRequest_model p rendered req :
  xreq_Model req <> "" ->
  req_Model (buildRequest p rendered req) = xreq_Model req.
Proof.
  intros Hm. unfold buildRequest. simpl.
  destruct (String.eqb_spec (xreq_Model req) ""); [done|reflexivity].
Qed.

(** C10.  When the [Model] of the [ExecuteRequest] is empty, every
    completion request that [Execute] sends carries the model
    "gpt-3.5-turbo"; and one is sent, right after the rendering, as soon as
    the prompt renders and [MaxRetries] is not negative. *)
Theorem Execute_default_model (e : Executor S) ctx req (w : World S) :
  xreq_Model req = "" ->
  exists evs,
    trace (Execute e ctx req w).2 = trace w ++ evs /\
    (forall c q out, EvComplete c q out ∈ evs -> req_Model q = "gpt-3.5-turbo") /\
    (forall p r rendered,
       xreq_Prompt req = Some p ->
       renderer p = Some r ->
       r ctx (now w) (xreq_Input req) = inl rendered ->
       0 <= MaxRetries e ->
       exists out,
         evs !! 1%nat =
         Some (EvComplete (attemptCtx e ctx req (now w))
                 (mkCompletionRequest (rd_User rendered) (rd_System rendered)
                    "gpt-3.5-turbo" (xreq_Temperature req) (xreq_MaxTokens req)
                    (xreq_StopTokens req) PrimFloat.zero (Metadata p))
                 out)).
Proof.
  intros Hm.
  destruct (xreq_Prompt req) as [p|] eqn:Hp.
  - destruct (renderer p) as [r|] eqn:Hr.
    + destruct (r ctx (now w) (xreq_Input req)) as [rendered|err] eqn:Hrd.
      * destruct (Execute_run e ctx req w p r rendered Hp Hr Hrd)
          as (outs & Ht & _ & Hrun).
        eexists. split; [exact Ht|]. split.
        -- intros c q out Hin. apply elem_of_cons in Hin as [Hin|Hin]; [done|].
           apply list_elem_of_fmap in Hin as (o & Heq & _).
           injection Heq as _ -> _. by rewrite buildRequest_default.
        -- intros p' r' rendered' Hp' Hr' Hrd' Hn.
           injection Hp' as <-. rewrite Hr in Hr'. injection Hr' as <-.
           rewrite Hrd in Hrd'. injection Hrd' as <-.
           rewrite buildRequest_default in * by done.
           inversion Hrun as [errs resp Hlen Houts Hres | errs Hlen Houts Hres].
           ++ destruct errs as [|err errs]; simpl; eauto.
           ++ destruct errs as [|err errs]; simpl; [|eauto].
              simpl in Hlen. lia.
      * exists [EvRender (ID p) (xreq_Input req)].
        unfold Execute, Render. rewrite Hp, Hr. simpl. rewrite Hrd. simpl.
        split; [done|]. split.
        -- intros c q out Hin. apply list_elem_of_singleton in Hin. done.
        -- intros p' r' rendered' Hp' Hr' Hrd'.
           injection Hp' as <-. rewrite Hr in Hr'. injection Hr' as <-. congruence.
    + exists [EvRender (ID p) (xreq_Input req)].
      unfold Execute, Render. rewrite Hp, Hr. simpl.
      split; [done|]. split.
      * intros c q out Hin. apply list_elem_of_singleton in Hin. done.
      * intros p' r' rendered' Hp' Hr'. injection Hp' as <-. congruence.
  - exists []. unfold Execute. rewrite Hp. simpl.
    split; [by rewrite app_nil_r|]. split.
    + intros c q out Hin. by apply elem_of_nil in Hin.
    + intros p r rendered Hp'. done.
Qed.

End Execute.

(** *** More of the executor *)

Section ExecuteMore.

Context {S : Type}.

(** Every event of [Execute] is the rendering of the request's prompt or a
    call under the context of the attempts. *)
Lemma Execute_events (e : Executor S) ctx req (w : World S) :
  exists evs,
    trace (Execute e ctx req w).2 = trace w ++ evs /\
    Forall (executeEvent e ctx req (now w)) evs.
Proof.
  destruct (xreq_Prompt req) as [p|] eqn:Hp.
  - assert (Hrender : executeEvent e ctx req (now w)
                        (EvRender (ID p) (xreq_Input req))).
    { simpl. split; [|done]. exists p. by rewrite Hp. }
    destruct (renderer p) as [r|] eqn:Hr.
    + destruct (r ctx (now w) (xreq_Input req)) as [rendered|err] eqn:Hrd.
      * destruct (Execute_run e ctx req w p r rendered Hp Hr Hrd)
          as (outs & Ht & _ & _).
        eexists. split; [exact Ht|]. apply Forall_cons. split; [done|].
        apply Forall_forall. intros ev Hev.
        apply list_elem_of_fmap in Hev as (out & -> & _).
        simpl. split; [done|]. exists p, rendered. by rewrite Hp.
      * exists [EvRender (ID p) (xreq_Input req)].
        unfold Execute, Render. rewrite Hp, Hr. simpl. rewrite Hrd. simpl.
        split; [done|]. by apply Forall_singleton.
    + exists [EvRender (ID p) (xreq_Input req)].
      unfold Execute, Render. rewrite Hp, Hr. simpl.
      split; [done|]. by apply Forall_singleton.
  - exists []. unfold Execute. rewrite Hp. simpl.
    split; [by rewrite app_nil_r|]. apply Forall_nil. done.
Qed.

(** X1.  A request without a prompt, or whose prompt has no renderer or
    fails to render, is answered with an error and no result, without any
    call to the service, whatever [MaxRetries]: the failure to render is
    not retried.  The service's state and the clock are as they were. *)
Theorem Execute_without_rendering (e : Executor S) ctx req (w : World S) :
  (forall p r rendered,
     xreq_Prompt req = Some p ->
     renderer p = Some r ->
     r ctx (now w) (xreq_Input req) <> inl rendered) ->
  (exists err,
     (Execute e ctx req w).1 = (None, Some err) /\
     match xreq_Prompt req with
     | None => err = ErrPromptRequired
     | Some p =>
         match renderer p with
         | None => err = ErrExecutorRender ErrNoRenderer
         | Some r => exists cause, r ctx (now w) (xreq_Input req) = inr cause /\
                                   err = ErrExecutorRender cause
         end
     end) /\
  pst (Execute e ctx req w).2 = pst w /\
  now (Execute e ctx req w).2 = now w /\
  trace (Execute e ctx req w).2 =
    trace w ++ match xreq_Prompt req with
               | None => []
               | Some p => [EvRender (ID p) (xreq_Input req)]
               end.
Proof.
  intros Hno. unfold Execute, Render.
  destruct (xreq_Prompt req) as [p|] eqn:Hp; simpl.
  - destruct (renderer p) as [r|] eqn:Hr; simpl.
    + destruct (r ctx (now w) (xreq_Input req)) as [rendered|err] eqn:Hrd.
      * by destruct (Hno p r rendered).
      * simpl. split; [|done]. exists (ErrExecutorRender err). split; [done|].
        by exists err.
    + split; [|done]. by exists (ErrExecutorRender ErrNoRenderer).
  - split; [|by rewrite app_nil_r]. by exists ErrPromptRequired.
Qed.

(** X2.  With a negative [MaxRetries] the loop is not entered: the prompt
    is rendered, the service is not called, and the error is "executor
    after 0 attempts" around no error at all. *)
Theorem Execute_negative_retries (e : Executor S) ctx req (w : World S) p r rendered :
  MaxRetries e < 0 ->
  xreq_Prompt req = Some p ->
  renderer p = Some r ->
  r ctx (now w) (xreq_Input req) = inl rendered ->
  Execute e ctx req w =
  ((None, Some (ErrExecutorAfter 0 None)),
   logEvent (EvRender (ID p) (xreq_Input req)) w).
Proof.
  intros Hneg Hp Hr Hrd.
  rewrite (Execute_rendered e ctx req w p r rendered Hp Hr Hrd).
  by rewrite Z2Nat.nonpos by lia.
Qed.

(** X3.  Whatever the service does, [Execute] on a prompt that renders
    calls it at most [MaxRetries + 1] times, every call but the last has
    failed, and the last has failed too exactly when an error is returned;
    a result carries the number of calls made as its [Attempts], between 1
    and [MaxRetries + 1]. *)
Theorem Execute_calls_bounded (e : Executor S) ctx req (w : World S) p r rendered :
  xreq_Prompt req = Some p ->
  renderer p = Some r ->
  r ctx (now w) (xreq_Input req) = inl rendered ->
  exists outs,
    trace (Execute e ctx req w).2 =
      trace w ++ EvRender (ID p) (xreq_Input req)
        :: map (EvComplete (attemptCtx e ctx req (now w))
                  (buildRequest p rendered req)) outs /\
    (length outs <= Z.to_nat (MaxRetries e + 1))%nat /\
    (forall (i : nat) out,
       outs !! i = Some out -> (Datatypes.S i < length outs)%nat ->
       exists err, out = inr err) /\
    match (Execute e ctx req w).1 with
    | (Some res, None) =>
        xres_Attempts res = Z.of_nat (length outs) /\
        1 <= xres_Attempts res <= MaxRetries e + 1 /\
        exists resp, last outs = Some (inl resp) /\
                     xres_Content res = resp_Content resp
    | (None, Some err) =>
        length outs = Z.to_nat (MaxRetries e + 1) /\
        forall out, out ∈ outs -> exists err', out = inr err'
    | _ => False
    end.
Proof.
  intros Hp Hr Hrd.
  destruct (Execute_run e ctx req w p r rendered Hp Hr Hrd)
    as (outs & Ht & _ & Hrun).
  exists outs. split; [exact Ht|].
  inversion Hrun as [errs resp Hlen Houts Hres | errs Hlen Houts Hres].
  - split; [|split].
    + rewrite length_app, length_map. simpl. lia.
    + intros i out Hi Hlt. rewrite length_app, length_map in Hlt. simpl in Hlt.
      rewrite lookup_app_l in Hi by (rewrite length_map; lia).
      rewrite list_lookup_fmap in Hi.
      destruct (errs !! i) as [err|]; simpl in Hi; [|done].
      exists err. congruence.
    + simpl. rewrite length_app, length_map. simpl. split; [lia|].
      split; [lia|]. exists resp. by rewrite last_snoc.
  - split; [|split].
    + rewrite length_map. lia.
    + intros i out Hi _. rewrite list_lookup_fmap in Hi.
      destruct (errs !! i) as [err|]; simpl in Hi; [|done].
      exists err. congruence.
    + simpl. rewrite length_map. split; [done|].
      intros out Hin. apply list_elem_of_fmap in Hin as (err & -> & _). by exists err.
Qed.

(** The clock over the attempt loop when the service leaves it alone: one
    wait after every call but the last. *)
Lemma attemptLoop_slept (e : Executor S) ctx creq rendered k :
  (forall c q t s, (Provider e c q t s).1.2 = t) ->
  forall attempt attempts lastErr (w : World S),
  ((0 < k)%nat -> attempt + Z.of_nat k = MaxRetries e + 1) ->
  exists outs,
    trace (attemptLoop e ctx creq rendered k attempt attempts lastErr w).2 =
      trace w ++ map (EvComplete ctx creq) outs /\
    ((0 < k)%nat -> (0 < length outs)%nat) /\
    now (attemptLoop e ctx creq rendered k attempt attempts lastErr w).2 =
      now w + sleptFrom (Backoff e) attempt (pred (length outs)).
Proof.
  intros Hclock.
  induction k as [|k IH]; intros attempt attempts lastErr w Hk; simpl.
  - exists []. split; [by rewrite app_nil_r|]. split; [lia|]. simpl. lia.
  - assert (Hnow : now (callComplete (Provider e) ctx creq w).2 = now w).
    { unfold callComplete. specialize (Hclock ctx creq (now w) (pst w)).
      by destruct (Provider e ctx creq (now w) (pst w)) as [[out t] s]. }
    pose proof (callComplete_trace e ctx creq w) as Htr.
    destruct (callComplete (Provider e) ctx creq w) as [out w1];
      simpl in Htr, Hnow.
    destruct out as [resp|err].
    + exists [inl resp]. simpl. split; [done|]. split; lia.
    + destruct (Z.eqb_spec attempt (MaxRetries e)) as [Heq|Hne].
      * exists [inr err]. simpl. split; [done|]. split; lia.
      * set (w2 := match Backoff e with
                   | Some backoff => Sleep (backoff attempt) w1
                   | None => w1
                   end).
        assert (Hw2 : trace w2 = trace w1) by (subst w2; by destruct (Backoff e)).
        assert (Hn2 : now w2 = now w + match Backoff e with
                                       | Some f => Z.max 0 (f attempt)
                                       | None => 0
                                       end).
        { subst w2. destruct (Backoff e); simpl; lia. }
        destruct (IH (attempt + 1) (attempts + 1) (Some err) w2)
          as (outs & Ht & Hpos & Hslept); [lia|].
        exists (inr err :: outs). split; [|split].
        -- rewrite Ht, Hw2, Htr. by rewrite <- app_assoc.
        -- simpl. lia.
        -- rewrite Hslept, Hn2. simpl length. simpl pred.
           assert (Hk0 : (0 < k)%nat) by lia. specialize (Hpos Hk0).
           destruct (length outs) as [|m] eqn:Hm; [lia|]. simpl. lia.
Qed.

(** X4.  When the service leaves the clock alone, the time that [Execute]
    takes is the sum of the backoffs after every call but the last, a
    negative backoff counting for nothing: there is no wait after the last
    attempt, and none at all without a backoff function. *)
Theorem Execute_time_slept (e : Executor S) ctx req (w : World S) p r rendered :
  (forall c q t s, (Provider e c q t s).1.2 = t) ->
  xreq_Prompt req = Some p ->
  renderer p = Some r ->
  r ctx (now w) (xreq_Input req) = inl rendered ->
  exists outs,
    trace (Execute e ctx req w).2 =
      trace w ++ EvRender (ID p) (xreq_Input req)
        :: map (EvComplete (attemptCtx e ctx req (now w))
                  (buildRequest p rendered req)) outs /\
    now (Execute e ctx req w).2 =
      now w + sleptFrom (Backoff e) 0 (pred (length outs)) /\
    (Backoff e = None -> now (Execute e ctx req w).2 = now w).
Proof.
  intros Hclock Hp Hr Hrd.
  rewrite (Execute_rendered e ctx req w p r rendered Hp Hr Hrd).
  destruct (attemptLoop_slept e (attemptCtx e ctx req (now w))
              (buildRequest p rendered req) rendered
              (Z.to_nat (MaxRetries e + 1)) Hclock 0 0 None
              (logEvent (EvRender (ID p) (xreq_Input req)) w))
    as (outs & Ht & _ & Hslept); [lia|].
  exists outs. split; [|split].
  - rewrite Ht. simpl. by rewrite <- app_assoc.
  - exact Hslept.
  - intros Hnone. rewrite Hslept, Hnone. simpl.
    assert (Hzero : forall m a, sleptFrom None a m = 0).
    { induction m as [|m IHm]; intros a; simpl; [done|]. by rewrite IHm. }
    rewrite Hzero. lia.
Qed.

(** X5.  One context serves all the attempts of [Execute], made when
    the prompt has been rendered: the caller's context when the timeout in
    force is not positive, and otherwise a context cancelled as the
    caller's and with a deadline that is the earlier of the caller's
    deadline and the instant of the call plus the timeout.  The timeout in
    force is the request's, the executor's only when the request's is
    zero. *)
Theorem Execute_one_deadline (e : Executor S) ctx req (w : World S) :
  (exists evs,
     trace (Execute e ctx req w).2 = trace w ++ evs /\
     forall c q out, EvComplete c q out ∈ evs -> c = attemptCtx e ctx req (now w)) /\
  (effectiveTimeout e req <= 0 -> attemptCtx e ctx req (now w) = ctx) /\
  (0 < effectiveTimeout e req ->
     cancelAt (attemptCtx e ctx req (now w)) = cancelAt ctx /\
     deadline (attemptCtx e ctx req (now w)) =
       Some (match deadline ctx with
             | Some d => Z.min d (now w + effectiveTimeout e req)
             | None => now w + effectiveTimeout e req
             end)) /\
  (xreq_Timeout req <> 0 -> effectiveTimeout e req = xreq_Timeout req) /\
  (xreq_Timeout req = 0 -> effectiveTimeout e req = BaseTimeout e).
Proof.
  split; [|split; [|split; [|split]]].
  - destruct (Execute_events e ctx req w) as (evs & Ht & Hall).
    exists evs. split; [exact Ht|]. intros c q out Hin.
    rewrite Forall_forall in Hall. by destruct (Hall _ Hin) as [-> _].
  - intros Hle. unfold attemptCtx. fold (effectiveTimeout e req). cbv zeta.
    destruct (Z.ltb_spec 0 (effectiveTimeout e req)); [lia|done].
  - intros Hlt. unfold attemptCtx. fold (effectiveTimeout e req). cbv zeta.
    destruct (Z.ltb_spec 0 (effectiveTimeout e req)); [done|lia].
  - unfold effectiveTimeout. intros Hne.
    by destruct (Z.eqb_spec (xreq_Timeout req) 0).
  - unfold effectiveTimeout. by intros ->.
Qed.

End ExecuteMore.

(** The low 64 bits of a number that fits are the number. *)
Lemma wrap64_small z : - 2 ^ 63 <= z < 2 ^ 63 -> wrap64 z = z.
Proof. intros Hz. unfold wrap64. rewrite Z.mod_small; lia. Qed.

(** X6.  [ExponentialBackoff(base, max)] never answers more than [max].
    For an attempt from 0 to 62 and a base that is not negative, as long as
    [base * 2^attempt] fits in 64 bits, it answers that product capped at
    [max], and so a delay that does not decrease from one attempt to the
    next.  The function of the same name in package chain answers the
    same. *)
Theorem ExponentialBackoff_capped outOfRange base max attempt :
  0 <= base ->
  0 <= attempt <= 62 ->
  base * 2 ^ attempt < 2 ^ 63 ->
  (forall a, ExponentialBackoff outOfRange base max a <= max) /\
  ExponentialBackoff outOfRange base max attempt = Z.min (base * 2 ^ attempt) max /\
  (forall a, 0 <= a <= attempt ->
     ExponentialBackoff outOfRange base max a
       <= ExponentialBackoff outOfRange base max attempt) /\
  chain.ExponentialBackoff outOfRange base max attempt =
    ExponentialBackoff outOfRange base max attempt.
Proof.
  intros Hb Ha Hfit.
  assert (Hexact : forall a, 0 <= a <= attempt ->
            ExponentialBackoff outOfRange base max a = Z.min (base * 2 ^ a) max).
  { intros a Hr. unfold ExponentialBackoff, pow2Duration.
    destruct (Z.ltb_spec a 0); [lia|].
    destruct (Z.leb_spec a 62); [|lia].
    assert (Hpow : 2 ^ a <= 2 ^ attempt) by (apply Z.pow_le_mono_r; lia).
    assert (Hpos : 0 < 2 ^ a) by (apply Z.pow_pos_nonneg; lia).
    rewrite wrap64_small by nia.
    destruct (Z.ltb_spec max (base * 2 ^ a)); lia. }
  split; [|split; [|split]].
  - intros a. unfold ExponentialBackoff.
    destruct (Z.ltb_spec max (wrap64 (base * pow2Duration outOfRange a))); lia.
  - apply Hexact. lia.
  - intros a Hr. rewrite !Hexact by lia.
    assert (Hpow : 2 ^ a <= 2 ^ attempt) by (apply Z.pow_le_mono_r; lia).
    nia.
  - reflexivity.
Qed.

(** X7.  An executor made by [New] without options calls the service
    once, under the caller's context when the request sets no timeout, and
    never waits: the answer of that one call is the result, with
    [Attempts = 1], or the error "executor after 1 attempts" around it.
    Options are applied in their order, so that the last one given
    decides. *)
Theorem New_single_attempt {S : Type} outOfRange (next : provider.Provider S) ctx req
    (w : World S) p r rendered :
  xreq_Prompt req = Some p ->
  renderer p = Some r ->
  r ctx (now w) (xreq_Input req) = inl rendered ->
  (exists out t st,
     next (attemptCtx (New outOfRange next []) ctx req (now w))
       (buildRequest p rendered req) (now w) (pst w) = (out, t, st) /\
     Execute (New outOfRange next []) ctx req w =
       (match out with
        | inl resp =>
            (Some (mkExecuteResult (resp_Content resp) (resp_Usage resp)
                     (resp_Model resp) rendered 1), None)
        | inr err => (None, Some (ErrExecutorAfter 1 (Some err)))
        end,
        mkWorld t st
          (trace w ++ [EvRender (ID p) (xreq_Input req);
                       EvComplete (attemptCtx (New outOfRange next []) ctx req (now w))
                         (buildRequest p rendered req) out]))) /\
  (xreq_Timeout req = 0 -> attemptCtx (New outOfRange next []) ctx req (now w) = ctx) /\
  (forall opts o, New outOfRange next (opts ++ [o]) = o (New outOfRange next opts)).
Proof.
  intros Hp Hr Hrd. split; [|split].
  - rewrite (Execute_rendered _ ctx req w p r rendered Hp Hr Hrd).
    unfold New. simpl. unfold callComplete. simpl.
    destruct (next _ (buildRequest p rendered req) (now w) (pst w))
      as [[out t] st] eqn:Hcall.
    exists out, t, st. split; [done|].
    destruct out; simpl; by rewrite <- app_assoc.
  - intros Hz. unfold attemptCtx, New. simpl. by rewrite Hz.
  - intros opts o. unfold New. by rewrite foldl_app.
Qed.

End executor_props.

(** ** The chain *)

Module chain_props.

Import executor chain.

Section Nodes.

Context {S : Type}.
Variable sched : list stepDef -> list stepDef.
Variable c : Chain S.
Variable ctx : Ctx.

Lemma runSequential_return ss : forall result input (w : World S) ret w',
  runSequential c ctx ss result input w = Some (inl ret, w') ->
  ret.1 = None /\ is_Some ret.2.
Proof.
  induction ss as [|s rest IH]; intros result input w ret w' Hrun; simpl in Hrun.
  - done.
  - destruct (skipped ctx result s); [by eapply IH|].
    destruct (runStep c ctx s input w) as [[[out err] w1]|]; [|done].
    destruct err as [err|]; [|by eapply IH].
    injection Hrun as <- <-. simpl. eauto.
Qed.

Lemma runNodes_result ns : forall result input (w : World S) ret w',
  runNodes sched c ctx ns result input w = Some (ret, w') ->
  resultXorError ret.
Proof.
  induction ns as [|n rest IH]; intros result input w ret w' Hrun; simpl in Hrun.
  - injection Hrun as <- <-. right. simpl. eauto.
  - destruct (parallel n).
    + destruct (runParallel sched c ctx (steps n) input result w)
        as [[[outs err] w1]|]; [|done].
      destruct err as [err|]; [|by eapply IH].
      injection Hrun as <- <-. left. simpl. eauto.
    + destruct (runSequential c ctx (steps n) result input w)
        as [[[ret0|[result' input']] w1]|] eqn:Hseq; [| |done].
      * injection Hrun as <- <-. left. by eapply runSequential_return.
      * by eapply IH.
Qed.

(** The steps of a sequential node that have gone through leave the rest
    of the node to run from where they ended. *)
Lemma runSequential_app spre rest : forall result input (w : World S) result2 input2 w2,
  runSequential c ctx spre result input w = Some (inr (result2, input2), w2) ->
  runSequential c ctx (spre ++ rest) result input w =
  runSequential c ctx rest result2 input2 w2.
Proof.
  induction spre as [|s spre IH]; intros result input w result2 input2 w2 Hrun;
    simpl in *.
  - by injection Hrun as <- <- <-.
  - destruct (skipped ctx result s); [by apply IH|].
    destruct (runStep c ctx s input w) as [[[out err] w1]|]; [|done].
    destruct err as [err|]; [done|by apply IH].
Qed.

(** The input with which the loop goes on is the caller's input with the
    outputs written so far on top. *)
Lemma runSequential_input input0 ss : forall result input (w : World S) result' input' w',
  input = mergeInput (outputs result) input0 ->
  runSequential c ctx ss result input w = Some (inr (result', input'), w') ->
  input' = mergeInput (outputs result') input0.
Proof.
  induction ss as [|s rest IH]; intros result input w result' input' w' Hin Hrun;
    simpl in Hrun.
  - by injection Hrun as <- <- <-.
  - destruct (skipped ctx result s); [by eapply IH|].
    destruct (runStep c ctx s input w) as [[[out err] w1]|]; [|done].
    destruct err as [err|]; [done|].
    eapply IH; [|exact Hrun]. subst input. unfold mergeInput, Input in *. simpl.
    by rewrite fmap_insert, insert_union_l.
Qed.

(** The nodes that have gone through leave the rest of the chain to run
    from the result they have written. *)
Lemma runNodes_app input0 pre rest : forall result input (w : World S) result1 w1,
  input = mergeInput (outputs result) input0 ->
  runNodes sched c ctx pre result input w = Some ((Some result1, None), w1) ->
  runNodes sched c ctx (pre ++ rest) result input w =
  runNodes sched c ctx rest result1 (mergeInput (outputs result1) input0) w1.
Proof.
  induction pre as [|n pre IH]; intros result input w result1 w1 Hin Hrun;
    simpl in *.
  - injection Hrun as <- <-. by rewrite Hin.
  - destruct (parallel n).
    + destruct (runParallel sched c ctx (steps n) input result w)
        as [[[outs err] w0]|]; [|done].
      destruct err as [err|]; [done|].
      apply IH; [|done]. subst input. unfold mergeInput, mergeOutputs, Input in *.
      simpl. rewrite map_fmap_union. by rewrite (assoc_L (∪)).
    + destruct (runSequential c ctx (steps n) result input w)
        as [[[ret0|[result' input']] w0]|] eqn:Hseq; [| |done].
      * apply runSequential_return in Hseq as [Hnone _].
        injection Hrun as Hret _. rewrite Hret in Hnone. done.
      * apply IH; [|done]. by eapply runSequential_input.
Qed.

(** The first error that [collect] meets is the one it returns, whatever
    was collected before. *)
Lemma collect_error ps : forall out p err,
  p ∈ ps -> pair_err p = Some err ->
  exists e q, collect ps out = (None, Some e) /\ q ∈ ps /\ pair_err q = Some e.
Proof.
  induction ps as [|p0 ps IH]; intros out p err Hin Herr; simpl.
  - by apply elem_of_nil in Hin.
  - destruct (pair_err p0) as [e0|] eqn:He0.
    + exists e0, p0. split; [done|]. split; [by left|done].
    + apply elem_of_cons in Hin as [->|Hin]; [congruence|].
      destruct (IH (<[pair_name p0 := pair_val p0]> out) p err Hin Herr)
        as (e & q & Hc & Hq & He).
      exists e, q. split; [done|]. split; [by right|done].
Qed.

End Nodes.

(** C9.  Whenever a step of a chain fails, [Chain.Execute] returns no
    [ChainResult] together with the error, whatever the steps before it
    have written.  Let the nodes before a node have gone through, with a
    result [result1].  When the node is sequential and one of its steps,
    reached after the steps before it, returns an error, [Execute] returns
    no result and that error under the name of the step.  When the node is
    a parallel group and one of its launched steps returns an error,
    [Execute] returns no result and the error of a failed step of the
    group.  And any return of [Execute] with an error carries no result,
    while a return without an error carries one. *)
Theorem Execute_nil_result_on_error {S : Type} (sched : list stepDef -> list stepDef)
    (c : Chain S) ctx input (w : World S) :
  (forall res err w',
     chain.Execute sched c ctx input w = Some ((res, err), w') ->
     (is_Some err -> res = None) /\ (err = None -> is_Some res)) /\
  (forall pre n post result1 w1 spre s spost result2 input2 w2 out err w3,
     nodes c = pre ++ n :: post ->
     runNodes sched c ctx pre (mkChainResult ∅) input w
       = Some ((Some result1, None), w1) ->
     parallel n = false ->
     steps n = spre ++ s :: spost ->
     runSequential c ctx spre result1 (mergeInput (outputs result1) input) w1
       = Some (inr (result2, input2), w2) ->
     skipped ctx result2 s = false ->
     runStep c ctx s input2 w2 = Some ((out, Some err), w3) ->
     chain.Execute sched c ctx input w
       = Some ((None, Some (ErrChainStep (name s) err)), w3)) /\
  (forall pre n post result1 w1 ps w3 p err,
     nodes c = pre ++ n :: post ->
     runNodes sched c ctx pre (mkChainResult ∅) input w
       = Some ((Some result1, None), w1) ->
     parallel n = true ->
     runLaunched c ctx
       (sched (filter (fun s => skipped ctx result1 s = false) (steps n)))
       (mergeInput (outputs result1) input) w1 = Some (ps, w3) ->
     p ∈ ps -> pair_err p = Some err ->
     exists e q,
       chain.Execute sched c ctx input w = Some ((None, Some e), w3) /\
       q ∈ ps /\ pair_err q = Some e).
Proof.
  assert (Hstart : input = mergeInput (outputs (mkChainResult ∅)) input).
  { unfold mergeInput, Input in *. simpl. rewrite fmap_empty.
    by rewrite (left_id_L ∅ (∪)). }
  split; [|split].
  - intros res err w'. unfold chain.Execute. intros Hrun.
    apply runNodes_result in Hrun as [[Hres Herr]|[Hres Herr]]; simpl in *.
    + split; [done|]. intros ->. by destruct Herr.
    + split; [|done]. intros [e He]. congruence.
  - intros pre n post result1 w1 spre s spost result2 input2 w2 out err w3
      Hnodes Hpre Hpar Hsteps Hspre Hskip Hstep.
    unfold chain.Execute. rewrite Hnodes.
    rewrite (runNodes_app sched c ctx input pre (n :: post) _ _ _ _ _ Hstart Hpre).
    simpl. rewrite Hpar, Hsteps.
    rewrite (runSequential_app c ctx spre (s :: spost) _ _ _ _ _ _ Hspre).
    simpl. by rewrite Hskip, Hstep.
  - intros pre n post result1 w1 ps w3 p err Hnodes Hpre Hpar Hlaunched Hin Herr.
    unfold chain.Execute. rewrite Hnodes.
    rewrite (runNodes_app sched c ctx input pre (n :: post) _ _ _ _ _ Hstart Hpre).
    simpl. rewrite Hpar. unfold runParallel. rewrite Hlaunched.
    destruct (collect_error ps ∅ p err Hin Herr) as (e & q & Hc & Hq & He).
    exists e, q. rewrite Hc. done.
Qed.

(** *** Skipped steps *)

Lemma collect_dom ps : forall out outs,
  collect ps out = (Some outs, None) ->
  forall k, is_Some (outs !! k) ->
    is_Some (out !! k) \/ exists p, p ∈ ps /\ pair_name p = k.
Proof.
  induction ps as [|p ps IH]; intros out outs Hc k Hk; simpl in Hc.
  - injection Hc as <-. by left.
  - destruct (pair_err p); [done|].
    destruct (IH _ _ Hc k Hk) as [Hin|(q & Hq & Hname)].
    + destruct (decide (pair_name p = k)) as [Heq|Hne].
      * right. exists p. split; [set_solver|done].
      * left. by rewrite lookup_insert_ne in Hin.
    + right. exists q. split; [set_solver|done].
Qed.

Lemma runLaunched_names {S : Type} (c : Chain S) ctx input l :
  forall (w : World S) ps w',
  runLaunched c ctx l input w = Some (ps, w') ->
  pair_name <$> ps = name <$> l.
Proof.
  induction l as [|s l IH]; intros w ps w' Hrun; simpl in Hrun.
  - by injection Hrun as <- <-.
  - destruct (runStep c ctx s input w) as [[[v err] w1]|]; [|done].
    destruct (runLaunched c ctx l input w1) as [[ps' w2]|] eqn:Hrest; [|done].
    injection Hrun as <- <-. simpl. f_equal. by eapply IH.
Qed.

(** C8.  A step whose condition is false against the current result is
    skipped entirely.  In a sequential node the loop goes on as if the step
    were not there, and the step alone leaves the result, the input and the
    world as they are: no entry is written, nothing is rendered, the service
    is not called, no error is returned.  In a parallel group the step is
    not launched: the group runs as the group without it, and a name appears
    in the outputs of the group only as the name of a launched step. *)
Theorem skipped_step_is_absent {S : Type} (sched : list stepDef -> list stepDef)
    (c : Chain S) ctx (s : stepDef) result input (w : World S) :
  (forall l, sched l ≡ₚ l) ->
  skipped ctx result s = true ->
  (forall rest,
     runSequential c ctx (s :: rest) result input w =
     runSequential c ctx rest result input w) /\
  runSequential c ctx [s] result input w = Some (inr (result, input), w) /\
  (forall l1 l2,
     runParallel sched c ctx (l1 ++ s :: l2) input result w =
     runParallel sched c ctx (l1 ++ l2) input result w) /\
  (forall l1 l2 outs w' k,
     runParallel sched c ctx (l1 ++ s :: l2) input result w
       = Some ((Some outs, None), w') ->
     is_Some (outs !! k) ->
     exists s', s' ∈ l1 ++ l2 /\ skipped ctx result s' = false /\ name s' = k).
Proof.
  intros Hsched Hskip.
  assert (Hfilter : forall l1 l2,
    filter (fun s0 => skipped ctx result s0 = false) (l1 ++ s :: l2) =
    filter (fun s0 => skipped ctx result s0 = false) (l1 ++ l2)).
  { intros l1 l2. rewrite !filter_app. f_equal.
    apply filter_cons_False. by rewrite Hskip. }
  split; [|split; [|split]].
  - intros rest. simpl. by rewrite Hskip.
  - simpl. by rewrite Hskip.
  - intros l1 l2. unfold runParallel. by rewrite Hfilter.
  - intros l1 l2 outs w' k Hrun Hk. unfold runParallel in Hrun.
    rewrite Hfilter in Hrun.
    set (launched := filter (fun s0 => skipped ctx result s0 = false) (l1 ++ l2))
      in Hrun.
    destruct (runLaunched c ctx (sched launched) input w) as [[ps w1]|] eqn:Hl;
      [|done].
    injection Hrun as Hc <-.
    destruct (collect_dom _ _ _ Hc k Hk) as [Hin|(q & Hq & Hname)].
    { rewrite lookup_empty in Hin. by destruct Hin. }
    apply runLaunched_names in Hl.
    assert (Hkin : k ∈ name <$> sched launched).
    { rewrite <- Hl, <- Hname. by apply list_elem_of_fmap_2. }
    apply list_elem_of_fmap in Hkin as (s' & -> & Hs').
    rewrite (Hsched launched) in Hs'.
    apply list_elem_of_filter in Hs' as [Hns Hs'].
    by exists s'.
Qed.

(** *** Retries and fallback of a step *)

Section Step.

Context {S : Type}.
Variable e : Executor S.
Variable s : stepDef.
Variable ctx : Ctx.
Variable req : ExecuteRequest.
Variable input : Input.




End Step.

Section Fallback.

Context {S : Type}.
Variable sched : list stepDef -> list stepDef.
Hypothesis sched_perm : forall l, sched l ≡ₚ l.
Variable c : Chain S.
Variable ctx : Ctx.




End Fallback.


(** *** More of the chain *)

Lemma narrows_refl ctx : narrows ctx ctx.
Proof. split; [done|]. intros pd Hpd. exists pd. split; [done|lia]. Qed.

Lemma narrows_trans c1 c2 c3 : narrows c1 c2 -> narrows c2 c3 -> narrows c1 c3.
Proof.
  intros [Hc12 Hd12] [Hc23 Hd23]. split; [congruence|].
  intros pd Hpd. destruct (Hd23 pd Hpd) as (d2 & Hd2 & Hle2).
  destruct (Hd12 d2 Hd2) as (d1 & Hd1 & Hle1). exists d1. split; [done|lia].
Qed.

Lemma WithTimeout_narrows ctx d t : narrows (gocontext.WithTimeout ctx d t) ctx.
Proof.
  split; [done|]. intros pd Hpd. simpl. rewrite Hpd.
  eexists. split; [done|]. lia.
Qed.

Lemma WithTimeout_deadline ctx d t :
  exists dl, deadline (gocontext.WithTimeout ctx d t) = Some dl /\ dl <= t + d.
Proof.
  simpl. destruct (deadline ctx); eexists; (split; [done|]); unfold Add; lia.
Qed.

Lemma stepCtx_narrows ctx s t : narrows (stepCtx ctx s t) ctx.
Proof.
  unfold stepCtx. destruct (0 <? timeout s);
    [apply WithTimeout_narrows|apply narrows_refl].
Qed.

Lemma attemptCtx_narrows {S : Type} (e : Executor S) ctx req t :
  narrows (attemptCtx e ctx req t) ctx.
Proof.
  unfold attemptCtx. cbv zeta.
  destruct (0 <? _); [apply WithTimeout_narrows|apply narrows_refl].
Qed.

(** The model of the request that the executor builds. *)
Lemma buildRequest_req_Model p rendered req :
  req_Model (buildRequest p rendered req) =
  if String.eqb (xreq_Model req) "" then "gpt-3.5-turbo" else xreq_Model req.
Proof. unfold buildRequest. simpl. by destruct (String.eqb (xreq_Model req) ""). Qed.

Section StepEvents.

Context {S : Type}.
Variable c : Chain S.
Variable ctx : Ctx.

Lemma stepRequest_model s input p rendered :
  req_Model (buildRequest p rendered (stepRequest c s input)) = chainModel c.
Proof.
  rewrite buildRequest_req_Model. unfold stepRequest, chainModel. simpl.
  destruct (String.eqb_spec (defaultModel c) ""); [done|].
  by destruct (String.eqb_spec (defaultModel c) "").
Qed.

(** The events of [Execute] under the context of a step are events of the
    step, for the primary prompt as for the fallback. *)
Lemma executeEvent_stepEvent (e : Executor S) s t0 input req t ev :
  exec c = Some e ->
  xreq_Input req = input ->
  xreq_Model req = xreq_Model (stepRequest c s input) ->
  xreq_Timeout req = timeout s ->
  executeEvent e (stepCtx ctx s t0) req t ev ->
  stepEvent c s ctx t0 input ev.
Proof.
  intros He Hin Hm Hto Hev. destruct ev as [id inp|cx q out]; simpl in *.
  - destruct Hev as [_ ->]. done.
  - destruct Hev as [-> (p & rendered & _ & ->)].
    split; [by rewrite He|]. split; [|split].
    + pose proof (stepRequest_model s input p rendered) as Hmodel.
      rewrite buildRequest_req_Model in Hmodel |- *. by rewrite Hm.
    + eapply narrows_trans; [apply attemptCtx_narrows|apply stepCtx_narrows].
    + intros Hpos.
      destruct (attemptCtx_narrows e (stepCtx ctx s t0) req t) as [_ Hdl].
      destruct (WithTimeout_deadline ctx (timeout s) t0) as (dl & Hdl0 & Hle0).
      assert (Hstep : deadline (stepCtx ctx s t0) = Some dl).
      { unfold stepCtx. by destruct (Z.ltb_spec 0 (timeout s)); [|lia]. }
      destruct (Hdl dl Hstep) as (d & Hd & Hle). exists d. split; [done|lia].
Qed.

Lemma renderOnly_events s cx input (w : World S) r w' :
  renderOnly s cx input w = Some (r, w') ->
  exists p, prompt s = Some p /\ trace w' = trace w ++ [EvRender (ID p) input].
Proof.
  unfold renderOnly, Render. destruct (prompt s) as [p|]; [|done].
  simpl. intros Hr. exists p. split; [done|].
  destruct (renderer p) as [rf|]; simpl in Hr.
  - destruct (rf cx (now w) input); by injection Hr as <- <-.
  - by injection Hr as <- <-.
Qed.

Lemma selectDoneOrAfter_trace cx d (w : World S) :
  trace (selectDoneOrAfter cx d w).2 = trace w.
Proof.
  unfold selectDoneOrAfter. destruct (doneAt cx) as [t|]; [|done].
  by destruct (t <=? now w + Z.max 0 d).
Qed.

Lemma retryLoop_events (e : Executor S) s t0 input k :
  exec c = Some e ->
  forall attempt (w : World S) r w',
  retryLoop e s (stepCtx ctx s t0) (stepRequest c s input) input k attempt w
    = Some (r, w') ->
  exists evs,
    trace w' = trace w ++ evs /\ Forall (stepEvent c s ctx t0 input) evs.
Proof.
  intros He. induction k as [|k IH]; intros attempt w r w' Hrun; simpl in Hrun.
  - apply renderOnly_events in Hrun as (p & _ & Ht).
    eexists. split; [exact Ht|]. by apply Forall_singleton.
  - destruct (executor_props.Execute_events e (stepCtx ctx s t0) (stepRequest c s input) w)
      as (evs1 & Ht1 & Hall1).
    assert (Hstep1 : Forall (stepEvent c s ctx t0 input) evs1).
    { eapply Forall_impl; [exact Hall1|]. intros ev Hev.
      exact (executeEvent_stepEvent e s t0 input (stepRequest c s input) (now w)
               ev He eq_refl eq_refl eq_refl Hev). }
    destruct (executor.Execute e (stepCtx ctx s t0) (stepRequest c s input) w)
      as [[res err] w1]; simpl in Ht1.
    destruct err as [lastErr|].
    + destruct (attempt =? maxRetries s).
      * destruct (fallback s) as [fb|].
        -- destruct (executor_props.Execute_events e (stepCtx ctx s t0)
                       (setPrompt fb (stepRequest c s input)) w1)
             as (evs2 & Ht2 & Hall2).
           assert (Hstep2 : Forall (stepEvent c s ctx t0 input) evs2).
           { eapply Forall_impl; [exact Hall2|]. intros ev Hev.
             exact (executeEvent_stepEvent e s t0 input
                      (setPrompt fb (stepRequest c s input)) (now w1)
                      ev He eq_refl eq_refl eq_refl Hev). }
           destruct (executor.Execute e (stepCtx ctx s t0)
                       (setPrompt fb (stepRequest c s input)) w1)
             as [[res2 err2] w2]; simpl in Ht2.
           assert (Htr : trace w2 = trace w ++ evs1 ++ evs2)
             by (by rewrite Ht2, Ht1, <- app_assoc).
           assert (Hall : Forall (stepEvent c s ctx t0 input) (evs1 ++ evs2))
             by (by apply Forall_app).
           destruct err2 as [err2|].
           ++ injection Hrun as <- <-. eauto.
           ++ destruct res2; [|done]. injection Hrun as <- <-. eauto.
        -- injection Hrun as <- <-. eauto.
      * destruct (backoff s) as [f|].
        -- pose proof (selectDoneOrAfter_trace (stepCtx ctx s t0) (f attempt) w1)
             as Hsel.
           destruct (selectDoneOrAfter (stepCtx ctx s t0) (f attempt) w1)
             as [done w2]; simpl in Hsel.
           destruct done.
           ++ injection Hrun as <- <-. exists evs1. by rewrite Hsel.
           ++ destruct (IH _ _ _ _ Hrun) as (evs2 & Ht2 & Hall2).
              exists (evs1 ++ evs2). split; [|by apply Forall_app].
              by rewrite Ht2, Hsel, Ht1, <- app_assoc.
        -- destruct (IH _ _ _ _ Hrun) as (evs2 & Ht2 & Hall2).
           exists (evs1 ++ evs2). split; [|by apply Forall_app].
           by rewrite Ht2, Ht1, <- app_assoc.
    + destruct res; [|done]. injection Hrun as <- <-. eauto.
Qed.

Lemma runStep_events s input (w : World S) r w' :
  runStep c ctx s input w = Some (r, w') ->
  exists evs,
    trace w' = trace w ++ evs /\ Forall (stepEvent c s ctx (now w) input) evs.
Proof.
  unfold runStep. destruct (exec c) as [e|] eqn:He.
  - by apply retryLoop_events.
  - intros Hrun. apply renderOnly_events in Hrun as (p & _ & Ht).
    eexists. split; [exact Ht|]. by apply Forall_singleton.
Qed.

(** X8.  The per-step timeout covers the step as a whole: every call to
    the service that a step with a positive timeout makes, retries and
    fallback included, carries a context cancelled as the caller's whose
    deadline is no later than the start of the step plus the timeout, and
    no later than the caller's own deadline. *)
Theorem runStep_timeout_covers_step s input (w : World S) r w' :
  0 < timeout s ->
  runStep c ctx s input w = Some (r, w') ->
  exists evs,
    trace w' = trace w ++ evs /\
    forall cx q out, EvComplete cx q out ∈ evs ->
      cancelAt cx = cancelAt ctx /\
      (exists d, deadline cx = Some d /\ d <= now w + timeout s) /\
      (forall pd, deadline ctx = Some pd ->
         exists d, deadline cx = Some d /\ d <= pd).
Proof.
  intros Hpos Hrun. destruct (runStep_events s input w r w' Hrun) as (evs & Ht & Hall).
  exists evs. split; [exact Ht|]. intros cx q out Hin.
  rewrite Forall_forall in Hall. specialize (Hall _ Hin). simpl in Hall.
  destruct Hall as (_ & _ & [Hc Hd] & Hto). auto.
Qed.

(** X9.  A step whose [maxRetries] is negative never reaches the
    executor, set or not: the step is the rendering of its prompt, whose
    user text is the output, and the service is not called. *)
Theorem runStep_negative_retries s input (w : World S) :
  maxRetries s < 0 ->
  runStep c ctx s input w = renderOnly s (stepCtx ctx s (now w)) input w /\
  forall r w', runStep c ctx s input w = Some (r, w') ->
    exists p, prompt s = Some p /\ trace w' = trace w ++ [EvRender (ID p) input].
Proof.
  intros Hneg.
  assert (Heq : runStep c ctx s input w
                = renderOnly s (stepCtx ctx s (now w)) input w).
  { unfold runStep. destruct (exec c); [|done].
    by rewrite Z2Nat.nonpos by lia. }
  split; [exact Heq|]. intros r w' Hrun. rewrite Heq in Hrun.
  by eapply renderOnly_events.
Qed.

End StepEvents.

Section ChainEvents.

Context {S : Type}.
Variable sched : list stepDef -> list stepDef.
Hypothesis sched_perm : forall l, sched l ≡ₚ l.
Variable c : Chain S.
Variable ctx : Ctx.
Variable names : list string.
Variable input0 : Input.

Lemma stepEvent_chainEvent s t0 input ev :
  agreeOutside names input input0 ->
  stepEvent c s ctx t0 input ev ->
  chainEvent c ctx names input0 ev.
Proof.
  intros Hag Hev. destruct ev as [id inp|cx q out]; simpl in *.
  - by subst inp.
  - destruct Hev as (He & Hm & Hn & _). auto.
Qed.

Lemma runStep_chainEvents s input (w : World S) r w' :
  agreeOutside names input input0 ->
  runStep c ctx s input w = Some (r, w') ->
  exists evs,
    trace w' = trace w ++ evs /\ Forall (chainEvent c ctx names input0) evs.
Proof.
  intros Hag Hrun.
  destruct (runStep_events c ctx s input w r w' Hrun) as (evs & Ht & Hall).
  exists evs. split; [exact Ht|].
  eapply Forall_impl; [exact Hall|]. intros ev Hev.
  by eapply stepEvent_chainEvent.
Qed.

Lemma runLaunched_events l input :
  agreeOutside names input input0 ->
  forall (w : World S) ps w',
  runLaunched c ctx l input w = Some (ps, w') ->
  exists evs,
    trace w' = trace w ++ evs /\ Forall (chainEvent c ctx names input0) evs.
Proof.
  intros Hag. induction l as [|s l IH]; intros w ps w' Hrun; simpl in Hrun.
  - injection Hrun as <- <-. exists []. split; [by rewrite app_nil_r|].
    by apply Forall_nil.
  - destruct (runStep c ctx s input w) as [[[v err] w1]|] eqn:Hstep; [|done].
    destruct (runLaunched c ctx l input w1) as [[ps' w2]|] eqn:Hrest; [|done].
    injection Hrun as <- <-.
    destruct (runStep_chainEvents s input w _ _ Hag Hstep) as (evs1 & Ht1 & Hall1).
    destruct (IH _ _ _ Hrest) as (evs2 & Ht2 & Hall2).
    exists (evs1 ++ evs2). split; [|by apply Forall_app].
    by rewrite Ht2, Ht1, <- app_assoc.
Qed.

(** The names in the outputs of a group are names of launched steps, and
    every launched step has its name there. *)
Lemma runParallel_keys group input result (w : World S) outs w' :
  runParallel sched c ctx group input result w = Some ((Some outs, None), w') ->
  (forall k, is_Some (outs !! k) ->
     exists s, s ∈ group /\ skipped ctx result s = false /\ name s = k) /\
  (forall s, s ∈ group -> skipped ctx result s = false ->
     is_Some (outs !! name s)).
Proof.
  unfold runParallel.
  set (launched := filter (fun s0 => skipped ctx result s0 = false) group).
  destruct (runLaunched c ctx (sched launched) input w) as [[ps w1]|] eqn:Hl;
    [|done].
  intros Hrun. injection Hrun as Hc <-.
  apply runLaunched_names in Hl. split.
  - intros k Hk.
    destruct (collect_dom _ _ _ Hc k Hk) as [Hin|(q & Hq & Hname)].
    { rewrite lookup_empty in Hin. by destruct Hin. }
    assert (Hkin : k ∈ name <$> sched launched).
    { rewrite <- Hl, <- Hname. by apply list_elem_of_fmap_2. }
    apply list_elem_of_fmap in Hkin as (s' & -> & Hs').
    rewrite (sched_perm launched) in Hs'.
    apply list_elem_of_filter in Hs' as [Hns Hs']. by exists s'.
  - intros s Hs Hns.
    assert (Hin : name s ∈ pair_name <$> ps).
    { rewrite Hl. apply list_elem_of_fmap_2. rewrite (sched_perm launched).
      by apply list_elem_of_filter. }
    clear Hl. revert Hc Hin. generalize (∅ : gmap string string).
    induction ps as [|p ps IH]; intros out Hc Hin; simpl in *.
    + by apply elem_of_nil in Hin.
    + destruct (pair_err p); [done|].
      apply elem_of_cons in Hin as [Heq|Hin]; [|by eapply IH].
      assert (Hkeep : forall qs o o', collect qs o = (Some o', None) ->
                forall k, is_Some (o !! k) -> is_Some (o' !! k)).
      { clear. induction qs as [|q qs IHq]; intros o o' Hq k Hk; simpl in Hq.
        - by injection Hq as <-.
        - destruct (pair_err q); [done|]. eapply IHq; [exact Hq|].
          destruct (decide (pair_name q = k)) as [->|Hne].
          + rewrite lookup_insert_eq. eauto.
          + by rewrite lookup_insert_ne. }
      eapply Hkeep; [exact Hc|]. rewrite Heq, lookup_insert_eq. eauto.
Qed.

Lemma mergeInput_agree outs input :
  (forall k, is_Some (outs !! k) -> k ∈ names) ->
  agreeOutside names input input0 ->
  agreeOutside names (mergeInput outs input) input0.
Proof.
  intros Hkeys Hag k Hk. unfold mergeInput, agreeOutside, Input in *.
  rewrite lookup_union_r; [by apply Hag|].
  rewrite lookup_fmap. destruct (outs !! k) eqn:Hout; [|done].
  destruct Hk. apply Hkeys. rewrite Hout. eauto.
Qed.

Lemma runSequential_events ss :
  (forall s, s ∈ ss -> name s ∈ names) ->
  forall result input (w : World S) flow w',
  agreeOutside names input input0 ->
  runSequential c ctx ss result input w = Some (flow, w') ->
  exists evs,
    trace w' = trace w ++ evs /\
    Forall (chainEvent c ctx names input0) evs /\
    match flow with
    | inr (_, input') => agreeOutside names input' input0
    | inl _ => True
    end.
Proof.
  induction ss as [|s rest IH]; intros Hnames result input w flow w' Hag Hrun;
    simpl in Hrun.
  - injection Hrun as <- <-. exists []. split; [by rewrite app_nil_r|].
    split; [by apply Forall_nil|done].
  - assert (Hrest : forall s0, s0 ∈ rest -> name s0 ∈ names)
      by (intros s0 Hs0; apply Hnames; set_solver).
    destruct (skipped ctx result s); [by eapply IH|].
    destruct (runStep c ctx s input w) as [[[out err] w1]|] eqn:Hstep; [|done].
    destruct (runStep_chainEvents s input w _ _ Hag Hstep) as (evs1 & Ht1 & Hall1).
    destruct err as [err|].
    + injection Hrun as <- <-. exists evs1. by split.
    + assert (Hag' : agreeOutside names (<[name s := VStr out]> input) input0).
      { unfold agreeOutside, Input in *.
        intros k Hk. rewrite lookup_insert_ne; [by apply Hag|].
        intros <-. apply Hk, Hnames. set_solver. }
      destruct (IH Hrest _ _ _ _ _ Hag' Hrun) as (evs2 & Ht2 & Hall2 & Hflow).
      exists (evs1 ++ evs2). split; [by rewrite Ht2, Ht1, <- app_assoc|].
      split; [by apply Forall_app|done].
Qed.

Lemma runNodes_events ns :
  (forall k, k ∈ stepNames ns -> k ∈ names) ->
  forall result input (w : World S) ret w',
  agreeOutside names input input0 ->
  runNodes sched c ctx ns result input w = Some (ret, w') ->
  exists evs,
    trace w' = trace w ++ evs /\ Forall (chainEvent c ctx names input0) evs.
Proof.
  induction ns as [|n rest IH]; intros Hnames result input w ret w' Hag Hrun;
    simpl in Hrun.
  - injection Hrun as <- <-. exists []. split; [by rewrite app_nil_r|].
    by apply Forall_nil.
  - assert (Hhere : forall s, s ∈ steps n -> name s ∈ names).
    { intros s Hs. apply Hnames. unfold stepNames. simpl.
      apply elem_of_app. left. by apply list_elem_of_fmap_2. }
    assert (Hrest : forall k, k ∈ stepNames rest -> k ∈ names).
    { intros k Hk. apply Hnames. unfold stepNames. simpl.
      apply elem_of_app. by right. }
    destruct (parallel n).
    + destruct (runParallel sched c ctx (steps n) input result w)
        as [[[outs err] w1]|] eqn:Hpar; [|done].
      assert (Hev1 : exists evs, trace w1 = trace w ++ evs /\
                       Forall (chainEvent c ctx names input0) evs).
      { unfold runParallel in Hpar.
        destruct (runLaunched c ctx _ input w) as [[ps w0]|] eqn:Hl; [|done].
        injection Hpar as _ <-. by eapply runLaunched_events. }
      destruct Hev1 as (evs1 & Ht1 & Hall1).
      destruct err as [err|].
      * injection Hrun as <- <-. eauto.
      * assert (Hag' : agreeOutside names (mergeInput (default ∅ outs) input) input0).
        { apply mergeInput_agree; [|done]. intros k Hk.
          destruct outs as [outs|]; simpl in Hk;
            [|rewrite lookup_empty in Hk; by destruct Hk].
          destruct (proj1 (runParallel_keys _ _ _ _ _ _ Hpar) k Hk)
            as (s & Hs & _ & <-).
          by apply Hhere. }
        destruct (IH Hrest _ _ _ _ _ Hag' Hrun) as (evs2 & Ht2 & Hall2).
        exists (evs1 ++ evs2). split; [|by apply Forall_app].
        by rewrite Ht2, Ht1, <- app_assoc.
    + destruct (runSequential c ctx (steps n) result input w)
        as [[[ret0|[result' input']] w1]|] eqn:Hseq; [| |done].
      * injection Hrun as <- <-.
        destruct (runSequential_events _ Hhere _ _ _ _ _ Hag Hseq)
          as (evs & Ht & Hall & _). eauto.
      * destruct (runSequential_events _ Hhere _ _ _ _ _ Hag Hseq)
          as (evs1 & Ht1 & Hall1 & Hag').
        destruct (IH Hrest _ _ _ _ _ Hag' Hrun) as (evs2 & Ht2 & Hall2).
        exists (evs1 ++ evs2). split; [|by apply Forall_app].
        by rewrite Ht2, Ht1, <- app_assoc.
Qed.

End ChainEvents.

(** The events of a run of [chain.Execute]. *)
Lemma Execute_chainEvents {S : Type} (sched : list stepDef -> list stepDef)
    (c : Chain S) ctx input (w : World S) ret w' :
  (forall l, sched l ≡ₚ l) ->
  chain.Execute sched c ctx input w = Some (ret, w') ->
  exists evs,
    trace w' = trace w ++ evs /\
    Forall (chainEvent c ctx (stepNames (nodes c)) input) evs.
Proof.
  intros Hsched Hrun. unfold chain.Execute in Hrun.
  by eapply (runNodes_events sched Hsched c ctx (stepNames (nodes c)) input
               (nodes c)).
Qed.

(** X10.  A chain without an executor never calls the service: its run
    consists of renderings only, whatever the retries, fallbacks and
    timeouts of its steps. *)
Theorem Execute_render_only {S : Type} (sched : list stepDef -> list stepDef)
    (c : Chain S) ctx input (w : World S) ret w' :
  (forall l, sched l ≡ₚ l) ->
  exec c = None ->
  chain.Execute sched c ctx input w = Some (ret, w') ->
  exists evs,
    trace w' = trace w ++ evs /\
    forall ev, ev ∈ evs -> isComplete ev = false.
Proof.
  intros Hsched Hnone Hrun.
  destruct (Execute_chainEvents sched c ctx input w ret w' Hsched Hrun)
    as (evs & Ht & Hall).
  exists evs. split; [exact Ht|]. intros ev Hin.
  rewrite Forall_forall in Hall. specialize (Hall _ Hin).
  destruct ev as [id inp|cx q out]; [done|].
  simpl in Hall. destruct Hall as ([e He] & _). congruence.
Qed.

(** X11.  Every request that a chain sends to the service carries the
    chain's default model, and "gpt-3.5-turbo" when the chain has none,
    for the primary prompt of a step as for its fallback. *)
Theorem Execute_chain_model {S : Type} (sched : list stepDef -> list stepDef)
    (c : Chain S) ctx input (w : World S) ret w' :
  (forall l, sched l ≡ₚ l) ->
  chain.Execute sched c ctx input w = Some (ret, w') ->
  exists evs,
    trace w' = trace w ++ evs /\
    forall cx q out, EvComplete cx q out ∈ evs ->
      req_Model q = (if String.eqb (defaultModel c) "" then "gpt-3.5-turbo"
                     else defaultModel c).
Proof.
  intros Hsched Hrun.
  destruct (Execute_chainEvents sched c ctx input w ret w' Hsched Hrun)
    as (evs & Ht & Hall).
  exists evs. split; [exact Ht|]. intros cx q out Hin.
  rewrite Forall_forall in Hall. specialize (Hall _ Hin).
  simpl in Hall. by destruct Hall as (_ & Hm & _).
Qed.

(** X12.  The caller's context reaches every call of a chain: each call
    to the service carries a context that is cancelled when the caller's
    is, and whose deadline, when the caller has one, is not later. *)
Theorem Execute_chain_context {S : Type} (sched : list stepDef -> list stepDef)
    (c : Chain S) ctx input (w : World S) ret w' :
  (forall l, sched l ≡ₚ l) ->
  chain.Execute sched c ctx input w = Some (ret, w') ->
  exists evs,
    trace w' = trace w ++ evs /\
    forall cx q out, EvComplete cx q out ∈ evs ->
      cancelAt cx = cancelAt ctx /\
      forall pd, deadline ctx = Some pd ->
        exists d, deadline cx = Some d /\ d <= pd.
Proof.
  intros Hsched Hrun.
  destruct (Execute_chainEvents sched c ctx input w ret w' Hsched Hrun)
    as (evs & Ht & Hall).
  exists evs. split; [exact Ht|]. intros cx q out Hin.
  rewrite Forall_forall in Hall. specialize (Hall _ Hin).
  simpl in Hall. by destruct Hall as (_ & _ & Hn).
Qed.

(** X13.  The caller's input reaches every step: every prompt that a
    chain renders, itself or through the executor, is rendered on an input
    that holds the caller's entries under every key that is not the name
    of a step of the chain; only step names are overwritten. *)
Theorem Execute_chain_inputs {S : Type} (sched : list stepDef -> list stepDef)
    (c : Chain S) ctx input (w : World S) ret w' :
  (forall l, sched l ≡ₚ l) ->
  chain.Execute sched c ctx input w = Some (ret, w') ->
  exists evs,
    trace w' = trace w ++ evs /\
    forall id inp k, EvRender id inp ∈ evs ->
      k ∉ stepNames (nodes c) -> inp !! k = input !! k.
Proof.
  intros Hsched Hrun.
  destruct (Execute_chainEvents sched c ctx input w ret w' Hsched Hrun)
    as (evs & Ht & Hall).
  exists evs. split; [exact Ht|]. intros id inp k Hin Hk.
  rewrite Forall_forall in Hall. specialize (Hall _ Hin).
  simpl in Hall. by apply Hall.
Qed.

Section ChainResultKeys.

Context {S : Type}.
Variable sched : list stepDef -> list stepDef.
Hypothesis sched_perm : forall l, sched l ≡ₚ l.
Variable c : Chain S.
Variable ctx : Ctx.

(** How the entries of the result move over a sequential node that goes
    through: none is lost, the new ones bear names of steps of the node,
    and every step without a condition has one. *)
Lemma runSequential_keys ss : forall result input (w : World S) result' input' w',
  runSequential c ctx ss result input w = Some (inr (result', input'), w') ->
  (forall k, is_Some (outputs result !! k) -> is_Some (outputs result' !! k)) /\
  (forall k, is_Some (outputs result' !! k) ->
     is_Some (outputs result !! k) \/ k ∈ name <$> ss) /\
  (forall s, s ∈ ss -> condition s = None -> is_Some (outputs result' !! name s)).
Proof.
  induction ss as [|s rest IH]; intros result input w result' input' w' Hrun;
    simpl in Hrun.
  - injection Hrun as <- <- <-. split; [done|]. split; [by left|].
    intros s Hs. by apply elem_of_nil in Hs.
  - destruct (skipped ctx result s) eqn:Hskip.
    + destruct (IH _ _ _ _ _ _ Hrun) as (Hkeep & Hnew & Hall).
      split; [done|]. split.
      * intros k Hk. destruct (Hnew k Hk); [by left|right]. simpl.
        apply elem_of_cons. by right.
      * intros s0 Hs0 Hc. apply elem_of_cons in Hs0 as [->|Hs0]; [|by apply Hall].
        unfold skipped in Hskip. by rewrite Hc in Hskip.
    + destruct (runStep c ctx s input w) as [[[out err] w1]|]; [|done].
      destruct err as [err|]; [done|].
      destruct (IH _ _ _ _ _ _ Hrun) as (Hkeep & Hnew & Hall). simpl in *.
      assert (Hhere : is_Some (outputs result' !! name s)).
      { apply Hkeep. rewrite lookup_insert_eq. eauto. }
      split; [|split].
      * intros k Hk. apply Hkeep.
        destruct (decide (name s = k)) as [->|Hne];
          [rewrite lookup_insert_eq; eauto|by rewrite lookup_insert_ne].
      * intros k Hk. destruct (Hnew k Hk) as [Hin|Hin];
          [|right; apply elem_of_cons; by right].
        destruct (decide (name s = k)) as [->|Hne];
          [right; apply elem_of_cons; by left|].
        left. by rewrite lookup_insert_ne in Hin.
      * intros s0 Hs0 Hc. apply elem_of_cons in Hs0 as [->|Hs0]; [done|].
        by apply Hall.
Qed.

Lemma elem_of_stepNames k ns :
  k ∈ stepNames ns <-> exists n s, n ∈ ns /\ s ∈ steps n /\ name s = k.
Proof.
  unfold stepNames. rewrite list_elem_of_bind. split.
  - intros (n & Hk & Hn). apply list_elem_of_fmap in Hk as (s & -> & Hs). eauto.
  - intros (n & s & Hn & Hs & <-). exists n. split; [|done].
    by apply list_elem_of_fmap_2.
Qed.

Lemma runNodes_keys ns : forall result input (w : World S) result' w',
  runNodes sched c ctx ns result input w = Some ((Some result', None), w') ->
  (forall k, is_Some (outputs result !! k) -> is_Some (outputs result' !! k)) /\
  (forall k, is_Some (outputs result' !! k) ->
     is_Some (outputs result !! k) \/ k ∈ stepNames ns) /\
  (forall n s, n ∈ ns -> s ∈ steps n -> condition s = None ->
     is_Some (outputs result' !! name s)).
Proof.
  induction ns as [|n rest IH]; intros result input w result' w' Hrun;
    simpl in Hrun.
  - injection Hrun as <- <-. split; [done|]. split; [by left|].
    intros n s Hn. by apply elem_of_nil in Hn.
  - destruct (parallel n).
    + destruct (runParallel sched c ctx (steps n) input result w)
        as [[[outs err] w1]|] eqn:Hpar; [|done].
      destruct err as [err|]; [done|].
      destruct (IH _ _ _ _ _ Hrun) as (Hkeep & Hnew & Hall).
      assert (Hmerge : forall k,
                is_Some (outputs (mergeOutputs (default ∅ outs) result) !! k) <->
                is_Some (default ∅ outs !! k) \/ is_Some (outputs result !! k)).
      { intros k. unfold mergeOutputs. simpl. apply lookup_union_is_Some. }
      assert (Houts : exists o, outs = Some o).
      { unfold runParallel in Hpar.
        destruct (runLaunched c ctx _ input w) as [[ps w0]|]; [|done].
        injection Hpar as Hc _.
        destruct outs as [o|]; [eauto|].
        clear -Hc. exfalso. revert Hc. generalize (∅ : gmap string string).
        induction ps as [|p ps IHp]; intros o Hc; simpl in Hc; [done|].
        destruct (pair_err p); [done|]. by eapply IHp. }
      destruct Houts as [o ->]. simpl in *.
      destruct (runParallel_keys sched sched_perm c ctx _ _ _ _ _ _ Hpar)
        as [Hkeys Hlaunched].
      split; [|split].
      * intros k Hk. apply Hkeep, Hmerge. by right.
      * intros k Hk. destruct (Hnew k Hk) as [Hin|Hin].
        -- apply Hmerge in Hin as [Hin|Hin]; [|by left].
           right. destruct (Hkeys k Hin) as (s & Hs & _ & <-).
           apply (proj2 (elem_of_stepNames _ (n :: rest))). exists n, s.
           split; [apply elem_of_cons; by left|done].
        -- right. apply (proj1 (elem_of_stepNames _ rest)) in Hin
             as (n' & s & Hn' & Hs & <-).
           apply (proj2 (elem_of_stepNames _ (n :: rest))). exists n', s.
           split; [apply elem_of_cons; by right|done].
      * intros n0 s Hn0 Hs Hc. apply elem_of_cons in Hn0 as [->|Hn0];
          [|by eapply Hall].
        apply Hkeep, Hmerge. left. apply Hlaunched; [done|].
        unfold skipped. by rewrite Hc.
    + destruct (runSequential c ctx (steps n) result input w)
        as [[[ret0|[result1 input1]] w1]|] eqn:Hseq; [| |done].
      * injection Hrun as -> _. by apply runSequential_return in Hseq as [_ [? ?]].
      * destruct (runSequential_keys _ _ _ _ _ _ _ Hseq) as (Hkeep1 & Hnew1 & Hall1).
        destruct (IH _ _ _ _ _ Hrun) as (Hkeep & Hnew & Hall).
        split; [|split].
        -- intros k Hk. by apply Hkeep, Hkeep1.
        -- intros k Hk. destruct (Hnew k Hk) as [Hin|Hin].
           ++ destruct (Hnew1 k Hin) as [Hin1|Hin1]; [by left|right].
              apply list_elem_of_fmap in Hin1 as (s & -> & Hs).
              apply (proj2 (elem_of_stepNames _ (n :: rest))). exists n, s.
           split; [apply elem_of_cons; by left|done].
           ++ right. apply (proj1 (elem_of_stepNames _ rest)) in Hin
             as (n' & s & Hn' & Hs & <-).
              apply (proj2 (elem_of_stepNames _ (n :: rest))). exists n', s.
           split; [apply elem_of_cons; by right|done].
        -- intros n0 s Hn0 Hs Hc. apply elem_of_cons in Hn0 as [->|Hn0];
             [|by eapply Hall].
           apply Hkeep. by apply Hall1.
Qed.

(** X14.  The result of a chain that goes through holds entries under
    names of steps of the chain only, and one for every step that has no
    condition; [Get] answers the empty string for any other name. *)
Theorem Execute_result_keys input (w : World S) result w' :
  chain.Execute sched c ctx input w = Some ((Some result, None), w') ->
  (forall k, is_Some (outputs result !! k) -> k ∈ stepNames (nodes c)) /\
  (forall n s, n ∈ nodes c -> s ∈ steps n -> condition s = None ->
     is_Some (outputs result !! name s)) /\
  (forall k, k ∉ stepNames (nodes c) -> Get result k = "").
Proof.
  unfold chain.Execute. intros Hrun.
  destruct (runNodes_keys _ _ _ _ _ _ Hrun) as (_ & Hnew & Hall).
  assert (Hkeys : forall k, is_Some (outputs result !! k) -> k ∈ stepNames (nodes c)).
  { intros k Hk. destruct (Hnew k Hk) as [Hin|]; [|done].
    simpl in Hin. rewrite lookup_empty in Hin. by destruct Hin. }
  split; [done|]. split; [done|].
  intros k Hk. unfold Get. destruct (outputs result !! k) eqn:Hout; [|done].
  destruct Hk. apply Hkeys. rewrite Hout. eauto.
Qed.

(** The loop over the channel: it fails exactly on the first pair that
    carries an error. *)
Lemma collect_first_error ps : forall out err,
  collect ps out = (None, Some err) ->
  exists pre p post,
    ps = pre ++ p :: post /\
    Forall (fun q => pair_err q = None) pre /\
    pair_err p = Some err.
Proof.
  induction ps as [|p ps IH]; intros out err Hc; simpl in Hc; [done|].
  destruct (pair_err p) as [e|] eqn:Hp.
  - injection Hc as <-. exists [], p, ps. split; [done|]. split; [|done].
    by apply Forall_nil.
  - destruct (IH _ _ Hc) as (pre & q & post & -> & Hpre & Hq).
    exists (p :: pre), q, post. split; [done|]. split; [|done].
    by apply Forall_cons.
Qed.

Lemma collect_no_error ps : forall out outs,
  collect ps out = (Some outs, None) -> Forall (fun q => pair_err q = None) ps.
Proof.
  induction ps as [|p ps IH]; intros out outs Hc; simpl in Hc;
    [by apply Forall_nil|].
  destruct (pair_err p) eqn:Hp; [done|]. apply Forall_cons. split; [done|].
  by eapply IH.
Qed.

Lemma collect_shape ps : forall out,
  (exists outs, collect ps out = (Some outs, None)) \/
  (exists err, collect ps out = (None, Some err)).
Proof.
  induction ps as [|p ps IH]; intros out; simpl; [eauto|].
  destruct (pair_err p); [eauto|apply IH].
Qed.

(** X15.  In a parallel group every launched step runs to its end,
    failed siblings or not: the group has one outcome per step that was not
    skipped.  The group fails exactly when one of these outcomes carries
    an error, and the error returned is the one of the first such outcome
    in the order of completion, as the step returned it; otherwise the
    outputs hold the name of every launched step. *)
Theorem runParallel_first_error group input result (w : World S) outs err w' :
  runParallel sched c ctx group input result w = Some ((outs, err), w') ->
  exists ps,
    runLaunched c ctx
      (sched (filter (fun s => skipped ctx result s = false) group)) input w
      = Some (ps, w') /\
    pair_name <$> ps ≡ₚ
      name <$> filter (fun s => skipped ctx result s = false) group /\
    match err with
    | Some e =>
        outs = None /\
        exists pre p post,
          ps = pre ++ p :: post /\
          Forall (fun q => pair_err q = None) pre /\
          pair_err p = Some e
    | None =>
        Forall (fun q => pair_err q = None) ps /\
        exists o, outs = Some o /\
          forall s, s ∈ group -> skipped ctx result s = false ->
            is_Some (o !! name s)
    end.
Proof.
  intros Hrun. pose proof Hrun as Hrun0. unfold runParallel in Hrun.
  set (launched := filter (fun s0 => skipped ctx result s0 = false) group) in *.
  destruct (runLaunched c ctx (sched launched) input w) as [[ps w1]|] eqn:Hl;
    [|done].
  injection Hrun as Hc <-. exists ps. split; [done|]. split.
  { rewrite (runLaunched_names _ _ _ _ _ _ _ Hl). by rewrite (sched_perm launched). }
  destruct (collect_shape ps ∅) as [[o Ho]|[e He]]; rewrite Hc in *.
  - injection Ho as -> ->. split; [by eapply collect_no_error|].
    exists o. split; [done|].
    by apply (runParallel_keys sched sched_perm c ctx _ _ _ _ _ _ Hrun0).
  - injection He as -> ->. split; [done|]. by eapply collect_first_error.
Qed.

End ChainResultKeys.

End chain_props.

(** ** The decorators *)

Module middleware_props.

Import middleware.

Section Breaker.

Context {S : Type}.
Variable next : Provider S.

Lemma callComplete_event ctx req (w : World S) out w1 :
  callComplete next ctx req w = (out, w1) ->
  trace w1 = trace w ++ [EvComplete ctx req out].
Proof.
  unfold callComplete.
  destruct (next ctx req (now w) (pst w)) as [[out0 t] s].
  by intros [= <- <-].
Qed.

(** A call that is let in: the request is counted, the wrapped service is
    called once, and the outcome is handed back with the bookkeeping done. *)
Lemma breaker_entered (c c0 : circuitBreakerProvider) ctx req (w : World S) :
  enter c (now w) = Some c0 ->
  circuitBreakerProvider_Complete next c ctx req w =
  let '(out, w1) := callComplete next ctx req w in
  match out with
  | inr err => (inr err, onFailure (countRequest c0) (now w1), w1)
  | inl resp => (inl resp, onSuccess (countRequest c0), w1)
  end.
Proof. intros Ha. unfold circuitBreakerProvider_Complete. by rewrite Ha. Qed.


(** C4.  A closed breaker is open after a call exactly when the call
    failed, at least 10 requests have been counted, this one included, and
    the failures divided by the requests are at least the threshold;
    [openUntil] is then one timeout after the instant of the failure, and
    otherwise the breaker is still closed.  An open breaker whose
    [openUntil] is ahead answers the deadline error and touches neither the
    wrapped service nor its own state. *)
Theorem breaker_opens_on_rate_and_fails_fast (c : circuitBreakerProvider) ctx req
    (w : World S) :
  (forall out c' w',
     state c = cbClosed ->
     circuitBreakerProvider_Complete next c ctx req w = (out, c', w') ->
     requests c' = add1 (requests c) /\
     (state c' = cbOpen <->
        (exists err, out = inr err) /\
        10 <= requests c' /\
        rateAtLeast (failures c') (requests c') (threshold c) = true) /\
     (state c' = cbOpen -> openUntil c' = now w' + cb_timeout c) /\
     (state c' <> cbOpen -> state c' = cbClosed /\ openUntil c' = openUntil c)) /\
  (state c = cbOpen ->
   now w < openUntil c ->
   circuitBreakerProvider_Complete next c ctx req w = (inr DeadlineExceeded, c, w)).
Proof.
  split.
  - intros out c' w' Hst Hrun.
    assert (Ha : enter c (now w) = Some c) by (unfold enter; by rewrite Hst).
    rewrite (breaker_entered _ _ _ _ _ Ha) in Hrun.
    destruct (callComplete next ctx req w) as [out0 w1].
    destruct out0 as [resp|err]; injection Hrun as <- <- <-.
    + unfold onSuccess, countRequest. simpl. rewrite Hst. simpl.
      split; [done|]. split; [|done].
      split; [done|]. by intros [[err Herr] _].
    + unfold onFailure, countFailure, countRequest. simpl. rewrite Hst. simpl.
      destruct (Z.leb_spec 10 (add1 (requests c))) as [Hten|Hten]; simpl.
      * destruct (rateAtLeast (add1 (failures c)) (add1 (requests c)) (threshold c))
          eqn:Hrate; simpl.
        -- split; [done|]. split; [|done]. split; [|done]. intros _. eauto.
        -- split; [done|]. split; [|done].
           split; [done|]. intros (_ & _ & Hr). congruence.
      * split; [done|]. split; [|done].
        split; [done|]. intros (_ & ? & _). lia.
  - intros Hst Hlt. unfold circuitBreakerProvider_Complete, enter, Before.
    rewrite Hst. simpl. by destruct (Z.ltb_spec (now w) (openUntil c)); [|lia].
Qed.

End Breaker.

Section Cache.

Context {S : Type}.
Variable next : Provider S.
Variable encodeResponse : CompletionResponse -> list byte + error.
Variable decodeResponse : list byte -> CompletionResponse + error.

(** Requests with the same model, system text and user text have the same
    key. *)
Lemma cacheKey_same req req2 :
  req_Model req2 = req_Model req ->
  req_System req2 = req_System req ->
  req_Prompt req2 = req_Prompt req ->
  cacheKey req2 = cacheKey req.
Proof. unfold cacheKey. by intros -> -> ->. Qed.

(** [Get] hands back the value of an entry only up to its expiry. *)
Lemma InMemoryCache_Get_Some store key t v :
  InMemoryCache_Get store key t = Some v ->
  exists entry, store !! key = Some entry /\ val entry = v /\ t <= expires entry.
Proof.
  unfold InMemoryCache_Get, After. destruct (store !! key) as [entry|]; [|done].
  destruct (Z.ltb_spec (expires entry) t); [done|].
  intros [= <-]. by exists entry.
Qed.

Lemma InMemoryCache_Get_expired store key t entry :
  store !! key = Some entry ->
  expires entry < t ->
  InMemoryCache_Get store key t = None.
Proof.
  intros Hs Ht. unfold InMemoryCache_Get, After. rewrite Hs.
  by destruct (Z.ltb_spec (expires entry) t); [|lia].
Qed.

Lemma InMemoryCache_Get_Set store key raw d t t2 :
  t2 <= t + d ->
  InMemoryCache_Get (InMemoryCache_Set store key raw d t) key t2 = Some raw.
Proof.
  intros Ht. unfold InMemoryCache_Get, InMemoryCache_Set, After, Add.
  rewrite lookup_insert_eq. simpl.
  by destruct (Z.ltb_spec (t + d) t2); [lia|].
Qed.

(** C5.  A first call that finds no live entry calls the wrapped service
    once; when the service answers and the answer is stored, a second call
    with the same model, system text and user text made no later than the
    entry's expiry returns the stored response and leaves the world as it
    is, so the service has been called once in all.  [Get] never hands back
    an entry after its expiry, and the lookup of the provider then finds
    nothing.  A time to live that is not positive is replaced by one hour,
    which is the life of every entry the provider stores. *)
Theorem cache_hit_within_ttl (c : cacheProvider) store ctx req (w : World S)
    resp w1 raw resp' :
  cache c = Some store ->
  cacheLookup decodeResponse c (cacheKey req) (now w) = None ->
  callComplete next ctx req w = (inl resp, w1) ->
  encodeResponse resp = inl raw ->
  decodeResponse raw = inl resp' ->
  (exists c1,
     cacheProvider_Complete next encodeResponse decodeResponse c ctx req w
       = (inl resp, c1, w1) /\
     trace w1 = trace w ++ [EvComplete ctx req (inl resp)] /\
     cache c1 = Some (<[cacheKey req := mkCacheEntry raw (now w1 + ttl c)]> store) /\
     forall ctx2 req2 (w2 : World S),
       req_Model req2 = req_Model req ->
       req_System req2 = req_System req ->
       req_Prompt req2 = req_Prompt req ->
       now w2 <= now w1 + ttl c ->
       cacheProvider_Complete next encodeResponse decodeResponse c1 ctx2 req2 w2
         = (inl resp', c1, w2)) /\
  (forall (st : gmap string cacheEntry) key entry t,
     st !! key = Some entry ->
     expires entry < t ->
     InMemoryCache_Get st key t = None /\
     forall d, cacheLookup decodeResponse (mkCacheProvider (Some st) d) key t = None) /\
  (forall d, d <= 0 ->
     ttl (CacheMiddleware (Some store) d) = Hour /\
     cache (cacheStore encodeResponse (CacheMiddleware (Some store) d)
              (cacheKey req) resp (now w1))
       = Some (<[cacheKey req := mkCacheEntry raw (now w1 + 3600 * 1000000000)]> store)).
Proof.
  intros Hc Hmiss Hcall Henc Hdec. split; [|split].
  - exists (cacheStore encodeResponse c (cacheKey req) resp (now w1)).
    assert (Hst : cacheStore encodeResponse c (cacheKey req) resp (now w1) =
                  mkCacheProvider
                    (Some (<[cacheKey req := mkCacheEntry raw (now w1 + ttl c)]> store))
                    (ttl c)).
    { unfold cacheStore. by rewrite Hc, Henc. }
    split; [|split; [|split]].
    + unfold cacheProvider_Complete. by rewrite Hmiss, Hcall.
    + by eapply callComplete_event.
    + by rewrite Hst.
    + intros ctx2 req2 w2 Hm Hs Hp Ht.
      unfold cacheProvider_Complete.
      rewrite (cacheKey_same req req2 Hm Hs Hp), Hst.
      unfold cacheLookup. simpl.
      change (<[cacheKey req := mkCacheEntry raw (now w1 + ttl c)]> store)
        with (InMemoryCache_Set store (cacheKey req) raw (ttl c) (now w1)).
      rewrite InMemoryCache_Get_Set by done.
      by rewrite Hdec.
  - intros st key entry t Hs Ht.
    pose proof (InMemoryCache_Get_expired st key t entry Hs Ht) as Hget.
    split; [done|]. intros d. unfold cacheLookup. simpl. by rewrite Hget.
  - intros d Hd. unfold CacheMiddleware, cacheStore.
    destruct (Z.leb_spec d 0); [|lia]. simpl. by rewrite Henc.
Qed.

End Cache.

(** *** More of the decorators *)

Section CompositionProps.

Context {S : Type}.

Lemma chainLoop_take (mws : list (Middleware (S:=S))) n : forall p,
  (n <= length mws)%nat ->
  chainLoop mws n p = foldr (fun mw q => mw q) p (take n mws).
Proof.
  unfold Middleware in *.
  induction n as [|i IH]; intros p Hn; simpl; [done|].
  match goal with
  | |- context [match ?x with _ => _ end] => destruct x as [mw|] eqn:Hmw
  end.
  - rewrite IH by lia.
    rewrite (take_S_r mws i mw Hmw), foldr_app. reflexivity.
  - apply lookup_ge_None in Hmw. lia.
Qed.

(** X16.  [Chain] applies the middlewares from the last to the first, so
    that the first one listed is the outermost: the provider it returns is
    the first middleware applied to the chain of the others. *)
Theorem Chain_first_is_outermost (p : Provider S) (mws : list (Middleware (S:=S))) :
  Chain p mws = foldr (fun mw q => mw q) p mws /\
  Chain p [] = p /\
  forall mw, Chain p (mw :: mws) = mw (Chain p mws).
Proof.
  assert (Hfold : forall l, Chain p l = foldr (fun mw q => mw q) p l).
  { intros l. unfold Chain. rewrite chainLoop_take by lia. by rewrite firstn_all. }
  split; [apply Hfold|]. split; [done|].
  intros mw. by rewrite !Hfold.
Qed.

Variable next : Provider S.

Lemma add1_uint64 n : isUint64 (add1 n).
Proof. unfold isUint64, add1. apply Z.mod_pos_bound. lia. Qed.

Lemma addInt_uint64 n k : isUint64 (addInt n k).
Proof. unfold isUint64, addInt. apply Z.mod_pos_bound. lia. Qed.

Lemma add1_plus n k : (add1 n + k) mod 2 ^ 64 = (n + (1 + k)) mod 2 ^ 64.
Proof. unfold add1. rewrite Zplus_mod_idemp_l. f_equal. lia. Qed.

Lemma addInt_plus n t k :
  (addInt n t + k) mod 2 ^ 64 = (n + (t + k)) mod 2 ^ 64.
Proof.
  unfold addInt. rewrite Zplus_mod_idemp_l.
  replace (n + t mod 2 ^ 64 + k) with (t mod 2 ^ 64 + (n + k)) by lia.
  rewrite Zplus_mod_idemp_l. f_equal. lia.
Qed.

Lemma metricsCalls_counts calls : forall m (w : World S),
  isUint64 (m_requests m) -> isUint64 (m_errors m) ->
  isUint64 (m_promptTok m) -> isUint64 (m_completeTok m) ->
  (metricsCalls next m calls w).1.1 = (directCalls next calls w).1 /\
  (metricsCalls next m calls w).2 = (directCalls next calls w).2 /\
  m_requests (metricsCalls next m calls w).1.2
    = (m_requests m + Z.of_nat (length calls)) mod 2 ^ 64 /\
  m_errors (metricsCalls next m calls w).1.2
    = (m_errors m
       + Z.of_nat (length (failuresOf (directCalls next calls w).1))) mod 2 ^ 64 /\
  m_promptTok (metricsCalls next m calls w).1.2
    = (m_promptTok m + promptTokensOf (directCalls next calls w).1) mod 2 ^ 64 /\
  m_completeTok (metricsCalls next m calls w).1.2
    = (m_completeTok m + completionTokensOf (directCalls next calls w).1) mod 2 ^ 64.
Proof.
  induction calls as [|[ctx req] rest IH]; intros m w Hr He Hp Hc; simpl.
  - unfold isUint64 in *. rewrite !Z.add_0_r, !Z.mod_small by lia. done.
  - unfold metricsProvider_Complete.
    destruct (callComplete next ctx req w) as [out w1].
    destruct out as [resp|err].
    + set (m1 := mkMetrics _ _ _ _).
      destruct (IH m1 w1) as (Ho & Hw & Hrq & Her & Hpt & Hct);
        [apply add1_uint64|done|apply addInt_uint64|apply addInt_uint64|].
      destruct (metricsCalls next m1 rest w1) as [[outs m2] w2].
      destruct (directCalls next rest w1) as [outs' w2']. simpl in *.
      subst outs' w2'. repeat split.
      * rewrite Hrq. by rewrite add1_plus, Nat2Z.inj_succ, Z.add_1_l.
      * done.
      * rewrite Hpt. apply addInt_plus.
      * rewrite Hct. apply addInt_plus.
    + set (m1 := mkMetrics _ _ _ _).
      destruct (IH m1 w1) as (Ho & Hw & Hrq & Her & Hpt & Hct);
        [apply add1_uint64|apply add1_uint64|done|done|].
      destruct (metricsCalls next m1 rest w1) as [[outs m2] w2].
      destruct (directCalls next rest w1) as [outs' w2']. simpl in *.
      subst outs' w2'. repeat split.
      * rewrite Hrq. by rewrite add1_plus, Nat2Z.inj_succ, Z.add_1_l.
      * rewrite Her. by rewrite add1_plus, Nat2Z.inj_succ, Z.add_1_l.
      * done.
      * done.
Qed.

Lemma failuresOf_length outs : (length (failuresOf outs) <= length outs)%nat.
Proof.
  induction outs as [|[resp|err] outs IH]; simpl; [lia| |]; unfold failuresOf in *;
    simpl; lia.
Qed.

Lemma directCalls_length calls : forall (w : World S),
  length (directCalls next calls w).1 = length calls.
Proof.
  induction calls as [|[ctx req] rest IH]; intros w; simpl; [done|].
  destruct (callComplete next ctx req w) as [out w1].
  specialize (IH w1). destruct (directCalls next rest w1) as [outs w2].
  simpl in *. by rewrite IH.
Qed.

(** X17.  The metrics change nothing and count everything: a run of calls
    through fresh metrics has the outcomes and the effects of the same calls
    made to the wrapped service, and leaves in the counters, modulo 2^64,
    the number of calls, the number of those that failed, and the prompt
    and completion tokens of the responses; with fewer than 2^64 calls the
    errors counted do not exceed the requests counted. *)
Theorem metrics_count_calls (calls : list (Ctx * CompletionRequest)) (w : World S) :
  (metricsCalls next Metrics calls w).1.1 = (directCalls next calls w).1 /\
  (metricsCalls next Metrics calls w).2 = (directCalls next calls w).2 /\
  m_requests (metricsCalls next Metrics calls w).1.2
    = Z.of_nat (length calls) mod 2 ^ 64 /\
  m_errors (metricsCalls next Metrics calls w).1.2
    = Z.of_nat (length (failuresOf (directCalls next calls w).1)) mod 2 ^ 64 /\
  m_promptTok (metricsCalls next Metrics calls w).1.2
    = promptTokensOf (directCalls next calls w).1 mod 2 ^ 64 /\
  m_completeTok (metricsCalls next Metrics calls w).1.2
    = completionTokensOf (directCalls next calls w).1 mod 2 ^ 64 /\
  (Z.of_nat (length calls) < 2 ^ 64 ->
     m_errors (metricsCalls next Metrics calls w).1.2
       <= m_requests (metricsCalls next Metrics calls w).1.2).
Proof.
  destruct (metricsCalls_counts calls Metrics w) as (Ho & Hw & Hr & He & Hp & Hc);
    try (unfold isUint64; simpl; lia).
  simpl in Hr, He, Hp, Hc.
  repeat (split; [done|]).
  intros Hlt. rewrite Hr, He.
  pose proof (failuresOf_length (directCalls next calls w).1) as Hf.
  rewrite directCalls_length in Hf.
  rewrite !Z.mod_small by lia. lia.
Qed.

End CompositionProps.

Section CacheMore.

Context {S : Type}.
Variable next : Provider S.
Variable encodeResponse : CompletionResponse -> list byte + error.
Variable decodeResponse : list byte -> CompletionResponse + error.

(** X18.  Only what the service answered and could be encoded is stored.
    A provider without a cache hands every call to the wrapped service; a
    call that fails after a miss leaves the cache as it was, so that the
    failure is not served again; and a response that cannot be encoded is
    returned all the same, without being stored. *)
Theorem cache_stores_successes_only (c : cacheProvider) ctx req (w : World S) :
  cacheLookup decodeResponse c (cacheKey req) (now w) = None ->
  (forall err w1,
     callComplete next ctx req w = (inr err, w1) ->
     cacheProvider_Complete next encodeResponse decodeResponse c ctx req w
       = (inr err, c, w1)) /\
  (forall resp w1 err,
     callComplete next ctx req w = (inl resp, w1) ->
     encodeResponse resp = inr err ->
     cacheProvider_Complete next encodeResponse decodeResponse c ctx req w
       = (inl resp, c, w1)) /\
  (cache c = None ->
     cacheProvider_Complete next encodeResponse decodeResponse c ctx req w
       = ((callComplete next ctx req w).1, c, (callComplete next ctx req w).2)).
Proof.
  intros Hmiss. unfold cacheProvider_Complete. rewrite Hmiss.
  split; [|split].
  - intros err w1 Hcall. by rewrite Hcall.
  - intros resp w1 err Hcall Henc. rewrite Hcall. unfold cacheStore.
    destruct (cache c); [|done]. by rewrite Henc.
  - intros Hnone. destruct (callComplete next ctx req w) as [[resp|err] w1];
      [|done].
    simpl. unfold cacheStore. by rewrite Hnone.
Qed.

(** X19.  Once an entry has expired, a call with its key goes to the
    wrapped service again, and the answer replaces the entry, with a fresh
    expiry one time to live after the instant of the answer. *)
Theorem cache_refreshes_expired_entry (c : cacheProvider) store entry ctx req
    (w : World S) resp w1 raw :
  cache c = Some store ->
  store !! cacheKey req = Some entry ->
  expires entry < now w ->
  callComplete next ctx req w = (inl resp, w1) ->
  encodeResponse resp = inl raw ->
  cacheProvider_Complete next encodeResponse decodeResponse c ctx req w
    = (inl resp,
       mkCacheProvider
         (Some (<[cacheKey req := mkCacheEntry raw (now w1 + ttl c)]> store)) (ttl c),
       w1) /\
  trace w1 = trace w ++ [EvComplete ctx req (inl resp)].
Proof.
  intros Hc Hs Hexp Hcall Henc. split; [|by eapply callComplete_event].
  unfold cacheProvider_Complete, cacheLookup. rewrite Hc.
  rewrite (InMemoryCache_Get_expired store _ _ entry Hs Hexp), Hcall.
  unfold cacheStore. by rewrite Hc, Henc.
Qed.

End CacheMore.

(** A text without the separator is cut off a key by the first separator. *)
Lemma append_nul_inj a : forall a' b b',
  noNul a = true -> noNul a' = true ->
  (a ++ String Ascii.zero b)%string = (a' ++ String Ascii.zero b')%string ->
  a = a' /\ b = b'.
Proof.
  induction a as [|x a IH]; intros a' b b' Ha Ha' Heq; destruct a' as [|x' a'];
    simpl in *.
  - by injection Heq as ->.
  - injection Heq as <- _. by rewrite Ascii.eqb_refl in Ha'.
  - injection Heq as -> _. by rewrite Ascii.eqb_refl in Ha.
  - injection Heq as -> Heq.
    apply andb_prop in Ha as [_ Ha]. apply andb_prop in Ha' as [_ Ha'].
    destruct (IH _ _ _ Ha Ha' Heq) as [-> ->]. done.
Qed.

(** X20.  The key of the cache tells requests apart as long as their
    model and system text hold no zero byte: two such requests with the same
    key have the same model, system text and user text. *)
Theorem cacheKey_injective req req2 :
  noNul (req_Model req) = true -> noNul (req_System req) = true ->
  noNul (req_Model req2) = true -> noNul (req_System req2) = true ->
  cacheKey req = cacheKey req2 ->
  req_Model req = req_Model req2 /\
  req_System req = req_System req2 /\
  req_Prompt req = req_Prompt req2.
Proof.
  intros Hm Hs Hm2 Hs2 Hkey. unfold cacheKey in Hkey. simpl in Hkey.
  apply append_nul_inj in Hkey as [Hmodel Hrest]; [|done|done].
  apply append_nul_inj in Hrest as [Hsys Hprompt]; done.
Qed.

(** X21.  [Set] and [Get] of the in-memory cache: a value set is got back
    under its key up to the instant of the set plus the time to live and
    not after, so that a negative time to live stores what cannot be got;
    the other keys answer as before; and a second [Set] under a key
    replaces the first entirely. *)
Theorem InMemoryCache_set_then_get (store : gmap string cacheEntry) key v d t :
  (forall t2,
     InMemoryCache_Get (InMemoryCache_Set store key v d t) key t2
       = if t2 <=? t + d then Some v else None) /\
  (d < 0 -> InMemoryCache_Get (InMemoryCache_Set store key v d t) key t = None) /\
  (forall key2 t2, key2 <> key ->
     InMemoryCache_Get (InMemoryCache_Set store key v d t) key2 t2
       = InMemoryCache_Get store key2 t2) /\
  (forall v2 d2 t2,
     InMemoryCache_Set (InMemoryCache_Set store key v d t) key v2 d2 t2
       = InMemoryCache_Set store key v2 d2 t2).
Proof.
  assert (Hget : forall t2,
    InMemoryCache_Get (InMemoryCache_Set store key v d t) key t2
      = if t2 <=? t + d then Some v else None).
  { intros t2. unfold InMemoryCache_Get, InMemoryCache_Set, After, Add.
    rewrite lookup_insert_eq. simpl.
    destruct (Z.ltb_spec (t + d) t2), (Z.leb_spec t2 (t + d)); (done || lia). }
  split; [exact Hget|]. split; [|split].
  - intros Hd. rewrite Hget. by destruct (Z.leb_spec t (t + d)); [lia|].
  - intros key2 t2 Hne. unfold InMemoryCache_Get, InMemoryCache_Set.
    by rewrite lookup_insert_ne.
  - intros v2 d2 t2. unfold InMemoryCache_Set. by rewrite insert_insert_eq.
Qed.

Section BreakerMore.

Context {S : Type}.
Variable next : Provider S.

(** X22.  What every call does to a breaker.  It never leaves it
    half-open, and never touches the threshold or the timeout.  A call that
    finds it open before [openUntil] is refused with the breaker and the
    world untouched, not even counted; any other call reaches the wrapped
    service exactly once and is counted, and its failure is counted.  As
    long as the request counter does not wrap, the failures counted do not
    exceed the requests counted. *)
Theorem breaker_call (c : circuitBreakerProvider) ctx req (w : World S) out c' w' :
  circuitBreakerProvider_Complete next c ctx req w = (out, c', w') ->
  state c' <> cbHalfOpen /\
  threshold c' = threshold c /\ cb_timeout c' = cb_timeout c /\
  (state c = cbOpen /\ now w < openUntil c ->
     out = inr DeadlineExceeded /\ c' = c /\ w' = w) /\
  (~ (state c = cbOpen /\ now w < openUntil c) ->
     trace w' = trace w ++ [EvComplete ctx req out] /\
     requests c' = add1 (requests c) /\
     failures c' = match out with
                   | inr _ => add1 (failures c)
                   | inl _ => failures c
                   end) /\
  (0 <= failures c <= requests c -> requests c < 2 ^ 64 - 1 ->
     0 <= failures c' <= requests c').
Proof.
  intros Hrun. unfold circuitBreakerProvider_Complete in Hrun.
  destruct (enter c (now w)) as [c0|] eqn:Hen.
  - assert (Hc0 : threshold c0 = threshold c /\ cb_timeout c0 = cb_timeout c /\
                  requests c0 = requests c /\ failures c0 = failures c /\
                  (isOpen (state c0) = false) /\
                  ~ (state c = cbOpen /\ now w < openUntil c)).
    { unfold enter, Before in Hen. destruct (state c) eqn:Hst; simpl in Hen.
      - injection Hen as <-. rewrite Hst. repeat split; try done. by intros [? _].
      - destruct (Z.ltb_spec (now w) (openUntil c)); [done|].
        injection Hen as <-. simpl. repeat split; try done. intros [_ ?]. lia.
      - injection Hen as <-. rewrite Hst. repeat split; try done. by intros [? _]. }
    destruct Hc0 as (Hth & Hto & Hrq & Hfl & Hno & Hnot).
    pose proof (callComplete_event next ctx req w) as Hev.
    destruct (callComplete next ctx req w) as [out0 w1].
    specialize (Hev _ _ eq_refl).
    assert (Hadd : forall n, 0 <= n < 2 ^ 64 - 1 -> add1 n = n + 1).
    { intros n Hn. unfold add1. rewrite Z.mod_small; lia. }
    destruct out0 as [resp|err]; injection Hrun as <- <- <-.
    + unfold onSuccess, countRequest. simpl.
      destruct (state c0) eqn:Hst0; simpl in *; try done;
        (split; [done|]); (split; [done|]); (split; [done|]);
        (split; [by intros ?|]); (split; [by rewrite Hrq, Hfl|]);
        intros Hle Hlt; rewrite Hrq, Hfl, Hadd by lia; lia.
    + unfold onFailure, countFailure, countRequest. simpl.
      assert (Hfin : forall st,
        st <> cbHalfOpen ->
        st <> cbHalfOpen /\
        threshold c0 = threshold c /\ cb_timeout c0 = cb_timeout c /\
        (state c = cbOpen /\ now w < openUntil c ->
           @inr CompletionResponse error err = inr DeadlineExceeded /\ False) /\
        (~ (state c = cbOpen /\ now w < openUntil c) ->
           trace w1 = trace w ++ [EvComplete ctx req (inr err)] /\
           add1 (requests c0) = add1 (requests c) /\
           add1 (failures c0) = add1 (failures c)) /\
        (0 <= failures c <= requests c -> requests c < 2 ^ 64 - 1 ->
           0 <= add1 (failures c0) <= add1 (requests c0))).
      { intros st Hst. split; [done|]. split; [done|]. split; [done|].
        split; [by intros ?|]. split; [by rewrite Hrq, Hfl|].
        intros Hle Hlt. rewrite Hrq, Hfl, !Hadd by lia. lia. }
      destruct (state c0) eqn:Hst0; simpl in *; try done.
      * destruct (10 <=? add1 (requests c0)); simpl;
          [destruct (rateAtLeast _ _ _); simpl|];
          try rewrite Hst0;
          destruct (Hfin cbClosed ltac:(done)) as (_ & H2 & H3 & H4 & H5 & H6);
          repeat split; try done; try (by intros ?); try (by apply H5);
          try (by apply H6); try (intros; by apply H6).
      * destruct (Hfin cbOpen ltac:(done)) as (_ & H2 & H3 & H4 & H5 & H6).
        repeat split; try done; try (by intros ?); try (by apply H5);
          try (intros; by apply H6).
  - injection Hrun as <- <- <-.
    unfold enter, Before in Hen. destruct (state c) eqn:Hst; simpl in Hen;
      try done.
    destruct (Z.ltb_spec (now w) (openUntil c)); [|done].
    split; [done|]. split; [done|]. split; [done|]. split; [done|].
    split; [|done]. intros Hnot. destruct Hnot. done.
Qed.

Lemma breaker_closed_step (c : circuitBreakerProvider) ctx req (w : World S) :
  state c = cbClosed ->
  0 <= requests c < 9 ->
  exists c1,
    circuitBreakerProvider_Complete next c ctx req w
      = ((callComplete next ctx req w).1, c1, (callComplete next ctx req w).2) /\
    state c1 = cbClosed /\ requests c1 = requests c + 1.
Proof.
  intros Hst Hr.
  assert (Hadd : add1 (requests c) = requests c + 1).
  { unfold add1. rewrite Z.mod_small; lia. }
  unfold circuitBreakerProvider_Complete, enter. rewrite Hst. simpl.
  destruct (callComplete next ctx req w) as [[resp|err] w1]; simpl.
  - eexists. split; [done|]. unfold onSuccess, countRequest. simpl.
    rewrite Hst. simpl. by rewrite ?Hst.
  - eexists. split; [done|]. unfold onFailure, countFailure, countRequest.
    simpl. rewrite Hst. simpl. rewrite Hadd.
    destruct (Z.leb_spec 10 (requests c + 1)); [lia|].
    simpl. by rewrite ?Hst.
Qed.

Lemma breakerRun_closed calls : forall (c : circuitBreakerProvider) (w : World S),
  state c = cbClosed ->
  0 <= requests c ->
  requests c + Z.of_nat (length calls) < 10 ->
  (breakerRun next c calls w).1.1 = (directCalls next calls w).1 /\
  (breakerRun next c calls w).2 = (directCalls next calls w).2 /\
  state (breakerRun next c calls w).1.2 = cbClosed /\
  requests (breakerRun next c calls w).1.2 = requests c + Z.of_nat (length calls).
Proof.
  induction calls as [|[ctx req] rest IH]; intros c w Hst Hr Hlen.
  - simpl. repeat split; try done. lia.
  - simpl length in Hlen.
    destruct (breaker_closed_step c ctx req w Hst) as (c1 & Heq & Hst1 & Hr1);
      [lia|].
    cbn [breakerRun directCalls]. rewrite Heq.
    destruct (callComplete next ctx req w) as [out w1]. cbn [fst snd].
    destruct (IH c1 w1 Hst1) as (Ho & Hw & Hs & Hq); [lia|lia|].
    destruct (breakerRun next c1 rest w1) as [[outs c2] w2].
    destruct (directCalls next rest w1) as [outs' w2']. simpl in *.
    subst. repeat split; try done. lia.
Qed.

(** X23.  A new breaker lets its first nine calls through whatever
    their outcomes: they have the outcomes and the effects of the same calls
    made to the wrapped service, and leave the breaker closed with that many
    requests counted.  It takes a tenth request for it to open. *)
Theorem breaker_first_nine_calls th timeout
    (calls : list (Ctx * CompletionRequest)) (w : World S) :
  (length calls <= 9)%nat ->
  (breakerRun next (CircuitBreaker th timeout) calls w).1.1
    = (directCalls next calls w).1 /\
  (breakerRun next (CircuitBreaker th timeout) calls w).2
    = (directCalls next calls w).2 /\
  state (breakerRun next (CircuitBreaker th timeout) calls w).1.2 = cbClosed /\
  requests (breakerRun next (CircuitBreaker th timeout) calls w).1.2
    = Z.of_nat (length calls).
Proof.
  intros Hlen.
  destruct (breakerRun_closed calls (CircuitBreaker th timeout) w)
    as (Ho & Hw & Hs & Hr); simpl; try done; lia.
Qed.

End BreakerMore.

End middleware_props.

(** ** Properties of the evaluation suite *)

Module evaluator_props.

Import executor evaluator.

Lemma prefix_app p : forall s,
  String.prefix p s = true <-> exists b, s = (p ++ b)%string.
Proof.
  induction p as [|x p IH]; intros s.
  - split; [intros _; by exists s|by destruct s].
  - destruct s as [|y s]; simpl.
    + split; [done|]. by intros [b Hb].
    + destruct (Ascii.ascii_dec x y) as [->|Hne].
      * rewrite IH. split.
        -- intros [b ->]. by exists b.
        -- intros [b Hb]. injection Hb as ->. by exists b.
      * split; [done|]. intros [b Hb]. by injection Hb as <- _.
Qed.

(** [Contains] finds the substring wherever it stands. *)
Lemma Contains_occursIn sub : forall s,
  Contains s sub = true <-> occursIn sub s.
Proof.
  induction s as [|x s IH]; cbn [Contains].
  - destruct (String.prefix sub "") eqn:Hp.
    + split; [intros _|done]. apply prefix_app in Hp as [b Hb].
      exists ""%string, b. done.
    + split; [done|]. intros (a & b & Hab). destruct a; [|done].
      simpl in Hab. assert (String.prefix sub "" = true); [|congruence].
      apply prefix_app. by exists b.
  - destruct (String.prefix sub (String x s)) eqn:Hp.
    + split; [intros _|done]. apply prefix_app in Hp as [b Hb].
      exists ""%string, b. done.
    + rewrite IH. split.
      * intros (a & b & ->). by exists (String x a), b.
      * intros (a & b & Hab). destruct a as [|y a].
        -- simpl in Hab. assert (String.prefix sub (String x s) = true);
             [|congruence].
           apply prefix_app. by exists b.
        -- injection Hab as -> ->. by exists a, b.
Qed.

Lemma containsLoop_spec actual : forall check,
  (sc_Pass (containsLoop check actual) = true /\
   Forall (fun sub => occursIn sub actual) check) \/
  (sc_Pass (containsLoop check actual) = false /\
   exists pre sub post,
     check = pre ++ sub :: post /\
     Forall (fun x => occursIn x actual) pre /\
     ~ occursIn sub actual /\
     sc_Reason (containsLoop check actual) = ("missing: " ++ sub)%string).
Proof.
  induction check as [|sub rest IH]; simpl.
  - left. split; [done|constructor].
  - destruct (Contains actual sub) eqn:Hc; simpl.
    + apply Contains_occursIn in Hc.
      destruct IH as [[Hp Hall]|(Hp & pre & x & post & -> & Hpre & Hx & Hr)].
      * left. split; [done|by constructor].
      * right. split; [done|]. exists (sub :: pre), x, post.
        repeat split; try done. by constructor.
    + right. split; [done|]. exists [], sub, rest. repeat split; try done.
      intros Hocc. apply Contains_occursIn in Hocc. congruence.
Qed.

(** X24.  [ContainsAll] passes exactly when every substring to check
    occurs in the text, where the substrings are its own or, when it has
    none, the [Contains] of the expectation; with nothing to check it
    passes.  When it fails its reason names the first substring of the list
    that is missing.  The [Output] and the [NotContains] of the expectation
    are not looked at. *)
Theorem ContainsAll_passes_iff subs actual expected :
  (sc_Pass (ContainsAll_Evaluate subs actual expected) = true <->
   Forall (fun sub => occursIn sub actual)
     (match subs with [] => exp_Contains expected | _ :: _ => subs end)) /\
  (sc_Pass (ContainsAll_Evaluate subs actual expected) = false ->
   exists pre sub post,
     match subs with [] => exp_Contains expected | _ :: _ => subs end
       = pre ++ sub :: post /\
     Forall (fun x => occursIn x actual) pre /\
     ~ occursIn sub actual /\
     sc_Reason (ContainsAll_Evaluate subs actual expected)
       = ("missing: " ++ sub)%string) /\
  (forall output notContains,
     ContainsAll_Evaluate subs actual
       (mkExpected output (exp_Contains expected) notContains)
     = ContainsAll_Evaluate subs actual expected).
Proof.
  assert (Hcheck : ContainsAll_Evaluate subs actual expected
            = containsLoop
                (match subs with [] => exp_Contains expected | _ :: _ => subs end)
                actual).
  { unfold ContainsAll_Evaluate. by destruct subs. }
  rewrite Hcheck.
  pose proof (containsLoop_spec actual
    (match subs with [] => exp_Contains expected | _ :: _ => subs end)) as Hspec.
  split; [|split].
  - destruct Hspec as [[Hp Hall]|(Hp & pre & sub & post & Heq & _ & Hsub & _)].
    + done.
    + rewrite Hp. split; [done|]. intros Hall. rewrite Heq in Hall.
      apply Forall_app in Hall as [_ Hall]. by inversion Hall.
  - intros Hfalse. destruct Hspec as [[Hp _]|[_ Hex]]; [congruence|done].
  - intros output notContains. unfold ContainsAll_Evaluate. by destruct subs.
Qed.

Section SuiteProps.

Context {S : Type}.
Variable s : Suite S.
Variable ctx : Ctx.

(** An evaluator that computes its score from the texts adds no event. *)
Lemma pureEvaluator_evaluatesWith (P : Event -> Prop) f :
  evaluatesWith (S := S) P (pureEvaluator f).
Proof. intros c actual expected w. exists []. by rewrite app_nil_r. Qed.

(** The judge adds one event, its call. *)
Lemma LLMJudge_evaluatesWith TrimSpace parseJudgeResponse errorText
    (j : LLMJudge (S := S)) :
  evaluatesWith (judgeEvent j)
    (LLMJudge_Evaluate TrimSpace parseJudgeResponse errorText j).
Proof.
  intros c actual expected w. unfold LLMJudge_Evaluate, callComplete.
  destruct (j_Provider j c _ (now w) (pst w)) as [[out t] st].
  exists [EvComplete c (judgeRequest j actual expected) out].
  split.
  - destruct out as [resp|err]; [|done].
    by destruct (parseJudgeResponse _) as [[score pass] reason].
  - by repeat constructor.
Qed.

(** The loop over the evaluators stops at the first error; otherwise it
    has one score for each evaluator. *)
Lemma evalLoop_spec actual expected : forall evs out allPass (w : World S) res w',
  evalLoop evs ctx actual expected out allPass w = (res, w') ->
  CaseName res = CaseName out /\ Actual res = Actual out /\
  cr_Expected res = cr_Expected out /\
  exists new,
    Scores res = Scores out ++ new /\
    ((Error res = Error out /\ length new = length evs /\
      cr_Pass res = allPass && forallb sc_Pass new) \/
     (exists err, Error res = Some err /\ cr_Pass res = false /\
                  (length new < length evs)%nat)).
Proof.
  induction evs as [|ev rest IH]; intros out allPass w res w' Hrun; simpl in Hrun.
  - injection Hrun as <- <-. simpl. repeat split; try done.
    exists []. rewrite app_nil_r. split; [done|]. left. simpl.
    by rewrite andb_true_r.
  - destruct (ev ctx actual expected w) as [[score|err] w1] eqn:Hev.
    + apply IH in Hrun as (Hn & Ha & He & new & Hs & Hcase). simpl in *.
      repeat split; try done.
      exists (score :: new). split; [by rewrite Hs, <- app_assoc|].
      destruct Hcase as [(Herr & Hlen & Hp)|(err & Herr & Hp & Hlen)].
      * left. split; [done|]. split; [simpl; by rewrite Hlen|].
        rewrite Hp. simpl. destruct (sc_Pass score), allPass; done.
      * right. exists err. repeat split; try done. simpl. lia.
    + injection Hrun as <- <-. simpl.
      repeat split; try done. exists []. rewrite app_nil_r. split; [done|].
      right. exists err. repeat split; try done. simpl. lia.
Qed.

(** The events of the loop over the evaluators are the evaluators' own. *)
Lemma evalLoop_events (P : Event -> Prop) actual expected :
  forall evs out allPass (w : World S) res w',
  Forall (evaluatesWith P) evs ->
  evalLoop evs ctx actual expected out allPass w = (res, w') ->
  exists new, trace w' = trace w ++ new /\ Forall P new.
Proof.
  induction evs as [|ev rest IH]; intros out allPass w res w' Hall Hrun;
    simpl in Hrun.
  - injection Hrun as <- <-. exists []. by rewrite app_nil_r.
  - apply Forall_cons in Hall as [Hev Hall].
    destruct (Hev ctx actual expected w) as (evs1 & Ht1 & Hp1).
    destruct (ev ctx actual expected w) as [[score|err] w1]; simpl in Ht1.
    + apply IH in Hrun as (evs2 & Ht2 & Hp2); [|done].
      exists (evs1 ++ evs2). rewrite Ht2, Ht1, <- app_assoc. split; [done|].
      by apply Forall_app.
    + injection Hrun as <- <-. by exists evs1.
Qed.

(** The verdict on one case. *)
Lemma runCase_spec c (w : World S) res w' :
  runCase s ctx c w = Some (res, w') ->
  CaseName res = case_Name c /\ cr_Expected res = case_Expected c /\
  cr_Pass res = passes res /\
  (length (Scores res) <= length (evals s))%nat /\
  (Error res = None -> length (Scores res) = length (evals s)).
Proof.
  assert (Hfail : forall err,
    let res := failCase err
                 (mkCaseResult (case_Name c) false "" (case_Expected c) [] None) in
    CaseName res = case_Name c /\ cr_Expected res = case_Expected c /\
    cr_Pass res = passes res /\
    (length (Scores res) <= length (evals s))%nat /\
    (Error res = None -> length (Scores res) = length (evals s))).
  { intros err. simpl. repeat split; try done. lia. }
  assert (Heval : forall actual (w1 : World S),
    evalLoop (evals s) ctx actual (case_Expected c)
      (mkCaseResult (case_Name c) false actual (case_Expected c) [] None) true w1
      = (res, w') ->
    CaseName res = case_Name c /\ cr_Expected res = case_Expected c /\
    cr_Pass res = passes res /\
    (length (Scores res) <= length (evals s))%nat /\
    (Error res = None -> length (Scores res) = length (evals s))).
  { intros actual w1 Hrun.
    apply evalLoop_spec in Hrun as (Hn & _ & He & new & Hs & Hcase).
    simpl in *. subst new. split; [done|]. split; [done|]. unfold passes.
    destruct Hcase as [(Herr & Hlen & Hp)|(err & Herr & Hp & Hlen)].
    - rewrite Herr, Hp, Hlen. repeat split; try done.
    - rewrite Herr, Hp. repeat split; try done; lia. }
  unfold runCase. destruct (exec s) as [e|].
  - destruct (Execute e ctx _ w) as [[result [err|]] w1].
    + intros [= <- <-]. apply Hfail.
    + destruct result as [result|]; [|done]. intros [= Hrun]. by eapply Heval.
  - destruct (prompt s) as [p|]; [|done].
    destruct (Render p ctx (case_Input c) w) as [[rendered|err] w1].
    + intros [= Hrun]. by eapply Heval.
    + intros [= <- <-]. apply Hfail.
Qed.


(** The events of one case: those of the suite itself, and those of its
    evaluators. *)
Lemma runCase_events (P : Event -> Prop) c (w : World S) res w' :
  Forall (evaluatesWith P) (evals s) ->
  c ∈ cases s ->
  runCase s ctx c w = Some (res, w') ->
  exists evs,
    trace w' = trace w ++ evs /\
    Forall (fun ev => suiteEvent s ctx ev \/ P ev) evs.
Proof.
  intros Hevals Hc. unfold runCase. destruct (exec s) as [e|] eqn:He.
  - pose proof (executor_props.Execute_events e ctx
      (mkExecuteRequest (prompt s) (case_Input c) "" PrimFloat.zero 0 [] 0) w)
      as (evs & Ht & Hevs).
    destruct (Execute e ctx _ w) as [[result err] w1]. simpl in Ht.
    assert (Hsuite : Forall (fun ev => suiteEvent s ctx ev \/ P ev) evs).
    { eapply Forall_impl; [exact Hevs|]. intros [id input|c0 q out]; simpl.
      - intros [Hp ->]. left. split; [done|]. by exists c.
      - intros [-> (p & rendered & _ & ->)]. left.
        rewrite executor_props.buildRequest_default by done. simpl.
        repeat split; try done. exists e. split; [done|].
        unfold attemptCtx. simpl. destruct (0 <? BaseTimeout e); eauto. }
    destruct err as [err|].
    + intros [= <- <-]. eauto.
    + destruct result as [result|]; [|done]. intros [= Hrun].
      apply (evalLoop_events P) in Hrun as (evs2 & Ht2 & Hp2); [|done].
      exists (evs ++ evs2). rewrite Ht2, Ht, <- app_assoc. split; [done|].
      apply Forall_app. split; [done|].
      eapply Forall_impl; [exact Hp2|]. intros ev Hev. by right.
  - destruct (prompt s) as [p|] eqn:Hp; [|done].
    unfold Render. simpl.
    assert (Hrender : suiteEvent s ctx (EvRender (ID p) (case_Input c))).
    { simpl. split; [by exists p|by exists c]. }
    destruct (renderer p) as [r|].
    + destruct (r ctx (now w) (case_Input c)) as [rendered|err].
      * intros [= Hrun].
        apply (evalLoop_events P) in Hrun as (evs2 & Ht2 & Hp2); [|done].
        simpl in Ht2. exists (EvRender (ID p) (case_Input c) :: evs2).
        rewrite Ht2, <- app_assoc. split; [done|].
        constructor; [by left|].
        eapply Forall_impl; [exact Hp2|]. intros ev Hev. by right.
      * intros [= <- <-]. exists [EvRender (ID p) (case_Input c)].
        split; [done|]. constructor; [by left|constructor].
    + intros [= <- <-]. exists [EvRender (ID p) (case_Input c)].
      split; [done|]. constructor; [by left|constructor].
Qed.

(** Without an executor a case renders the prompt and leaves the rest to
    the evaluators. *)
Lemma runCase_render_only (P : Event -> Prop) p c (w : World S) res w' :
  Forall (evaluatesWith P) (evals s) ->
  exec s = None -> prompt s = Some p ->
  runCase s ctx c w = Some (res, w') ->
  exists evs,
    trace w' = trace w ++ EvRender (ID p) (case_Input c) :: evs /\
    Forall P evs.
Proof.
  intros Hevals He Hp. unfold runCase. rewrite He, Hp. unfold Render. simpl.
  destruct (renderer p) as [r|].
  - destruct (r ctx (now w) (case_Input c)) as [rendered|err].
    + intros [= Hrun].
      apply (evalLoop_events P) in Hrun as (evs2 & Ht2 & Hp2); [|done].
      simpl in Ht2. exists evs2. by rewrite Ht2, <- app_assoc.
    + intros [= <- <-]. by exists [].
  - intros [= <- <-]. by exists [].
Qed.

Lemma passed_cons res results :
  passed (res :: results) = (if cr_Pass res then 1 else 0) + passed results.
Proof.
  unfold passed. rewrite filter_cons.
  destruct (decide (cr_Pass res = true)) as [->|Hne].
  - simpl length. lia.
  - destruct (cr_Pass res); [done|]. lia.
Qed.

(** The loop of [Run]: one result for each case, in order, and counted. *)
Lemma runCases_spec : forall cs report (w : World S) report' w',
  runCases s ctx cs report w = Some (report', w') ->
  rp_Suite report' = rp_Suite report /\ PromptID report' = PromptID report /\
  Version report' = Version report /\ Total report' = Total report /\
  exists new,
    Results report' = Results report ++ new /\
    map CaseName new = map case_Name cs /\
    map cr_Expected new = map case_Expected cs /\
    Passed report' = Passed report + passed new /\
    Failed report' = Failed report + (Z.of_nat (length new) - passed new) /\
    Forall (fun res => cr_Pass res = passes res /\
                       (length (Scores res) <= length (evals s))%nat /\
                       (Error res = None ->
                        length (Scores res) = length (evals s))) new.
Proof.
  induction cs as [|c rest IH]; intros report w report' w' Hrun; simpl in Hrun.
  - injection Hrun as <- <-. repeat split; try done. exists [].
    rewrite app_nil_r. unfold passed. simpl. repeat split; try done; lia.
  - destruct (runCase s ctx c w) as [[res w1]|] eqn:Hcase; [|done].
    apply runCase_spec in Hcase as (Hn & He & Hp & Hle & Hlen).
    apply IH in Hrun as (H1 & H2 & H3 & H4 & new & Hres & Hnames & Hexp & Hpas
                         & Hfail & Hall).
    simpl in *. repeat split; try done. exists (res :: new).
    rewrite passed_cons. simpl. rewrite Hnames, Hexp, Hn, He.
    split; [by rewrite Hres, <- app_assoc|].
    split; [done|]. split; [done|].
    split; [destruct (cr_Pass res); lia|].
    split; [destruct (cr_Pass res); lia|].
    by constructor.
Qed.


Lemma runCases_events (P : Event -> Prop) :
  forall cs report (w : World S) report' w',
  Forall (evaluatesWith P) (evals s) ->
  cs ⊆ cases s ->
  runCases s ctx cs report w = Some (report', w') ->
  exists evs,
    trace w' = trace w ++ evs /\
    Forall (fun ev => suiteEvent s ctx ev \/ P ev) evs.
Proof.
  induction cs as [|c rest IH]; intros report w report' w' Hevals Hsub Hrun;
    simpl in Hrun.
  - injection Hrun as <- <-. exists []. by rewrite app_nil_r.
  - destruct (runCase s ctx c w) as [[res w1]|] eqn:Hcase; [|done].
    apply (runCase_events P) in Hcase as (evs1 & Ht1 & He1);
      [|done|apply Hsub; by left].
    apply IH in Hrun as (evs2 & Ht2 & He2);
      [|done|intros x Hx; apply Hsub; by right].
    exists (evs1 ++ evs2). rewrite Ht2, Ht1, <- app_assoc. split; [done|].
    by apply Forall_app.
Qed.

Lemma runCases_render_only (P : Event -> Prop) p :
  forall cs report (w : World S) report' w',
  Forall (evaluatesWith P) (evals s) ->
  exec s = None -> prompt s = Some p ->
  runCases s ctx cs report w = Some (report', w') ->
  exists evss,
    length evss = length cs /\
    trace w' = trace w ++
      concat (zip_with (fun c evs => EvRender (ID p) (case_Input c) :: evs)
                cs evss) /\
    Forall (Forall P) evss.
Proof.
  induction cs as [|c rest IH]; intros report w report' w' Hevals He Hp Hrun;
    simpl in Hrun.
  - injection Hrun as <- <-. exists []. simpl. by rewrite app_nil_r.
  - destruct (runCase s ctx c w) as [[res w1]|] eqn:Hcase; [|done].
    apply (runCase_render_only P p) in Hcase as (evs1 & Ht1 & Hp1);
      [|done|done|done].
    apply IH in Hrun as (evss & Hlen & Ht2 & Hp2); [|done|done|done].
    exists (evs1 :: evss). split; [simpl; by rewrite Hlen|].
    split; [|by constructor].
    rewrite Ht2, Ht1. simpl. by rewrite <- !app_assoc.
Qed.

(** Lists of events none of which exists are empty. *)
Lemma zip_with_render_nil {A : Type} (f : A -> Event) (cs : list A) :
  forall evss : list (list Event),
  length evss = length cs ->
  Forall (Forall (fun _ => False)) evss ->
  concat (zip_with (fun c evs => f c :: evs) cs evss) = map f cs.
Proof.
  induction cs as [|c rest IH]; intros [|evs evss] Hlen Hall; simpl in *;
    try done.
  apply Forall_cons in Hall as [Hevs Hall].
  destruct evs as [|ev evs]; [|by apply Forall_cons in Hevs as [[] _]].
  simpl. f_equal. apply IH; [lia|done].
Qed.


(** X26.  Without a prompt [Run] returns the error
    "evaluator: prompt is required" and does nothing.  In a report, a case
    passes exactly when it met no error and every score passes; a result has
    no more scores than the suite has evaluators, and a result without error
    has one score for each evaluator. *)
Theorem Run_verdicts (w : World S) :
  (prompt s = None ->
   Run s ctx w
     = Some ((None, Some (ErrOther "evaluator: prompt is required")), w)) /\
  (forall report err w',
     Run s ctx w = Some ((Some report, err), w') ->
     Forall (fun res =>
               cr_Pass res = passes res /\
               (length (Scores res) <= length (evals s))%nat /\
               (Error res = None -> length (Scores res) = length (evals s)))
            (Results report)).
Proof.
  unfold Run. split; [by intros ->|].
  intros report err w'. destruct (prompt s) as [p|]; [|done].
  destruct (runCases s ctx (cases s) _ w) as [[report0 w1]|] eqn:Hrun; [|done].
  intros [= <- <- <-]. simpl.
  apply runCases_spec in Hrun as (_ & _ & _ & _ & new & Hres & _ & _ & _ & _
                                  & Hall).
  by rewrite Hres.
Qed.

(** X27.  Without an executor the suite itself only renders: the events
    of its run are, for each case in the order of the cases, one rendering
    of the prompt on the input of the case, followed by the events of the
    evaluators, a judge's calls for instance; the suite adds no call of its
    own.  With evaluators that add no event the run consists of the
    renderings alone. *)
Theorem Run_without_executor (P : Event -> Prop) p (w : World S) r w' :
  exec s = None -> prompt s = Some p ->
  Forall (evaluatesWith P) (evals s) ->
  Run s ctx w = Some (r, w') ->
  (exists evss,
     length evss = length (cases s) /\
     trace w' = trace w ++
       concat (zip_with (fun c evs => EvRender (ID p) (case_Input c) :: evs)
                 (cases s) evss) /\
     Forall (Forall P) evss) /\
  ((forall ev, ~ P ev) ->
   trace w' = trace w ++ map (fun c => EvRender (ID p) (case_Input c)) (cases s)).
Proof.
  intros He Hp Hevals. unfold Run. rewrite Hp.
  destruct (runCases s ctx (cases s) _ w) as [[report0 w1]|] eqn:Hrun; [|done].
  intros [= <- <-].
  apply (runCases_render_only P p) in Hrun as (evss & Hlen & Ht & Hall);
    [|done|done|done].
  split; [by exists evss|].
  intros Hnone. rewrite Ht. f_equal. apply zip_with_render_nil; [done|].
  eapply Forall_impl; [exact Hall|]. intros evs Hevs.
  eapply Forall_impl; [exact Hevs|]. intros ev Hev. by apply (Hnone ev).
Qed.

(** X28.  The requests of the suite itself cannot be tuned: every event
    of a run that is not an event of one of its evaluators is a call for
    the default model "gpt-3.5-turbo", without a limit of tokens or stop
    tokens, under the caller's context or under it with the executor's own
    timeout, or the rendering of the suite's prompt on the input of one of
    its cases. *)
Theorem Run_events (P : Event -> Prop) (w : World S) r w' :
  Forall (evaluatesWith P) (evals s) ->
  Run s ctx w = Some (r, w') ->
  exists evs,
    trace w' = trace w ++ evs /\
    Forall (fun ev => suiteEvent s ctx ev \/ P ev) evs.
Proof.
  intros Hevals. unfold Run. destruct (prompt s) as [p|].
  - destruct (runCases s ctx (cases s) _ w) as [[report0 w1]|] eqn:Hrun; [|done].
    intros [= <- <-]. by eapply runCases_events.
  - intros [= <- <-]. exists []. by rewrite app_nil_r.
Qed.

End SuiteProps.

End evaluator_props.

(** * The definitions at work *)

Module examples.

Import executor chain middleware mock.

(** The scenario of two failures and a success: content "ok" at the third
    attempt. *)
Example Execute_third_attempt :
  (executor.Execute recoveringExecutor Background (request promptA) world0).1 =
  (Some (mkExecuteResult "ok" usage0 "mock" renderedA 3), None).
Proof. vm_compute. reflexivity. Qed.

(** The scenario of the four steps: every step's output under its name. *)
Example Execute_four_steps :
  outputsAt ["a"; "b"; "c"; "d"]
    (chain.Execute inOrder fourSteps Background ∅ world0) =
  Some [Some "a"; Some "b"; Some "c"; Some "d"].
Proof. vm_compute. reflexivity. Qed.

(** The scenario of the breaker: ten failures open it for 30 seconds, the
    eleventh call fails at once without reaching the service, and the call
    made when the 30 seconds are over goes through and closes it. *)
Example breaker_scenario :
  let next := failThenOk 10 boom "ok" in
  let '(c10, w10) :=
    breakerCalls next 10 (CircuitBreaker 0.5%float (30 * Second)) (worldAt 0) in
  let '(out11, c11, w11) :=
    circuitBreakerProvider_Complete next c10 Background (completionRequest "m" "u")
      w10 in
  let '(out12, c12, w12) :=
    circuitBreakerProvider_Complete next c11 Background (completionRequest "m" "u")
      (setNow (30 * Second) w11) in
  (state c10, openUntil c10, length (trace w10)) = (cbOpen, 30 * Second, 10%nat) /\
  (out11, state c11, length (trace w11)) = (inr DeadlineExceeded, cbOpen, 10%nat) /\
  (out12, state c12, length (trace w12)) = (inl (response "ok"), cbClosed, 11%nat).
Proof. vm_compute. repeat split; reflexivity. Qed.

(** C3 at work: three calls to a service that never answers, and the error
    after three attempts. *)
Lemma Execute_attempts_witness :
  exists outs : list Outcome,
    Z.of_nat (length outs) = 3 /\
    (executor.Execute failingExecutor Background (request promptA) world0).1 =
    (None, Some (ErrExecutorAfter 3 (Some boom))).
Proof.
  destruct (executor_props.Execute_attempts failingExecutor Background
              (request promptA) world0 promptA (nameRenderer "a") renderedA 2
              eq_refl ltac:(lia) eq_refl eq_refl eq_refl)
    as (outs & _ & Hfail & _).
  destruct Hfail as (Hlen & err & _ & _).
  { intros c q t s. by exists boom. }
  exists outs. split; [exact Hlen|]. vm_compute. reflexivity.
Defined.

(** C10 at work: the request names no model. *)
Lemma Execute_default_model_witness :
  exists evs,
    trace (executor.Execute recoveringExecutor Background (request promptA) world0).2
      = trace world0 ++ evs /\
    forall c q out, EvComplete c q out ∈ evs -> req_Model q = "gpt-3.5-turbo".
Proof.
  destruct (executor_props.Execute_default_model recoveringExecutor Background
              (request promptA) world0 eq_refl) as (evs & Ht & Hm & _).
  exists evs. split; [exact Ht|exact Hm].
Defined.

(** C1 on the code: under a context cancelled at instant 5, the service
    answers the first call of [executor.Execute] with the cancellation
    error; [Execute] sleeps its whole backoff of 100 and calls again, and
    returns at instant 100 the error after two attempts.  The step of a
    chain in the same situation, a first attempt failed at instant 0 and a
    backoff of 100, returns the context's error at instant 5 after its one
    attempt. *)
Theorem Execute_retries_cancellation :
  (executor.Execute cancelledExecutor cancelledAt5 (request promptA) world0).1 =
    (None, Some (ErrExecutorAfter 2 (Some Canceled))) /\
  length (completions
            (trace (executor.Execute cancelledExecutor cancelledAt5
                      (request promptA) world0).2)) = 2%nat /\
  now (executor.Execute cancelledExecutor cancelledAt5 (request promptA) world0).2
    = 100 /\
  (fun r => (r.1, now r.2, length (completions (trace r.2)))) <$>
    runStep backoffChain cancelledAt5 stepWithBackoff ∅ world0
    = Some (("", Some Canceled), 5, 1%nat).
Proof. vm_compute. repeat split; reflexivity. Qed.




(** C4 at work: the tenth request fails as the fifth failure and the
    breaker opens at a threshold of one half; open, it answers the
    deadline error before [openUntil] without calling the service. *)
Lemma breaker_witness :
  (exists out c' w',
     circuitBreakerProvider_Complete (alwaysFail boom) closedBreaker Background
       (completionRequest "m" "u") (worldAt 200) = (out, c', w') /\
     state c' = cbOpen /\ requests c' = 10 /\ failures c' = 5 /\
     openUntil c' = 200 + 30 * Second) /\
  circuitBreakerProvider_Complete (alwaysFail boom) openBreaker Background
    (completionRequest "m" "u") (worldAt 50)
  = (inr DeadlineExceeded, openBreaker, worldAt 50).
Proof.
  split.
  - eassert (Hrun : circuitBreakerProvider_Complete (alwaysFail boom) closedBreaker
                      Background (completionRequest "m" "u") (worldAt 200)
                    = (_, _, _)) by (vm_compute; reflexivity).
    destruct (proj1 (middleware_props.breaker_opens_on_rate_and_fails_fast
                       (alwaysFail boom) closedBreaker Background
                       (completionRequest "m" "u") (worldAt 200))
                _ _ _ eq_refl Hrun) as (Hreq & Hopen & Huntil & _).
    eexists _, _, _. split; [exact Hrun|].
    assert (Hst : state
                    (circuitBreakerProvider_Complete (alwaysFail boom) closedBreaker
                       Background (completionRequest "m" "u") (worldAt 200)).1.2
                  = cbOpen).
    { rewrite Hrun. apply Hopen. split; [by eexists|].
      split; vm_compute; [discriminate|reflexivity]. }
    rewrite Hrun in Hst.
    split; [exact Hst|]. split; [exact Hreq|]. split; [reflexivity|].
    exact (Huntil Hst).
  - apply (proj2 (middleware_props.breaker_opens_on_rate_and_fails_fast
                    (alwaysFail boom) openBreaker Background
                    (completionRequest "m" "u") (worldAt 50))).
    + reflexivity.
    + vm_compute. reflexivity.
Defined.

(** C5 at work: a first call at instant 0 with an empty cache and no time
    to live configured, a second one an hour later. *)
Lemma cache_witness :
  exists c1,
    cacheProvider_Complete (failThenOk 0 boom "ok") encodeContent decodeContent
      (CacheMiddleware (Some ∅) 0) Background (completionRequest "m" "u") world0
    = (inl (response "ok"), c1, mkWorld 0 1%nat
         [EvComplete Background (completionRequest "m" "u") (inl (response "ok"))]) /\
    cacheProvider_Complete (failThenOk 0 boom "ok") encodeContent decodeContent
      c1 Background (completionRequest "m" "u") (mkWorld Hour 1%nat [])
    = (inl (response "ok"), c1, mkWorld Hour 1%nat []).
Proof.
  assert (Hmiss : cacheLookup decodeContent (CacheMiddleware (Some ∅) 0)
                    (cacheKey (completionRequest "m" "u")) (now world0) = None)
    by (vm_compute; reflexivity).
  destruct (middleware_props.cache_hit_within_ttl (failThenOk 0 boom "ok")
              encodeContent decodeContent (CacheMiddleware (Some ∅) 0) ∅ Background
              (completionRequest "m" "u") world0 (response "ok")
              (mkWorld 0 1%nat
                 [EvComplete Background (completionRequest "m" "u")
                    (inl (response "ok"))])
              (String.list_byte_of_string "ok") (response "ok")
              eq_refl Hmiss eq_refl eq_refl eq_refl)
    as ((c1 & Hfirst & _ & _ & Hsecond) & _ & _).
  exists c1. split; [exact Hfirst|].
  apply Hsecond; first [reflexivity | vm_compute; discriminate].
Defined.


(** C7 on the code: the step "b" of a parallel group exhausts its retries
    and its fallback, and the error that [chain.Execute] returns does not
    carry the step's name; the same step in a sequential node is reported
    under its name. *)
Theorem parallel_error_carries_no_step_name :
  fst <$> chain.Execute inOrder parallelChain Background ∅ world0 =
    Some (None, Some (ErrStepAndFallbackFailed (ErrExecutorAfter 1 (Some boom)))) /\
  fst <$> chain.Execute inOrder sequentialChain Background ∅ world0 =
    Some (None, Some (ErrChainStep "b"
                        (ErrStepAndFallbackFailed (ErrExecutorAfter 1 (Some boom))))).
Proof. vm_compute. split; reflexivity. Qed.

(** C8 at work: a step whose condition is never met. *)
Lemma skipped_witness :
  runSequential fourSteps Background [neverStep] (mkChainResult ∅) ∅ world0 =
    Some (inr (mkChainResult ∅, ∅), world0) /\
  runParallel inOrder fourSteps Background [plainStep "b"; neverStep] ∅
    (mkChainResult ∅) world0 =
  runParallel inOrder fourSteps Background [plainStep "b"] ∅ (mkChainResult ∅) world0.
Proof.
  destruct (chain_props.skipped_step_is_absent inOrder fourSteps Background neverStep
              (mkChainResult ∅) ∅ world0 (fun l => Permutation_refl l) eq_refl)
    as (_ & Hseq & Hpar & _).
  split; [exact Hseq|]. exact (Hpar [plainStep "b"] []).
Defined.

(** C9 at work: step "a" has written its output when step "bad" fails, and
    no result is returned, only the error under the name of the step. *)
Lemma nil_result_witness :
  exists result1 w1 w3,
    runNodes inOrder halfwayChain Background [mkNode false [plainStep "a"]]
      (mkChainResult ∅) ∅ world0 = Some ((Some result1, None), w1) /\
    outputs result1 !! "a" = Some "a" /\
    chain.Execute inOrder halfwayChain Background ∅ world0
      = Some ((None, Some (ErrChainStep "bad" (ErrExecutorAfter 1 (Some boom)))),
              w3).
Proof.
  eassert (Hpre : runNodes inOrder halfwayChain Background
                    [mkNode false [plainStep "a"]] (mkChainResult ∅) ∅ world0
                  = Some ((Some _, None), _)) by (vm_compute; reflexivity).
  match type of Hpre with
  | _ = Some ((Some ?r1, None), ?w1) =>
      eassert (Hstep : runStep halfwayChain Background (plainStep "bad")
                         (mergeInput (outputs r1) ∅) w1
                       = Some ((_, Some (ErrExecutorAfter 1 (Some boom))), _))
        by (vm_compute; reflexivity)
  end.
  pose proof (proj1 (proj2 (chain_props.Execute_nil_result_on_error inOrder
                              halfwayChain Background ∅ world0))
                [mkNode false [plainStep "a"]] (mkNode false [plainStep "bad"]) []
                _ _ [] (plainStep "bad") [] _ _ _ _ _ _
                eq_refl Hpre eq_refl eq_refl eq_refl eq_refl Hstep) as Hrun.
  match type of Hpre with
  | _ = Some ((Some ?r1, None), ?w1) => exists r1, w1
  end.
  eexists. split; [exact Hpre|]. split; [|exact Hrun]. vm_compute. reflexivity.
Defined.

(** ** The further properties at work *)

(** A prompt without a renderer: the error of the rendering, and no call. *)
Lemma Execute_without_rendering_witness :
  (exists err,
     (executor.Execute failingExecutor Background (request bareRenderless) world0).1
       = (None, Some err) /\
     err = ErrExecutorRender ErrNoRenderer) /\
  trace (executor.Execute failingExecutor Background (request bareRenderless) world0).2
    = trace world0 ++ [EvRender "n" ∅].
Proof.
  assert (Hno : forall p r rendered,
            xreq_Prompt (request bareRenderless) = Some p ->
            renderer p = Some r ->
            r Background (now world0) (xreq_Input (request bareRenderless))
              <> inl rendered).
  { intros p r rendered [= <-] Hr. discriminate Hr. }
  destruct (executor_props.Execute_without_rendering failingExecutor Background
              (request bareRenderless) world0 Hno)
    as ((err & Hres & Herr) & _ & _ & Ht).
  split; [by exists err|exact Ht].
Defined.

(** An executor whose [MaxRetries] is -1. *)
Lemma Execute_negative_retries_witness :
  executor.Execute noAttempts Background (request promptA) world0 =
  ((None, Some (ErrExecutorAfter 0 None)), logEvent (EvRender "a" ∅) world0).
Proof.
  assert (Hneg : MaxRetries noAttempts < 0) by (vm_compute; reflexivity).
  exact (executor_props.Execute_negative_retries noAttempts Background
           (request promptA) world0 promptA (nameRenderer "a") renderedA
           Hneg eq_refl eq_refl eq_refl).
Defined.

(** Two failures and then an answer, with two retries allowed. *)
Lemma Execute_calls_bounded_witness :
  exists outs : list Outcome,
    (length outs <= 3)%nat /\
    trace (executor.Execute recoveringExecutor Background (request promptA) world0).2
      = trace world0 ++ EvRender "a" ∅
          :: map (EvComplete
                    (attemptCtx recoveringExecutor Background (request promptA) 0)
                    (buildRequest promptA renderedA (request promptA))) outs.
Proof.
  destruct (executor_props.Execute_calls_bounded recoveringExecutor Background
              (request promptA) world0 promptA (nameRenderer "a") renderedA
              eq_refl eq_refl eq_refl) as (outs & Ht & Hlen & _).
  exists outs. split; [exact Hlen|exact Ht].
Defined.

(** One retry after a wait of 100, over a service that takes no time. *)
Lemma Execute_time_slept_witness :
  exists outs : list Outcome,
    now (executor.Execute cancelledExecutor Background (request promptA) world0).2
      = now world0 + sleptFrom (Backoff cancelledExecutor) 0 (pred (length outs)).
Proof.
  destruct (executor_props.Execute_time_slept cancelledExecutor Background
              (request promptA) world0 promptA (nameRenderer "a") renderedA
              (fun _ _ _ _ => eq_refl) eq_refl eq_refl eq_refl)
    as (outs & _ & Hnow & _).
  exists outs. exact Hnow.
Defined.

(** The default backoff of [New] at attempt 3: four seconds. *)
Lemma ExponentialBackoff_capped_witness :
  ExponentialBackoff (fun _ => 0) (500 * Millisecond) (30 * Second) 3
    = Z.min (500 * Millisecond * 2 ^ 3) (30 * Second).
Proof.
  assert (Hbase : 0 <= 500 * Millisecond) by (vm_compute; discriminate).
  assert (Hatt : 0 <= 3 <= 62) by lia.
  assert (Hfits : 500 * Millisecond * 2 ^ 3 < 2 ^ 63) by (vm_compute; reflexivity).
  exact (proj1 (proj2 (executor_props.ExponentialBackoff_capped (fun _ => 0)
                         (500 * Millisecond) (30 * Second) 3 Hbase Hatt Hfits))).
Defined.

(** An executor made without options, over a service that never answers. *)
Lemma New_single_attempt_witness :
  exists out t st,
    alwaysFail boom
      (attemptCtx (New (fun _ => 0) (alwaysFail boom) []) Background
         (request promptA) (now world0))
      (buildRequest promptA renderedA (request promptA)) (now world0) (pst world0)
    = (out, t, st) /\
    executor.Execute (New (fun _ => 0) (alwaysFail boom) []) Background
      (request promptA) world0 =
      (match out with
       | inl resp =>
           (Some (mkExecuteResult (resp_Content resp) (resp_Usage resp)
                    (resp_Model resp) renderedA 1), None)
       | inr err => (None, Some (ErrExecutorAfter 1 (Some err)))
       end,
       mkWorld t st
         (trace world0 ++
          [EvRender (ID promptA) (xreq_Input (request promptA));
           EvComplete
             (attemptCtx (New (fun _ => 0) (alwaysFail boom) []) Background
                (request promptA) (now world0))
             (buildRequest promptA renderedA (request promptA)) out])).
Proof.
  exact (proj1 (executor_props.New_single_attempt (fun _ => 0) (alwaysFail boom)
                  Background (request promptA) world0 promptA (nameRenderer "a")
                  renderedA eq_refl eq_refl eq_refl)).
Defined.

(** A step under a timeout of 50, started at instant 0. *)
Lemma runStep_timeout_covers_step_witness :
  exists r w' evs,
    runStep timedChain Background timedStep ∅ world0 = Some (r, w') /\
    trace w' = trace world0 ++ evs /\
    forall cx q out, EvComplete cx q out ∈ evs ->
      exists d, deadline cx = Some d /\ d <= now world0 + timeout timedStep.
Proof.
  eassert (Hrun : runStep timedChain Background timedStep ∅ world0 = Some (_, _))
    by (vm_compute; reflexivity).
  assert (Hpos : 0 < timeout timedStep) by (vm_compute; reflexivity).
  destruct (chain_props.runStep_timeout_covers_step timedChain Background timedStep
              ∅ world0 _ _ Hpos Hrun) as (evs & Ht & Hall).
  eexists _, _, evs. split; [exact Hrun|]. split; [exact Ht|].
  intros cx q out Hin. exact (proj1 (proj2 (Hall cx q out Hin))).
Defined.

(** A step whose [maxRetries] is -1, in a chain with an executor. *)
Lemma runStep_negative_retries_witness :
  runStep timedChain Background unreachedStep ∅ world0
    = renderOnly unreachedStep (stepCtx Background unreachedStep (now world0)) ∅
        world0.
Proof.
  assert (Hneg : maxRetries unreachedStep < 0) by (vm_compute; reflexivity).
  exact (proj1 (chain_props.runStep_negative_retries timedChain Background
                  unreachedStep ∅ world0 Hneg)).
Defined.

(** The chain of the four steps has no executor. *)
Lemma Execute_render_only_witness :
  exists ret w' evs,
    chain.Execute inOrder fourSteps Background ∅ world0 = Some (ret, w') /\
    trace w' = trace world0 ++ evs /\
    forall ev, ev ∈ evs -> isComplete ev = false.
Proof.
  eassert (Hrun : chain.Execute inOrder fourSteps Background ∅ world0
                  = Some (_, _)) by (vm_compute; reflexivity).
  destruct (chain_props.Execute_render_only inOrder fourSteps Background ∅ world0
              _ _ (fun l => Permutation_refl l) eq_refl Hrun) as (evs & Ht & Hall).
  eexists _, _, evs. split; [exact Hrun|]. split; [exact Ht|exact Hall].
Defined.

(** A chain without a default model. *)
Lemma Execute_chain_model_witness :
  exists ret w' evs,
    chain.Execute inOrder echoChain Background ∅ world0 = Some (ret, w') /\
    trace w' = trace world0 ++ evs /\
    forall cx q out, EvComplete cx q out ∈ evs -> req_Model q = "gpt-3.5-turbo".
Proof.
  eassert (Hrun : chain.Execute inOrder echoChain Background ∅ world0
                  = Some (_, _)) by (vm_compute; reflexivity).
  destruct (chain_props.Execute_chain_model inOrder echoChain Background ∅ world0
              _ _ (fun l => Permutation_refl l) Hrun) as (evs & Ht & Hall).
  eexists _, _, evs. split; [exact Hrun|]. split; [exact Ht|exact Hall].
Defined.

(** A chain run under a context that is cancelled at instant 5. *)
Lemma Execute_chain_context_witness :
  exists ret w' evs,
    chain.Execute inOrder halfwayChain cancelledAt5 ∅ world0 = Some (ret, w') /\
    trace w' = trace world0 ++ evs /\
    forall cx q out, EvComplete cx q out ∈ evs -> cancelAt cx = Some 5.
Proof.
  eassert (Hrun : chain.Execute inOrder halfwayChain cancelledAt5 ∅ world0
                  = Some (_, _)) by (vm_compute; reflexivity).
  destruct (chain_props.Execute_chain_context inOrder halfwayChain cancelledAt5 ∅
              world0 _ _ (fun l => Permutation_refl l) Hrun) as (evs & Ht & Hall).
  eexists _, _, evs. split; [exact Hrun|]. split; [exact Ht|].
  intros cx q out Hin. exact (proj1 (Hall cx q out Hin)).
Defined.

(** The chain of the four steps on an input with the entry "topic". *)
Lemma Execute_chain_inputs_witness :
  exists ret w' evs,
    chain.Execute inOrder fourSteps Background {[ "topic" := VStr "go" ]} world0
      = Some (ret, w') /\
    trace w' = trace world0 ++ evs /\
    forall id inp, EvRender id inp ∈ evs -> inp !! "topic" = Some (VStr "go").
Proof.
  eassert (Hrun : chain.Execute inOrder fourSteps Background
                    {[ "topic" := VStr "go" ]} world0
                  = Some (_, _)) by (vm_compute; reflexivity).
  destruct (chain_props.Execute_chain_inputs inOrder fourSteps Background
              {[ "topic" := VStr "go" ]} world0
              _ _ (fun l => Permutation_refl l) Hrun) as (evs & Ht & Hall).
  assert (Hnot : "topic" ∉ stepNames (nodes fourSteps)).
  { vm_compute. intros Hin. repeat (apply elem_of_cons in Hin as [Hin|Hin];
      [discriminate Hin|]). by apply elem_of_nil in Hin. }
  assert (Hlook : ({[ "topic" := VStr "go" ]} : Input) !! "topic"
                  = Some (VStr "go")) by (vm_compute; reflexivity).
  eexists _, _, evs. split; [exact Hrun|]. split; [exact Ht|].
  intros id inp Hin. rewrite <- Hlook. exact (Hall id inp "topic" Hin Hnot).
Defined.

(** The result of the chain of the four steps. *)
Lemma Execute_result_keys_witness :
  exists result w',
    chain.Execute inOrder fourSteps Background ∅ world0
      = Some ((Some result, None), w') /\
    Get result "other" = "".
Proof.
  eassert (Hrun : chain.Execute inOrder fourSteps Background ∅ world0
                  = Some ((Some _, None), _)) by (vm_compute; reflexivity).
  destruct (chain_props.Execute_result_keys inOrder (fun l => Permutation_refl l)
              fourSteps Background ∅ world0 _ _ Hrun) as (_ & _ & Hget).
  eexists _, _. split; [exact Hrun|]. apply Hget.
  vm_compute. intros Hin. repeat (apply elem_of_cons in Hin as [Hin|Hin];
    [discriminate Hin|]). by apply elem_of_nil in Hin.
Defined.

(** A group of one step that fails with its fallback. *)
Lemma runParallel_first_error_witness :
  exists outs err w' ps,
    runParallel inOrder parallelChain Background
      [stepWithFallback "b" "bad" "worse"] ∅ (mkChainResult ∅) world0
      = Some ((outs, Some err), w') /\
    runLaunched parallelChain Background
      (inOrder (filter (fun s => skipped Background (mkChainResult ∅) s = false)
                  [stepWithFallback "b" "bad" "worse"])) ∅ world0
      = Some (ps, w') /\
    outs = None.
Proof.
  eassert (Hrun : runParallel inOrder parallelChain Background
                    [stepWithFallback "b" "bad" "worse"] ∅ (mkChainResult ∅) world0
                  = Some ((_, Some _), _)) by (vm_compute; reflexivity).
  destruct (chain_props.runParallel_first_error inOrder
              (fun l => Permutation_refl l) parallelChain Background
              [stepWithFallback "b" "bad" "worse"] ∅ (mkChainResult ∅) world0
              _ _ _ Hrun) as (ps & Hps & _ & Hnone & _).
  eexists _, _, _, ps. split; [exact Hrun|]. split; [exact Hps|exact Hnone].
Defined.

(** A failure after a miss leaves the empty cache empty. *)
Lemma cache_stores_successes_only_witness :
  cacheProvider_Complete (alwaysFail boom) encodeContent decodeContent
    (CacheMiddleware (Some ∅) 0) Background (completionRequest "m" "u") world0
  = (inr boom, CacheMiddleware (Some ∅) 0,
     mkWorld 0 1%nat
       [EvComplete Background (completionRequest "m" "u") (inr boom)]).
Proof.
  assert (Hmiss : cacheLookup decodeContent (CacheMiddleware (Some ∅) 0)
                    (cacheKey (completionRequest "m" "u")) (now world0) = None)
    by (vm_compute; reflexivity).
  exact (proj1 (middleware_props.cache_stores_successes_only (alwaysFail boom)
                  encodeContent decodeContent (CacheMiddleware (Some ∅) 0)
                  Background (completionRequest "m" "u") world0 Hmiss)
           boom _ eq_refl).
Defined.

(** An entry expired at instant 10 and a call at instant 20, with a time to
    live of an hour. *)
Lemma cache_refreshes_expired_entry_witness :
  exists c1,
    cacheProvider_Complete (failThenOk 0 boom "ok") encodeContent decodeContent
      staleCache Background (completionRequest "m" "u") (worldAt 20)
    = (inl (response "ok"), c1,
       mkWorld 20 1%nat
         [EvComplete Background (completionRequest "m" "u") (inl (response "ok"))]).
Proof.
  assert (Hentry : ({[ cacheKey (completionRequest "m" "u") := mkCacheEntry [] 10 ]}
                      : gmap string cacheEntry)
                     !! cacheKey (completionRequest "m" "u")
                   = Some (mkCacheEntry [] 10)) by (vm_compute; reflexivity).
  assert (Hexp : expires (mkCacheEntry [] 10) < now (worldAt 20))
    by (vm_compute; reflexivity).
  destruct (middleware_props.cache_refreshes_expired_entry (failThenOk 0 boom "ok")
              encodeContent decodeContent staleCache _ _ Background
              (completionRequest "m" "u") (worldAt 20) (response "ok") _ _
              eq_refl Hentry Hexp eq_refl eq_refl) as [Hrun _].
  eexists. exact Hrun.
Defined.

(** Two requests that differ in their settings only. *)
Lemma cacheKey_injective_witness :
  req_Model tunedRequest = req_Model (completionRequest "m" "u") /\
  req_System tunedRequest = req_System (completionRequest "m" "u") /\
  req_Prompt tunedRequest = req_Prompt (completionRequest "m" "u").
Proof.
  exact (middleware_props.cacheKey_injective tunedRequest
           (completionRequest "m" "u") eq_refl eq_refl eq_refl eq_refl eq_refl).
Defined.

(** The tenth request of a closed breaker, a failure. *)
Lemma breaker_call_witness :
  exists out c' w',
    circuitBreakerProvider_Complete (alwaysFail boom) closedBreaker Background
      (completionRequest "m" "u") (worldAt 200) = (out, c', w') /\
    state c' <> cbHalfOpen /\
    threshold c' = threshold closedBreaker /\
    cb_timeout c' = cb_timeout closedBreaker.
Proof.
  eassert (Hrun : circuitBreakerProvider_Complete (alwaysFail boom) closedBreaker
                    Background (completionRequest "m" "u") (worldAt 200)
                  = (_, _, _)) by (vm_compute; reflexivity).
  destruct (middleware_props.breaker_call (alwaysFail boom) closedBreaker Background
              (completionRequest "m" "u") (worldAt 200) _ _ _ Hrun)
    as (Hst & Hth & Hto & _).
  eexists _, _, _. split; [exact Hrun|]. split; [exact Hst|].
  split; [exact Hth|exact Hto].
Defined.

(** Three failures through a new breaker. *)
Lemma breaker_first_nine_calls_witness :
  state (breakerRun (alwaysFail boom) (CircuitBreaker 0.5%float (30 * Second))
           threeCalls world0).1.2 = cbClosed /\
  requests (breakerRun (alwaysFail boom) (CircuitBreaker 0.5%float (30 * Second))
              threeCalls world0).1.2 = Z.of_nat (length threeCalls).
Proof.
  assert (Hlen : (length threeCalls <= 9)%nat) by (vm_compute; lia).
  destruct (middleware_props.breaker_first_nine_calls (alwaysFail boom) 0.5%float
              (30 * Second) threeCalls world0 Hlen) as (_ & _ & Hst & Hreq).
  split; [exact Hst|exact Hreq].
Defined.

(** The suite of two cases over the echoing service: the prompt's text
    "a" comes back, the first case passes and the second fails. *)
Example Run_two_cases :
  countsOf (evaluator.Run echoSuite Background world0) = Some (2, 1, 1) /\
  countsOf (evaluator.Run renderSuite Background world0) = Some (2, 1, 1).
Proof. vm_compute. split; reflexivity. Qed.

(** The judged suite without an executor: the two calls of its run are the
    judge's, one for each case, for the model "gpt-4o-mini". *)
Example Run_judged_calls :
  (fun r => map (fun ev => match ev with
                           | EvComplete _ q _ => req_Model q
                           | EvRender id _ => id
                           end) (trace r.2)) <$>
    evaluator.Run judgedSuite Background world0
  = Some ["a"; "gpt-4o-mini"; "a"; "gpt-4o-mini"].
Proof. vm_compute. reflexivity. Qed.


(** The evaluators of the judged suites add the calls of the judge only. *)
Lemma judged_evaluators :
  Forall (evaluator.evaluatesWith (evaluator.judgeEvent theJudge))
    [evaluator.ExactMatch (fun s => s); passingJudge].
Proof.
  apply Forall_cons. split; [apply evaluator_props.pureEvaluator_evaluatesWith|].
  apply Forall_cons. split; [apply evaluator_props.LLMJudge_evaluatesWith|].
  constructor.
Qed.

(** The suite of two cases without an executor, judged: each case is one
    rendering and the events of the judge. *)
Lemma Run_without_executor_witness :
  exists r w' evss,
    evaluator.Run judgedSuite Background world0 = Some (r, w') /\
    length evss = 2%nat /\
    trace w' = trace world0 ++
      concat (zip_with (fun c evs => EvRender "a" (evaluator.case_Input c) :: evs)
                (evaluator.cases judgedSuite) evss) /\
    Forall (Forall (evaluator.judgeEvent theJudge)) evss.
Proof.
  eassert (Hrun : evaluator.Run judgedSuite Background world0 = Some (_, _))
    by (vm_compute; reflexivity).
  destruct (evaluator_props.Run_without_executor judgedSuite Background
              (evaluator.judgeEvent theJudge) promptA world0 _ _
              eq_refl eq_refl judged_evaluators Hrun)
    as [(evss & Hlen & Ht & Hall) _].
  eexists _, _, evss. split; [exact Hrun|]. split; [exact Hlen|].
  split; [exact Ht|exact Hall].
Defined.

(** The judged suite over the echoing service: the calls of the executor
    and those of the judge. *)
Lemma Run_events_witness :
  exists r w' evs,
    evaluator.Run judgedEchoSuite Background world0 = Some (r, w') /\
    trace w' = trace world0 ++ evs /\
    Forall (fun ev => evaluator.suiteEvent judgedEchoSuite Background ev \/
                      evaluator.judgeEvent theJudge ev) evs.
Proof.
  eassert (Hrun : evaluator.Run judgedEchoSuite Background world0 = Some (_, _))
    by (vm_compute; reflexivity).
  destruct (evaluator_props.Run_events judgedEchoSuite Background
              (evaluator.judgeEvent theJudge) world0 _ _ judged_evaluators Hrun)
    as (evs & Ht & Hall).
  eexists _, _, evs. split; [exact Hrun|]. split; [exact Ht|exact Hall].
Defined.

End examples.
